(** * Huffman file compressor (main.cpp): model and verification

    A shallow embedding of the codec in [main.cpp]: frequency counting,
    the Huffman tree built on a [std::priority_queue], the substitution
    table, the bit-string encoder, the container written to and read from
    disk, and the tree-walking decoder.

    Conventions.
    - [Byte] is [unsigned char]; [uint32_t] values are integers in [Z] with
      the wrap-around modulo [2^32] written out where the program computes;
      [int] counters are integers in [Z], and their overflow is undefined.
    - A [std::string] of ['0']/['1'] characters is a [list ascii].
    - [std::map<Byte, V>] is an association list kept in ascending key
      order, which is the order in which the program iterates over it.
    - A [HuffmanNode *] is either [nullptr] or a node that owns its two
      children; nodes are never modified after their construction.
    - [std::size_t] has the width that the platform gives it; the header
      fields that the program declares with [auto] have that width.
    - The outcome of a call is a value, a C++ exception, or undefined
      behaviour; loops that the program does not bound are run on fuel.
      Memory allocation is assumed not to fail.

    Contents: the definitions (the program, then the notions used to state
    its properties); facts about the map and the heap algorithms; the tree
    and the substitution table; the size accounting of [compress]; the
    decoder and the inputs the program does not reject; the program on
    concrete inputs; the heap order and the greedy merge; what a round
    trip returns, in memory and through the file; further properties of
    the table, the tree, the bit strings, the container and the decoder;
    the files and the command line. *)

From Stdlib Require Import ZArith List Ascii Lia Permutation Bool.
From Stdlib Require Import Strings.Byte.
From coqutil Require Import Byte.
From stdpp Require Import base list.
Import ListNotations.

Local Open Scope Z_scope.

(** ** Machine integers and basic types *)

Abbreviation Byte := Init.Byte.byte.

Definition CHAR_BIT : Z := 8.
Definition UINT32_MOD : Z := 2 ^ 32.
Definition INT_MAX : Z := 2 ^ 31 - 1.
Definition INT_MIN : Z := - 2 ^ 31.

(** Conversion to [uint32_t]. *)
Definition to_uint32 (z : Z) : Z := z mod UINT32_MOD.

(** [static_cast<int>] of an unsigned value (modular, two's complement). *)
Definition static_cast_int (z : Z) : Z :=
  (z + 2 ^ 31) mod UINT32_MOD - 2 ^ 31.

(** The platform: [std::size_t] is 4 bytes wide on ILP32 targets and 8 bytes
    wide on LP64 ones; integers are stored in the machine's byte order. *)
Record platform := { sizeof_size_t : nat; big_endian : bool }.

Definition ILP32 : platform := {| sizeof_size_t := 4; big_endian := false |}.
Definition LP64 : platform := {| sizeof_size_t := 8; big_endian := false |}.

Definition std_string := list ascii.

Definition PADDING_BIT : ascii := "0"%char.
Definition LEFT_CHAR : ascii := "0"%char.
Definition RIGHT_CHAR : ascii := "1"%char.
Definition NULL_CHAR : Byte := x00.

(** ** Outcomes of a call *)

Inductive exception := out_of_range | invalid_argument.

(** [Undefined] is undefined behaviour of the C++ program (reading an
    uninitialised variable, [top()] of an empty queue, signed overflow, an
    access out of bounds).  [OutOfFuel] is not an outcome of the program: it
    says that the fuel given to the model did not suffice. *)
Inductive outcome (A : Type) :=
| Returns (a : A)
| Throws (e : exception)
| Undefined
| OutOfFuel.

Arguments Returns {A} a.
Arguments Throws {A} e.
Arguments Undefined {A}.
Arguments OutOfFuel {A}.

Definition bind {A B} (c : outcome A) (k : A -> outcome B) : outcome B :=
  match c with
  | Returns a => k a
  | Throws e => Throws e
  | Undefined => Undefined
  | OutOfFuel => OutOfFuel
  end.

Notation "x <- c ;; k" := (bind c (fun x => k))
  (at level 100, c at next level, right associativity).

(** ** [std::map<Byte, V>] *)

Module StdMap.
Section StdMap.
Context {V : Type}.

Definition t := list (Byte * V).

Definition key_lt (a b : Byte) : bool :=
  (byte.unsigned a <? byte.unsigned b).

Fixpoint find (k : Byte) (m : t) : option V :=
  match m with
  | [] => None
  | (k', v) :: m' => if Byte.eqb k k' then Some v else find k m'
  end.

(** [m[k] = v]: replaces the value at [k], or inserts the entry at its
    place in key order. *)
Fixpoint put (k : Byte) (v : V) (m : t) : t :=
  match m with
  | [] => [(k, v)]
  | (k', v') :: m' =>
      if Byte.eqb k k' then (k, v) :: m'
      else if key_lt k k' then (k, v) :: m
      else (k', v') :: put k v m'
  end.

(** [m[k]] as an rvalue: [operator[]] inserts a value-initialised entry
    when the key is absent. *)
Definition subscript (dflt : V) (m : t) (k : Byte) : V * t :=
  match find k m with
  | Some v => (v, m)
  | None => (dflt, put k dflt m)
  end.

Definition keys (m : t) : list Byte := map fst m.

Fixpoint sorted (m : t) : Prop :=
  match m with
  | [] => True
  | (k, _) :: m' => Forall (fun e => key_lt k (fst e) = true) m' /\ sorted m'
  end.
End StdMap.
Arguments t V : clear implicits.
End StdMap.

(** ** Huffman nodes *)

(** A value of type [HuffmanNode *]. *)
Inductive HuffmanNode :=
| nullptr
| Node (byte : Byte) (freq : Z) (lft rgt : HuffmanNode).

Global Instance HuffmanNode_inhabited : Inhabited HuffmanNode :=
  populate nullptr.

Definition is_null (p : HuffmanNode) : bool :=
  match p with nullptr => true | Node _ _ _ _ => false end.

(** [p->freq]; the program only reads it through pointers to nodes. *)
Definition freq_of (p : HuffmanNode) : Z :=
  match p with nullptr => 0 | Node _ f _ _ => f end.

(** [new HuffmanNode(byte, freq)] *)
Definition new_leaf (b : Byte) (f : Z) : HuffmanNode :=
  Node b f nullptr nullptr.

(** [new HuffmanNode(left, right)] *)
Definition new_internal (l r : HuffmanNode) : HuffmanNode :=
  Node NULL_CHAR (to_uint32 (freq_of l + freq_of r)) l r.

Definition greater_frequency (l r : HuffmanNode) : bool :=
  (freq_of r <? freq_of l).

Definition is_leaf (p : HuffmanNode) : bool :=
  match p with
  | nullptr => false
  | Node _ _ l r => is_null l && is_null r
  end.

(** ** [std::priority_queue]

    [std::priority_queue<T, std::vector<T>, Compare>] is specified by the
    standard through the heap algorithms: [push(x)] is [c.push_back(x)]
    followed by [std::push_heap], [pop()] is [std::pop_heap] followed by
    [c.pop_back()], and [top()] is [c.front()].  The standard does not say
    in which order elements that compare equal leave the queue; the heap
    algorithms decide it.  They are modelled after libstdc++
    ([bits/stl_heap.h]).  Indices are natural numbers: where the library
    computes [(holeIndex - 1) / 2] or [(len - 1) / 2] at 0, the truncated
    subtraction here and the division of C++, which truncates toward
    zero, both give 0. *)

Section Heap.
Context {A : Type} `{Inhabited A} (comp : A -> A -> bool).

Local Open Scope nat_scope.

(** [std::__push_heap]: the loop moves the hole up while the parent
    compares less than [value]; [fuel] bounds the number of moves. *)
Fixpoint push_heap_loop (fuel : nat) (first : list A)
    (holeIndex topIndex : nat) (value : A) : list A :=
  let parent := (holeIndex - 1) / 2 in
  match fuel with
  | S fuel' =>
      if (topIndex <? holeIndex) && comp (first !!! parent) value
      then push_heap_loop fuel' (<[holeIndex := first !!! parent]> first)
             parent topIndex value
      else <[holeIndex := value]> first
  | O => <[holeIndex := value]> first
  end.

Definition __push_heap (first : list A) (holeIndex topIndex : nat)
    (value : A) : list A :=
  push_heap_loop holeIndex first holeIndex topIndex value.

(** [std::push_heap(first, last, comp)] on a non-empty range. *)
Definition push_heap (v : list A) : list A :=
  let value := v !!! (length v - 1) in
  __push_heap v (length v - 1) 0 value.

(** The first loop of [std::__adjust_heap]: the hole descends to the
    child that does not compare less than its sibling. *)
Fixpoint adjust_heap_loop (fuel : nat) (first : list A)
    (holeIndex secondChild len : nat) : list A * nat * nat :=
  match fuel with
  | S fuel' =>
      if secondChild <? (len - 1) / 2 then
        let secondChild := 2 * (secondChild + 1) in
        let secondChild :=
          if comp (first !!! secondChild) (first !!! (secondChild - 1))
          then secondChild - 1 else secondChild in
        adjust_heap_loop fuel' (<[holeIndex := first !!! secondChild]> first)
          secondChild secondChild len
      else (first, holeIndex, secondChild)
  | O => (first, holeIndex, secondChild)
  end.

(** [std::__adjust_heap(first, holeIndex, len, value, comp)].  [len] is a
    [ptrdiff_t]: [(len - 2) / 2] is computed on signed integers. *)
Definition __adjust_heap (first : list A) (holeIndex len : nat)
    (value : A) : list A :=
  let topIndex := holeIndex in
  let '(first, holeIndex, secondChild) :=
    adjust_heap_loop len first holeIndex holeIndex len in
  let '(first, holeIndex) :=
    if Nat.even len
       && (Z.of_nat secondChild =? Z.quot (Z.of_nat len - 2) 2)%Z
    then
      let secondChild := 2 * (secondChild + 1) in
      (<[holeIndex := first !!! (secondChild - 1)]> first, secondChild - 1)
    else (first, holeIndex) in
  __push_heap first holeIndex topIndex value.

(** [std::pop_heap(first, last, comp)]: the first element goes to the
    last position and the heap is rebuilt in front of it. *)
Definition pop_heap (v : list A) : list A :=
  if 1 <? length v then
    let last := length v - 1 in
    let value := v !!! last in
    let v := <[last := v !!! 0]> v in
    __adjust_heap v 0 last value
  else v.

Definition priority_queue := list A.

Definition pq_push (c : priority_queue) (x : A) : priority_queue :=
  push_heap (c ++ [x]).

(** [top()] and [pop()] of an empty queue are undefined. *)
Definition pq_top (c : priority_queue) : outcome A :=
  match c with
  | [] => Undefined
  | x :: _ => Returns x
  end.

Definition pq_pop (c : priority_queue) : outcome priority_queue :=
  match c with
  | [] => Undefined
  | _ :: _ => Returns (removelast (pop_heap c))
  end.
End Heap.

(** ** The Huffman algorithm *)

Definition count_frequencies (data : list Byte) : StdMap.t Z :=
  fold_left
    (fun frequencies byte =>
       let '(n, frequencies) := StdMap.subscript 0 frequencies byte in
       StdMap.put byte (to_uint32 (n + 1)) frequencies)
    data [].

Fixpoint create_substitution_table (huffman_tree_root : HuffmanNode)
    (substitution_table : StdMap.t std_string) (substitute_str : std_string)
    : StdMap.t std_string :=
  match huffman_tree_root with
  | nullptr => substitution_table
  | Node byte _ l r =>
      let substitution_table :=
        if is_null l && is_null r
        then StdMap.put byte substitute_str substitution_table
        else substitution_table in
      let substitution_table :=
        create_substitution_table l substitution_table
          (substitute_str ++ [LEFT_CHAR]) in
      create_substitution_table r substitution_table
        (substitute_str ++ [RIGHT_CHAR])
  end.

Definition nodeHeap_push := pq_push greater_frequency.
Definition nodeHeap_pop := pq_pop greater_frequency.
Definition nodeHeap_top := @pq_top HuffmanNode.

(** The [while (nodeHeap.size() > 1)] loop. *)
Fixpoint build_loop (fuel : nat) (nodeHeap : list HuffmanNode)
    : outcome (list HuffmanNode) :=
  if (1 <? length nodeHeap)%nat then
    match fuel with
    | O => OutOfFuel
    | S fuel' =>
        l <- nodeHeap_top nodeHeap ;;
        nodeHeap <- nodeHeap_pop nodeHeap ;;
        r <- nodeHeap_top nodeHeap ;;
        nodeHeap <- nodeHeap_pop nodeHeap ;;
        build_loop fuel' (nodeHeap_push nodeHeap (new_internal l r))
    end
  else Returns nodeHeap.

(** The queue after the [for (auto pair : frequencies)] loop. *)
Definition initial_heap (frequencies : StdMap.t Z) : list HuffmanNode :=
  fold_left
    (fun nodeHeap pair =>
       nodeHeap_push nodeHeap (new_leaf (fst pair) (snd pair)))
    frequencies [].

Definition build_huffman_tree (frequencies : StdMap.t Z)
    : outcome HuffmanNode :=
  let nodeHeap := initial_heap frequencies in
  nodeHeap <- build_loop (length nodeHeap) nodeHeap ;;
  nodeHeap_top nodeHeap.

(** ** Bit strings *)

(** [std::bitset<CHAR_BIT>(byte).to_string()]: most significant bit first. *)
Definition byte_to_bit_string (byte : Byte) : std_string :=
  map (fun i => if Z.testbit (byte.unsigned byte) i then "1"%char else "0"%char)
    [7; 6; 5; 4; 3; 2; 1; 0].

Definition bytes_to_bit_string (bytes : list Byte) : std_string :=
  fold_left (fun bits byte => bits ++ byte_to_bit_string byte) bytes [].

(** The value of [std::bitset<N>(str, pos, n)] for the characters it reads:
    the first character is the most significant bit; a character other than
    ['0'] and ['1'] raises [std::invalid_argument]. *)
Fixpoint bitset_value (chars : std_string) (acc : Z) : outcome Z :=
  match chars with
  | [] => Returns acc
  | c :: chars' =>
      if Ascii.eqb c "0" then bitset_value chars' (2 * acc)
      else if Ascii.eqb c "1" then bitset_value chars' (2 * acc + 1)
      else Throws invalid_argument
  end.

(** [std::bitset<CHAR_BIT>(str, pos, CHAR_BIT).to_ulong()], for [pos] within
    the string: it reads at most [CHAR_BIT] characters from [pos]. *)
Definition bitset_at (str : std_string) (pos : nat) : outcome Z :=
  bitset_value (take 8 (drop pos str)) 0.

(** ** The container file *)

(** The object representation of an unsigned integer of [width] bytes. *)
Definition le_bytes (width : nat) (z : Z) : list Byte :=
  map (fun i => byte.of_Z (Z.shiftr z (8 * Z.of_nat i))) (seq 0 width).

Definition object_bytes (p : platform) (width : nat) (z : Z) : list Byte :=
  if big_endian p then rev (le_bytes width z) else le_bytes width z.

Definition le_value (bytes : list Byte) : Z :=
  fold_right (fun b acc => byte.unsigned b + 256 * acc) 0 bytes.

Definition object_value (p : platform) (bytes : list Byte) : Z :=
  if big_endian p then le_value (rev bytes) else le_value bytes.

Definition sizeof_uint32_t : nat := 4.

(** The loop that writes the packed data; [i] is an [int]. *)
Fixpoint write_data_loop (fuel : nat) (compressed_data : std_string) (i : Z)
    : outcome (list Byte) :=
  if i <? Z.of_nat (length compressed_data) then
    match fuel with
    | O => OutOfFuel
    | S fuel' =>
        v <- bitset_at compressed_data (Z.to_nat i) ;;
        let byte := byte.of_Z (Z.land v 255) in
        if INT_MAX <? i + CHAR_BIT then Undefined
        else
          rest <- write_data_loop fuel' compressed_data (i + CHAR_BIT) ;;
          Returns (byte :: rest)
    end
  else Returns [].

(** Line 338: the padding is appended to the caller's string. *)
Definition pad_data (compressed_data : std_string) (padding : Z) : std_string :=
  compressed_data ++ repeat PADDING_BIT (Z.to_nat padding).

(** Line 342: [compressed_data.length() / CHAR_BIT], a [std::size_t]. *)
Definition data_size_of (compressed_data : std_string) : Z :=
  Z.of_nat (length compressed_data) / CHAR_BIT.

Definition header_bytes (p : platform) (original_file_size : Z)
    (compressed_data : std_string) (padding : Z) (frequencies : StdMap.t Z)
    : list Byte :=
  let data_size := data_size_of compressed_data in
  let frequencies_size := Z.of_nat (length frequencies) in
  object_bytes p sizeof_uint32_t original_file_size
  ++ object_bytes p (sizeof_size_t p) data_size
  ++ object_bytes p sizeof_uint32_t padding
  ++ object_bytes p (sizeof_size_t p) frequencies_size.

Definition table_bytes (p : platform) (frequencies : StdMap.t Z) : list Byte :=
  flat_map
    (fun pair => fst pair :: object_bytes p sizeof_uint32_t (snd pair))
    frequencies.

(** [write_compressed_file]: the bytes written to the file, and the string
    [compressed_data] (passed by reference) as the call leaves it. *)
Definition write_compressed_file (p : platform) (original_file_size : Z)
    (compressed_data : std_string) (padding : Z) (frequencies : StdMap.t Z)
    : outcome (list Byte * std_string) :=
  let compressed_data := pad_data compressed_data padding in
  packed <- write_data_loop (length compressed_data) compressed_data 0 ;;
  Returns
    (header_bytes p original_file_size compressed_data padding frequencies
     ++ table_bytes p frequencies ++ packed,
     compressed_data).

(** ** Compression *)

(** The locals of [compress] when it calls [write_compressed_file]. *)
Record compress_locals := {
  original_file_size : Z;
  frequencies : StdMap.t Z;
  root : HuffmanNode;
  substitution_table : StdMap.t std_string;
  encodedSize : Z;
  padding : Z;
  encoded : std_string
}.

(** Lines 384-387: [encodedSize += frequencies[pair.first] * length]. *)
Definition encoded_size_loop (substitution_table : StdMap.t std_string)
    (frequencies : StdMap.t Z) : Z * StdMap.t Z :=
  fold_left
    (fun '(encodedSize, frequencies) pair =>
       let '(n, frequencies) := StdMap.subscript 0 frequencies (fst pair) in
       (to_uint32 (encodedSize + n * Z.of_nat (length (snd pair))), frequencies))
    substitution_table (0, frequencies).

(** Lines 392-394: [encoded += substitution_table[ch]]. *)
Definition encode_loop (data : list Byte)
    (substitution_table : StdMap.t std_string)
    : std_string * StdMap.t std_string :=
  fold_left
    (fun '(encoded, substitution_table) ch =>
       let '(code, substitution_table) :=
         StdMap.subscript [] substitution_table ch in
       (encoded ++ code, substitution_table))
    data ([], substitution_table).

Definition compress_prepare (data : list Byte) : outcome compress_locals :=
  let original_file_size := to_uint32 (Z.of_nat (length data)) in
  let frequencies := count_frequencies data in
  root <- build_huffman_tree frequencies ;;
  let substitution_table := create_substitution_table root [] [] in
  let '(encodedSize, frequencies) :=
    encoded_size_loop substitution_table frequencies in
  let padding := CHAR_BIT - encodedSize mod CHAR_BIT in
  let '(encoded, substitution_table) := encode_loop data substitution_table in
  Returns {| original_file_size := original_file_size;
             frequencies := frequencies;
             root := root;
             substitution_table := substitution_table;
             encodedSize := encodedSize;
             padding := padding;
             encoded := encoded |}.

(** [compress]: the contents of the file it writes and its return value. *)
Definition compress (p : platform) (data : list Byte)
    : outcome (list Byte * Z) :=
  st <- compress_prepare data ;;
  written <- write_compressed_file p (original_file_size st) (encoded st)
               (padding st) (frequencies st) ;;
  let '(file, encoded) := written in
  Returns (file, to_uint32 (Z.of_nat (length encoded) / CHAR_BIT)).

(** ** Reading the container *)

(** A [std::ifstream] opened on a file: the bytes not yet read, and whether
    the stream is still good.  Once a read has failed every later read fails
    without storing anything. *)
Record ifstream := { unread : list Byte; good : bool }.

Definition open_file (file : list Byte) : ifstream :=
  {| unread := file; good := true |}.

(** [input_file.read(buffer, n)]: the bytes stored into the buffer.  A read
    that meets the end of the file stores what is left and sets [failbit]. *)
Definition stream_read (input_file : ifstream) (n : nat)
    : list Byte * ifstream :=
  if good input_file then
    if (n <=? length (unread input_file))%nat
    then (take n (unread input_file),
          {| unread := drop n (unread input_file); good := true |})
    else (unread input_file, {| unread := []; good := false |})
  else ([], input_file).

(** Reading into a local that was declared without an initialiser: the
    local holds a value only if all its bytes were stored; otherwise it is
    indeterminate ([None]). *)
Definition read_uint32 (p : platform) (input_file : ifstream)
    : option Z * ifstream :=
  let '(bytes, input_file) := stream_read input_file sizeof_uint32_t in
  (if (length bytes =? sizeof_uint32_t)%nat
   then Some (object_value p bytes) else None,
   input_file).

Definition read_Byte (input_file : ifstream) : option Byte * ifstream :=
  let '(bytes, input_file) := stream_read input_file 1 in
  (head bytes, input_file).

(** Using the value of a local: undefined if it is indeterminate. *)
Definition use {A} (x : option A) : outcome A :=
  match x with
  | Some a => Returns a
  | None => Undefined
  end.

(** The [for (int i = 0; i < frequencies_size; ++i)] loop. *)
Fixpoint read_table_loop (fuel : nat) (p : platform) (input_file : ifstream)
    (i : Z) (frequencies_size : Z) (frequencies : StdMap.t Z)
    : outcome (StdMap.t Z * ifstream) :=
  if i <? frequencies_size then
    match fuel with
    | O => OutOfFuel
    | S fuel' =>
        let '(ch, input_file) := read_Byte input_file in
        let '(frequency, input_file) := read_uint32 p input_file in
        ch <- use ch ;;
        frequency <- use frequency ;;
        let frequencies := StdMap.put ch frequency frequencies in
        if i =? INT_MAX then Undefined
        else read_table_loop fuel' p input_file (i + 1) frequencies_size
               frequencies
    end
  else Returns (frequencies, input_file).

(** [read_compressed_file]: the returned padding, and the [data] and
    [frequencies] it fills in; [frequencies] is empty at the call.  No read
    is checked for success. *)
Definition read_compressed_file (p : platform) (file : list Byte)
    : outcome (Z * list Byte * StdMap.t Z) :=
  let input_file := open_file file in
  let '(original_file_size, input_file) := read_uint32 p input_file in
  let '(data_size, input_file) := read_uint32 p input_file in
  let '(padding, input_file) := read_uint32 p input_file in
  let '(frequencies_size, input_file) := read_uint32 p input_file in
  frequencies_size <- use frequencies_size ;;
  table <- read_table_loop (S (length (unread input_file))) p input_file 0
             frequencies_size [] ;;
  let '(frequencies, input_file) := table in
  data_size <- use data_size ;;
  let data := repeat x00 (Z.to_nat data_size) in
  let count := static_cast_int data_size in
  let '(bytes, input_file) :=
    if 0 <? count then stream_read input_file (Z.to_nat count)
    else ([], input_file) in
  let data := bytes ++ drop (length bytes) data in
  padding <- use padding ;;
  Returns (padding, data, frequencies).

(** ** Decompression *)

(** [str[index]] on a [const std::string]: the character at [index], the
    null character at [index == size()], undefined beyond. *)
Definition string_at (str : std_string) (index : Z) : outcome ascii :=
  if index <? 0 then Undefined
  else
    match str !! Z.to_nat index with
    | Some c => Returns c
    | None =>
        if index =? Z.of_nat (length str) then Returns "000"%char
        else Undefined
    end.

(** [decode]: the values of [index] and [decoded] when it returns. *)
Fixpoint decode (root : HuffmanNode) (index : Z) (str : std_string)
    (decoded : list Byte) : outcome (Z * list Byte) :=
  match root with
  | nullptr => Returns (index, decoded)
  | Node byte _ l r =>
      if is_null l && is_null r then Returns (index, decoded ++ [byte])
      else if index =? INT_MAX then Undefined
      else
        let index := index + 1 in
        c <- string_at str index ;;
        if Ascii.eqb c LEFT_CHAR then decode l index str decoded
        else decode r index str decoded
  end.

(** The [while (index < static_cast<int>(bits.size()) - 2)] loop. *)
Fixpoint decompress_loop (fuel : nat) (root : HuffmanNode) (index : Z)
    (bits : std_string) (decoded : list Byte) : outcome (list Byte) :=
  let size := static_cast_int (Z.of_nat (length bits)) in
  if size <? INT_MIN + 2 then Undefined
  else if index <? size - 2 then
    match fuel with
    | O => OutOfFuel
    | S fuel' =>
        st <- decode root index bits decoded ;;
        decompress_loop fuel' root (fst st) bits (snd st)
    end
  else Returns decoded.

(** [bits.erase(pos)]: [std::out_of_range] if [pos > size()].  The position
    is computed on unsigned integers, so it lies beyond the end whenever
    [padding] exceeds the length. *)
Definition erase_padding (bits : std_string) (padding : Z)
    : outcome std_string :=
  if Z.of_nat (length bits) <? padding then Throws out_of_range
  else Returns (take (length bits - Z.to_nat padding) bits).

(** [decompress]: the decoded bytes, and the string [bits] (passed by
    reference) as the call leaves it. *)
Definition decompress (fuel : nat) (bits : std_string) (padding : Z)
    (frequencies : StdMap.t Z) : outcome (list Byte * std_string) :=
  root <- build_huffman_tree frequencies ;;
  bits <- erase_padding bits padding ;;
  let index := -1 in
  decoded <- decompress_loop fuel root index bits [] ;;
  Returns (decoded, bits).

(** [decompress_to_file]: the bytes handed to [write_uncompressed_file]. *)
Definition decompress_to_file (p : platform) (fuel : nat) (file : list Byte)
    : outcome (list Byte) :=
  parsed <- read_compressed_file p file ;;
  let '(padding, data, frequencies) := parsed in
  let bits := bytes_to_bit_string data in
  result <- decompress fuel bits padding frequencies ;;
  Returns (fst result).

(** Compression to a file followed by decompression of that file. *)
Definition round_trip (p : platform) (fuel : nat) (data : list Byte)
    : outcome (list Byte) :=
  written <- compress p data ;;
  decompress_to_file p fuel (fst written).

(** ** The tie-break policy in the words of the specification

    Nodes leave the queue in a stable priority order over (frequency,
    insertion order): the node of least frequency first and, among nodes of
    equal frequency, the one inserted first. *)

(** The stable minimum of [x :: rest], and the other nodes in insertion
    order. *)
Fixpoint stable_min (x : HuffmanNode) (rest : list HuffmanNode)
    : HuffmanNode * list HuffmanNode :=
  match rest with
  | [] => (x, [])
  | y :: rest' =>
      let '(m, others) := stable_min y rest' in
      if freq_of m <? freq_of x then (m, x :: others) else (x, rest)
  end.

Fixpoint stable_build_loop (fuel : nat) (queue : list HuffmanNode)
    : outcome HuffmanNode :=
  match queue with
  | [] => Undefined
  | [x] => Returns x
  | x :: (y :: _) as rest =>
      match fuel with
      | O => OutOfFuel
      | S fuel' =>
          let '(l, queue) := stable_min x rest in
          match queue with
          | [] => Undefined
          | z :: queue' =>
              let '(r, queue) := stable_min z queue' in
              stable_build_loop fuel' (queue ++ [new_internal l r])
          end
      end
  end.

Definition build_huffman_tree_stable (frequencies : StdMap.t Z)
    : outcome HuffmanNode :=
  stable_build_loop (length frequencies)
    (map (fun pair => new_leaf (fst pair) (snd pair)) frequencies).

(** ** Shapes of trees and paths in them *)

(** A Huffman tree: every node is a leaf or has two subtrees. *)
Fixpoint full (p : HuffmanNode) : Prop :=
  match p with
  | nullptr => False
  | Node _ _ l r => (l = nullptr /\ r = nullptr) \/ (full l /\ full r)
  end.

(** The leaves of a tree with the path from the root to each of them,
    in the order in which [create_substitution_table] visits them. *)
Fixpoint leaf_paths (p : HuffmanNode) : list (Byte * std_string) :=
  match p with
  | nullptr => []
  | Node byte _ l r =>
      (if is_null l && is_null r then [(byte, [])] else [])
      ++ map (fun e => (fst e, LEFT_CHAR :: snd e)) (leaf_paths l)
      ++ map (fun e => (fst e, RIGHT_CHAR :: snd e)) (leaf_paths r)
  end.

Definition leaves (p : HuffmanNode) : list Byte := map fst (leaf_paths p).

(** The node reached from [p] along a path: ['0'] is the left branch and
    ['1'] the right branch. *)
Fixpoint descend (p : HuffmanNode) (path : std_string) : HuffmanNode :=
  match path, p with
  | [], _ => p
  | _ :: _, nullptr => nullptr
  | c :: path', Node _ _ l r =>
      if Ascii.eqb c LEFT_CHAR then descend l path'
      else if Ascii.eqb c RIGHT_CHAR then descend r path'
      else nullptr
  end.

(** [holds_byte p b]: [p] is a leaf that holds the byte [b]. *)
Definition holds_byte (p : HuffmanNode) (b : Byte) : Prop :=
  exists f, p = Node b f nullptr nullptr.

(** The code of a byte: its entry in the table, and the empty string if it
    has none. *)
Definition code_of (table : StdMap.t std_string) (b : Byte) : std_string :=
  default [] (StdMap.find b table).

(** No code of the table is a prefix of the code of another byte. *)
Definition prefix_free (table : StdMap.t std_string) : Prop :=
  forall b1 b2 c1 c2,
    b1 <> b2 ->
    StdMap.find b1 table = Some c1 ->
    StdMap.find b2 table = Some c2 ->
    ~ c1 `prefix_of` c2.

(** The number of occurrences of a byte. *)
Fixpoint occurrences (b : Byte) (data : list Byte) : Z :=
  match data with
  | [] => 0
  | x :: data' => (if Byte.eqb b x then 1 else 0) + occurrences b data'
  end.

(** The sum, over the bytes of the input, of the length of their codes. *)
Definition total_code_length (table : StdMap.t std_string) (data : list Byte)
    : Z :=
  fold_right (fun b sum => Z.of_nat (length (code_of table b)) + sum) 0 data.

(** ** The greedy merge

    [greedy_merge queue root]: [root] is obtained from the nodes of [queue]
    by repeatedly taking out a node [l] of least frequency, then a node [r]
    of least frequency among the others, and putting back the node with
    left child [l] and right child [r].  Which of several nodes of equal
    frequency is taken is left open. *)
Inductive greedy_merge : list HuffmanNode -> HuffmanNode -> Prop :=
| greedy_done (x : HuffmanNode) : greedy_merge [x] x
| greedy_step (queue queue' rest : list HuffmanNode) (l r root : HuffmanNode) :
    queue ≡ₚ l :: r :: rest ->
    Forall (fun x => freq_of l <= freq_of x) (r :: rest) ->
    Forall (fun x => freq_of r <= freq_of x) rest ->
    queue' ≡ₚ new_internal l r :: rest ->
    greedy_merge queue' root ->
    greedy_merge queue root.

(** ** Definitions used in the statements and proofs below *)

(** One step of [create_substitution_table]: the entry of a leaf. *)
Definition put_path (pre : std_string) (table : StdMap.t std_string)
    (e : Byte * std_string) : StdMap.t std_string :=
  StdMap.put (fst e) (pre ++ snd e) table.

Definition is_bit (c : ascii) : Prop := c = LEFT_CHAR \/ c = RIGHT_CHAR.

(** The count of a byte in a frequency table; an absent byte counts 0. *)
Definition count_of (frequencies : StdMap.t Z) (b : Byte) : Z :=
  default 0 (StdMap.find b frequencies).

(** [frequencies[byte]++] *)
Definition count_step (frequencies : StdMap.t Z) (byte : Byte) : StdMap.t Z :=
  let '(n, frequencies) := StdMap.subscript 0 frequencies byte in
  StdMap.put byte (to_uint32 (n + 1)) frequencies.

(** The sum that the loop of lines 384-387 accumulates. *)
Definition weighted_length (count : Byte -> Z) (table : StdMap.t std_string)
    : Z :=
  fold_right (fun e sum => count (fst e) * Z.of_nat (length (snd e)) + sum)
    0 table.

Section HeapOrderDefs.
Context {A : Type} `{Inhabited A} (key : A -> Z).

(** The first [n] elements of [v] form a heap: no element is smaller
    than its parent. *)
Definition heap_ordered (n : nat) (v : list A) : Prop :=
  forall i : nat, (0 < i < n)%nat ->
    key (v !!! ((i - 1) / 2)%nat) <= key (v !!! i).

(** [w] is a heap but for the element at [h], which may be smaller than
    its parent; the children of [h] are not smaller than its parent. *)
Definition up_inv (n : nat) (w : list A) (h : nat) : Prop :=
  (forall i : nat, (0 < i < n)%nat -> i <> h ->
     key (w !!! ((i - 1) / 2)%nat) <= key (w !!! i))
  /\ ((0 < h)%nat -> forall i : nat, (0 < i < n)%nat ->
        ((i - 1) / 2)%nat = h ->
        key (w !!! ((h - 1) / 2)%nat) <= key (w !!! i)).

(** [v] is a heap when the element at [h] is ignored; the children of
    [h] are not smaller than its parent. *)
Definition down_inv (n : nat) (v : list A) (h : nat) : Prop :=
  forall i : nat, (0 < i < n)%nat -> i <> h ->
    (((i - 1) / 2)%nat <> h ->
       key (v !!! ((i - 1) / 2)%nat) <= key (v !!! i))
    /\ (((i - 1) / 2)%nat = h -> (0 < h)%nat ->
          key (v !!! ((h - 1) / 2)%nat) <= key (v !!! i)).

Definition heap_ordered_list (v : list A) : Prop :=
  heap_ordered (length v) v.
End HeapOrderDefs.

(** The queue of [build_huffman_tree] is a heap on the frequencies. *)
Definition node_heap (nodeHeap : list HuffmanNode) : Prop :=
  heap_ordered_list freq_of nodeHeap.

(** ** Inputs of the examples *)

Definition AAAABBBB : list Byte :=
  ["A"; "A"; "A"; "A"; "B"; "B"; "B"; "B"]%byte.

(** The packed data of the container of [AAAABBBB], as a bit string. *)
Definition bits_AAAABBBB_padded : std_string :=
  bytes_to_bit_string [x0f; x00].

(** ** What the decoder returns

    The bytes that [decompress] gives back for the encoding of [todo]: it
    decodes the next byte only while at least two bits are unread. *)
Fixpoint decoded_prefix (table : StdMap.t std_string) (todo : list Byte)
    : list Byte :=
  match todo with
  | [] => []
  | b :: todo' =>
      if 2 <=? total_code_length table todo
      then b :: decoded_prefix table todo'
      else []
  end.

(** The character of a bit. *)
Definition bit_char (b : bool) : ascii := if b then RIGHT_CHAR else LEFT_CHAR.

(** ** The files, the console and the command line

    The functions of [main.cpp] around the codec: reading and writing
    whole files, the name of the compressed file, the message about the
    saving, the help text and the dispatch on the command line.

    Conventions.
    - A file name is a [std::string]; two names denote the same file only
      if they are equal.  The file system says what opening a name for
      reading gives and whether a name can be opened for writing; a file
      that the program wrote can be read back.
    - [std::cout] is the sequence of the values inserted into it.  The
      digits printed for a [double] are not modelled: the item records the
      operands of the expression that computes it.
    - No exception is caught anywhere in the program: an exception that is
      raised ends the run. *)

From Stdlib Require Strings.String.

(** The sum of the counts of a frequency table. *)
Definition sum_counts (frequencies : StdMap.t Z) : Z :=
  fold_right (fun e sum => snd e + sum) 0 frequencies.

(** The sum of the frequencies of the nodes of a queue. *)
Definition sum_freq (queue : list HuffmanNode) : Z :=
  fold_right (fun x sum => freq_of x + sum) 0 queue.

Module Main.
Import String.StringSyntax.
Delimit Scope string_scope with string.

(** A string literal of the program. *)
Definition literal (s : String.string) : std_string :=
  String.list_ascii_of_string s.

(** [a == b] on [std::string]. *)
Fixpoint string_eqb (a b : std_string) : bool :=
  match a, b with
  | [], [] => true
  | x :: a', y :: b' => Ascii.eqb x y && string_eqb a' b'
  | _, _ => false
  end.

(** [std::length_error] is raised by [std::vector::reserve]; the other
    exceptions are those of the codec. *)
Inductive std_exception := length_error | codec (e : exception).

(** The outcome of a function of the program. *)
Inductive result (A : Type) :=
| Done (a : A)
| Uncaught (e : std_exception)
| UndefinedBehaviour
| NoFuel.

Arguments Done {A} a.
Arguments Uncaught {A} e.
Arguments UndefinedBehaviour {A}.
Arguments NoFuel {A}.

Definition of_outcome {A} (c : outcome A) : result A :=
  match c with
  | Returns a => Done a
  | Throws e => Uncaught (codec e)
  | Undefined => UndefinedBehaviour
  | OutOfFuel => NoFuel
  end.

Definition and_then {A B} (c : result A) (k : A -> result B) : result B :=
  match c with
  | Done a => k a
  | Uncaught e => Uncaught e
  | UndefinedBehaviour => UndefinedBehaviour
  | NoFuel => NoFuel
  end.

(** *** Files *)

Record filesystem := {
  contents : std_string -> option (list Byte);
  writable : std_string -> bool
}.

(** [std::ofstream output_file(filename, std::ios::trunc | std::ios::binary)],
    the writes of [bytes] and [output_file.close()].  If the file cannot be
    opened every write fails and nothing is written. *)
Definition ofstream_write (files : filesystem) (filename : std_string)
    (bytes : list Byte) : filesystem :=
  if writable files filename
  then {| contents := fun name =>
                        if string_eqb name filename then Some bytes
                        else contents files name;
          writable := writable files |}
  else files.

(** A [std::ifstream] with its read position.  [failbit] is set from the
    start if the file could not be opened. *)
Record input_stream := { bytes : list Byte; gpos : nat; failbit : bool }.

Definition ifstream_open (files : filesystem) (filename : std_string)
    : input_stream :=
  match contents files filename with
  | Some file => {| bytes := file; gpos := 0; failbit := false |}
  | None => {| bytes := []; gpos := 0; failbit := true |}
  end.

Inductive seekdir := ios_beg | ios_end.

(** [file.seekg(0, dir)]: nothing happens on a stream that has failed. *)
Definition seekg_0 (file : input_stream) (dir : seekdir) : input_stream :=
  if failbit file then file
  else {| bytes := bytes file;
          gpos := match dir with
                  | ios_beg => 0
                  | ios_end => length (bytes file)
                  end;
          failbit := false |}.

(** [file.tellg()]: [pos_type(-1)] on a stream that has failed. *)
Definition tellg (file : input_stream) : Z :=
  if failbit file then -1 else Z.of_nat (gpos file).

Definition get_file_size (file : input_stream) : Z * input_stream :=
  let file := seekg_0 file ios_end in
  let file_size := tellg file in
  let file := seekg_0 file ios_beg in
  (file_size, file).

(** The range [std::istream_iterator<Byte>(file)] to the end-of-stream
    iterator, with [skipws] unset: every byte from the read position on. *)
Definition istream_iterator_range (file : input_stream) : list Byte :=
  if failbit file then [] else drop (gpos file) (bytes file).

(** The number of values of [std::size_t]. *)
Definition SIZE_MOD (p : platform) : Z := 2 ^ (8 * Z.of_nat (sizeof_size_t p)).

(** [std::vector<Byte>::max_size()], as in libstdc++: [PTRDIFF_MAX]. *)
Definition vector_max_size (p : platform) : Z := SIZE_MOD p / 2 - 1.

(** [vec.reserve(n)] with [n] converted to [std::size_t]: it throws
    [std::length_error] if [n > max_size()], and does not change the
    elements otherwise. *)
Definition reserve (p : platform) (n : Z) : result unit :=
  if vector_max_size p <? n mod SIZE_MOD p then Uncaught length_error
  else Done tt.

Definition read_uncompressed_file (p : platform) (files : filesystem)
    (filename : std_string) : result (list Byte) :=
  let output_file := ifstream_open files filename in
  let '(file_size, output_file) := get_file_size output_file in
  and_then (reserve p file_size) (fun _ =>
  Done (istream_iterator_range output_file)).

(** [write_uncompressed_file]: [write] is given [&data[0]] and the size
    converted to [int]; a count that is not positive writes nothing. *)
Definition write_uncompressed_file (data : list Byte) (filename : std_string)
    (files : filesystem) : filesystem :=
  let count := static_cast_int (Z.of_nat (length data)) in
  ofstream_write files filename (take (Z.to_nat count) data).

(** [read_compressed_file] on the stream that the file name opens; a
    stream that could not be opened stores nothing. *)
Definition compressed_stream (files : filesystem) (filename : std_string)
    : ifstream :=
  match contents files filename with
  | Some file => open_file file
  | None => {| unread := []; good := false |}
  end.

Definition read_compressed_file (p : platform) (input_file : ifstream)
    : outcome (Z * list Byte * StdMap.t Z) :=
  let '(original_file_size, input_file) := read_uint32 p input_file in
  let '(data_size, input_file) := read_uint32 p input_file in
  let '(padding, input_file) := read_uint32 p input_file in
  let '(frequencies_size, input_file) := read_uint32 p input_file in
  frequencies_size <- use frequencies_size ;;
  table <- read_table_loop (S (length (unread input_file))) p input_file 0
             frequencies_size [] ;;
  let '(frequencies, input_file) := table in
  data_size <- use data_size ;;
  let data := repeat x00 (Z.to_nat data_size) in
  let count := static_cast_int data_size in
  let '(bytes, input_file) :=
    if 0 <? count then stream_read input_file (Z.to_nat count)
    else ([], input_file) in
  let data := bytes ++ drop (length bytes) data in
  padding <- use padding ;;
  Returns (padding, data, frequencies).

(** *** The console *)

Inductive output :=
| Text (s : std_string)
| Unsigned (n : Z)
| Percentage (saved total : Z)
| Endl.

Definition NEWLINE : std_string := ["010"%char].

(** The state of the program: the global [COMPRESSED_FILE_EXTENSION], the
    files and what was written to [std::cout]. *)
Record world := {
  COMPRESSED_FILE_EXTENSION : std_string;
  files : filesystem;
  cout : list output
}.

Definition print (w : world) (items : list output) : world :=
  {| COMPRESSED_FILE_EXTENSION := COMPRESSED_FILE_EXTENSION w;
     files := files w;
     cout := cout w ++ items |}.

Definition show_help (intended : bool) (w : world) : world :=
  let w := print w [Text (repeat "="%char 40)] in
  let w :=
    if negb intended
    then print w [Text (literal "Missing or invalid arguments"%string); Endl]
    else w in
  let w := print w [Text (literal "Following commands are available"%string);
                    Endl] in
  let w := print w [Text (literal "To compress a file"%string); Endl; Endl] in
  let w := print w
    [Text (literal "./huffman [input file name] [output file name]"%string);
     Endl] in
  let w := print w
    [Text (literal
       "./huffman -c/--compress [input file name] [output file name]"%string);
     Endl; Endl] in
  let w := print w [Text (literal "To decompress a file"%string); Endl] in
  let w := print w
    [Text (literal
       "./huffman -d/--decompress [input file name] [output file name]"%string);
     Endl; Endl] in
  let w := print w [Text (literal "To show this help"%string); Endl] in
  print w [Text (literal "./huffman -h/--help"%string); Endl].

(** The [double] that is printed is
    [double(data_size - compressed_size) / data_size * 100]. *)
Definition file_compressed_message (data_size compressed_size : Z)
    (filename : std_string) (w : world) : world :=
  if compressed_size <? data_size then
    print w
      [Text filename; Text (literal " was compressed from "%string);
       Unsigned data_size; Text (literal " bytes, to "%string);
       Unsigned compressed_size;
       Text (literal " bytes."%string ++ NEWLINE ++ literal "Saving "%string);
       Percentage (to_uint32 (data_size - compressed_size)) data_size;
       Text (literal "% space"%string)]
  else w.

(** *** Compression and decompression of files *)

(** Lines 405-411: the name of the file that [compress_to_file] writes. *)
Definition compressed_file_name (extension _to_file : std_string)
    : std_string :=
  let to_file := _to_file in
  let end_ :=
    if (5 <? length to_file)%nat then drop (length to_file - 5) to_file
    else to_file in
  if negb (string_eqb end_ extension) then to_file ++ extension
  else to_file.

Definition compress_to_file (p : platform) (from_file _to_file : std_string)
    (w : world) : result world :=
  and_then (read_uncompressed_file p (files w) from_file) (fun data =>
  let to_file := compressed_file_name (COMPRESSED_FILE_EXTENSION w) _to_file in
  and_then (of_outcome (compress p data)) (fun written =>
  let '(file, compressed_size) := written in
  let w := {| COMPRESSED_FILE_EXTENSION := COMPRESSED_FILE_EXTENSION w;
              files := ofstream_write (files w) to_file file;
              cout := cout w |} in
  Done (file_compressed_message (to_uint32 (Z.of_nat (length data)))
          compressed_size from_file w))).

Definition decompress_to_file (p : platform) (fuel : nat)
    (from_file to_file : std_string) (w : world) : result world :=
  and_then
    (of_outcome (read_compressed_file p (compressed_stream (files w) from_file)))
    (fun parsed =>
  let '(padding, data, frequencies) := parsed in
  let bits := bytes_to_bit_string data in
  and_then (of_outcome (decompress fuel bits padding frequencies))
    (fun decoded =>
  let decompressed := fst decoded in
  Done {| COMPRESSED_FILE_EXTENSION := COMPRESSED_FILE_EXTENSION w;
          files := write_uncompressed_file decompressed to_file (files w);
          cout := cout w |})).

(** *** The command line *)

(** [argv] holds the [argc] arguments, the name of the program first. *)
Definition handle_args (p : platform) (fuel : nat) (argv : list std_string)
    (w : world) : result world :=
  let argc := length argv in
  let arg (i : nat) := nth i argv [] in
  match argc with
  | 2%nat =>
      if string_eqb (arg 1%nat) (literal "-h"%string)
         || string_eqb (arg 1%nat) (literal "--help"%string)
      then Done (show_help true w)
      else Done w
  | 3%nat => compress_to_file p (arg 1%nat) (arg 2%nat) w
  | 4%nat =>
      if string_eqb (arg 1%nat) (literal "-d"%string)
         || string_eqb (arg 1%nat) (literal "--decompress"%string)
      then decompress_to_file p fuel (arg 2%nat) (arg 3%nat) w
      else if string_eqb (arg 1%nat) (literal "-c"%string)
              || string_eqb (arg 1%nat) (literal "--compress"%string)
      then compress_to_file p (arg 2%nat) (arg 3%nat) w
      else Done (show_help false w)
  | _ => Done (show_help false w)
  end.

(** [main]: the state it leaves and the status it returns. *)
Definition main (p : platform) (fuel : nat) (argv : list std_string)
    (w : world) : result (world * Z) :=
  let w := {| COMPRESSED_FILE_EXTENSION := literal ".huff"%string;
              files := files w;
              cout := cout w |} in
  and_then (handle_args p fuel argv w) (fun w => Done (w, 0)).

End Main.


(** ** The cost of a code

    The notions used to compare the tree of [build_huffman_tree] with
    other code trees.  A code gives every weight (the count of a byte) a
    length; its cost is the number of bits that it needs for the input.
    The lengths of the codes of a binary tree satisfy Kraft's inequality:
    the sum of [2 ^ (H - length)] is at most [2 ^ H], for [H] not less
    than any length. *)

(** The sum, over the nodes that have children, of the frequencies of
    the two children. *)
Fixpoint inner_cost (p : HuffmanNode) : Z :=
  match p with
  | nullptr => 0
  | Node _ _ l r =>
      if is_null l && is_null r then 0
      else freq_of l + freq_of r + inner_cost l + inner_cost r
  end.

(** Every node that has children holds the sum of their frequencies. *)
Fixpoint sums_ok (p : HuffmanNode) : Prop :=
  match p with
  | nullptr => True
  | Node _ f l r =>
      if is_null l && is_null r then True
      else f = freq_of l + freq_of r /\ sums_ok l /\ sums_ok r
  end.

(** Every leaf holds the count of its byte. *)
Fixpoint leaves_hold (count : Byte -> Z) (p : HuffmanNode) : Prop :=
  match p with
  | nullptr => True
  | Node b f l r =>
      if is_null l && is_null r then f = count b
      else leaves_hold count l /\ leaves_hold count r
  end.

(** The sum of the counts of the bytes of a list of codes. *)
Definition leaf_weight (count : Byte -> Z) (paths : StdMap.t std_string) : Z :=
  fold_right (fun e sum => count (fst e) + sum) 0 paths.

(** A code as a list of weights with the lengths given to them. *)
Definition lengths_cost (P : list (Z * nat)) : Z :=
  fold_right (fun e sum => fst e * Z.of_nat (snd e) + sum) 0 P.

Definition kraft_sum (H : nat) (P : list (Z * nat)) : Z :=
  fold_right (fun e sum => 2 ^ Z.of_nat (H - snd e) + sum) 0 P.

(** The exchange step: the first weight, which has the length [d], takes
    the greatest length of the list, and the lengths move down. *)
Fixpoint bubble (d : nat) (Q : list (Z * nat)) : nat * list (Z * nat) :=
  match Q with
  | [] => (d, [])
  | (w, dw) :: Q' =>
      let '(d', Q'') := bubble (Nat.max d dw) Q' in
      (d', (w, Nat.min d dw) :: Q'')
  end.

(** The weights and lengths of the codes of a tree. *)
Definition code_lengths (count : Byte -> Z) (paths : StdMap.t std_string)
    : list (Z * nat) :=
  map (fun e => (count (fst e), length (snd e))) paths.

(** The sum of [inner_cost] over the nodes of a queue. *)
Definition sum_inner_cost (queue : list HuffmanNode) : Z :=
  fold_right (fun x sum => inner_cost x + sum) 0 queue.

(** What the greedy merge keeps of the nodes of the queue. *)
Definition counted (count : Byte -> Z) (x : HuffmanNode) : Prop :=
  full x /\ sums_ok x /\ leaves_hold count x /\ 0 <= freq_of x.

(** A code tree for at most [2 ^ d] bytes in which no code is longer than
    [d]: the first [2 ^ (d - 1)] bytes go to the left, the others to the
    right. *)
Fixpoint balanced (d : nat) (keys : list Byte) : HuffmanNode :=
  match keys with
  | [] => nullptr
  | [k] => new_leaf k 0
  | _ :: _ :: _ =>
      match d with
      | O => nullptr
      | S d' =>
          Node NULL_CHAR 0 (balanced d' (take (2 ^ d') keys))
            (balanced d' (drop (2 ^ d') keys))
      end
  end.

(** * Facts about [std::map] *)

Lemma Byte_eqb_eq (a b : Byte) : Byte.eqb a b = true <-> a = b.
Proof.
  split; [apply Byte.byte_dec_bl | apply Byte.byte_dec_lb].
Qed.

Lemma Byte_eqb_refl (a : Byte) : Byte.eqb a a = true.
Proof. now apply Byte_eqb_eq. Qed.

Lemma Byte_eqb_neq (a b : Byte) : Byte.eqb a b = false <-> a <> b.
Proof.
  rewrite <- Byte_eqb_eq. destruct (Byte.eqb a b); split; congruence.
Qed.

Module StdMapFacts.
Import StdMap.
Section Facts.
Context {V : Type}.
Implicit Types (m : StdMap.t V) (k : Byte) (v : V).

Lemma key_lt_irrefl k : key_lt k k = false.
Proof. unfold key_lt. apply Z.ltb_irrefl. Qed.

Lemma key_lt_trans a b c :
  key_lt a b = true -> key_lt b c = true -> key_lt a c = true.
Proof. unfold key_lt. rewrite !Z.ltb_lt. lia. Qed.

Lemma key_lt_total a b :
  key_lt a b = false -> Byte.eqb a b = false -> key_lt b a = true.
Proof.
  unfold key_lt. rewrite Z.ltb_ge, Z.ltb_lt, Byte_eqb_neq. intros Hle Hne.
  assert (byte.unsigned a <> byte.unsigned b)
    by (intros E; apply Hne, byte.unsigned_inj, E).
  lia.
Qed.

Lemma find_put_eq k v m : find k (put k v m) = Some v.
Proof.
  induction m as [|[k' v'] m IH]; simpl.
  - now rewrite Byte_eqb_refl.
  - destruct (Byte.eqb k k') eqn:E; simpl.
    + now rewrite Byte_eqb_refl.
    + destruct (key_lt k k'); simpl.
      * now rewrite Byte_eqb_refl.
      * now rewrite E.
Qed.

Lemma find_put_ne k k' v m : k <> k' -> find k' (put k v m) = find k' m.
Proof.
  intros Hne. apply Byte_eqb_neq in Hne.
  assert (Hne' : Byte.eqb k' k = false).
  { apply Byte_eqb_neq. apply Byte_eqb_neq in Hne. congruence. }
  induction m as [|[k0 v0] m IH]; simpl.
  - now rewrite Hne'.
  - destruct (Byte.eqb k k0) eqn:E; simpl.
    + apply Byte_eqb_eq in E. subst k0. now rewrite Hne'.
    + destruct (key_lt k k0); simpl.
      * now rewrite Hne'.
      * now rewrite IH.
Qed.

Lemma find_put k k' v m :
  find k' (put k v m) = if Byte.eqb k' k then Some v else find k' m.
Proof.
  destruct (Byte.eqb k' k) eqn:E.
  - apply Byte_eqb_eq in E. subst. apply find_put_eq.
  - apply Byte_eqb_neq in E. apply find_put_ne. congruence.
Qed.

Lemma put_In k v m e : In e (put k v m) -> e = (k, v) \/ In e m.
Proof.
  induction m as [|[k' v'] m IH]; simpl.
  - intuition.
  - destruct (Byte.eqb k k'); simpl; [intuition|].
    destruct (key_lt k k'); simpl; intuition.
Qed.

Lemma sorted_put k v m : sorted m -> sorted (put k v m).
Proof.
  induction m as [|[k' v'] m IH]; simpl.
  - intros _. split; [constructor | exact I].
  - intros [Hall Hs].
    destruct (Byte.eqb k k') eqn:E; simpl.
    + apply Byte_eqb_eq in E. subst k'. now split.
    + destruct (key_lt k k') eqn:L; simpl.
      * split; [|now split].
        constructor; [exact L|].
        rewrite List.Forall_forall in Hall |- *.
        intros e He. eapply key_lt_trans; [exact L|]. now apply Hall.
      * split; [|now apply IH].
        apply List.Forall_forall. intros e He.
        apply put_In in He. destruct He as [->|He].
        -- simpl. apply key_lt_total; [exact L|exact E].
        -- rewrite List.Forall_forall in Hall. now apply Hall.
Qed.

Lemma sorted_find_None k m :
  Forall (fun e => key_lt k (fst e) = true) m -> find k m = None.
Proof.
  induction 1 as [|[k' v'] m Hk _ IH]; simpl; [reflexivity|].
  simpl in Hk. destruct (Byte.eqb k k') eqn:E; [|exact IH].
  apply Byte_eqb_eq in E. subst k'. now rewrite key_lt_irrefl in Hk.
Qed.

Lemma find_Some_In k v m : find k m = Some v -> In (k, v) m.
Proof.
  induction m as [|[k' v'] m IH]; simpl; [discriminate|].
  destruct (Byte.eqb k k') eqn:E.
  - apply Byte_eqb_eq in E. intros [= ->]. subst. now left.
  - intros Hf. right. now apply IH.
Qed.

Lemma sorted_In_find k v m : sorted m -> In (k, v) m -> find k m = Some v.
Proof.
  induction m as [|[k' v'] m IH]; simpl; [intros _ []|].
  intros [Hall Hs] [E|Hin].
  - injection E as -> ->. now rewrite Byte_eqb_refl.
  - destruct (Byte.eqb k k') eqn:E.
    + apply Byte_eqb_eq in E. subst k'.
      rewrite List.Forall_forall in Hall. specialize (Hall _ Hin). simpl in Hall.
      now rewrite key_lt_irrefl in Hall.
    + now apply IH.
Qed.

Lemma subscript_fst dflt m k :
  fst (subscript dflt m k) = default dflt (find k m).
Proof. unfold subscript. now destruct (find k m). Qed.

Lemma subscript_find dflt m k k' :
  default dflt (find k' (snd (subscript dflt m k))) = default dflt (find k' m).
Proof.
  unfold subscript. destruct (find k m) eqn:E; simpl; [reflexivity|].
  rewrite find_put. destruct (Byte.eqb k' k) eqn:E'; [|reflexivity].
  apply Byte_eqb_eq in E'. subst. now rewrite E.
Qed.

Lemma subscript_present dflt m k v :
  find k m = Some v -> subscript dflt m k = (v, m).
Proof. unfold subscript. now intros ->. Qed.

Lemma sorted_subscript dflt m k : sorted m -> sorted (snd (subscript dflt m k)).
Proof.
  unfold subscript. destruct (find k m); simpl; [easy|apply sorted_put].
Qed.
End Facts.
End StdMapFacts.

(** * The heap algorithms permute the vector *)

Section HeapFacts.
Context {A : Type} `{Inhabited A} (comp : A -> A -> bool).
Implicit Types (v first : list A) (x value : A).

Local Open Scope nat_scope.

Lemma parent_le (i : nat) : (i - 1) / 2 <= i.
Proof.
  destruct i; [reflexivity|].
  assert ((S i - 1) / 2 <= S i - 1) by (apply Nat.Div0.div_le_upper_bound; lia).
  lia.
Qed.

Lemma parent_lt (i : nat) : 0 < i -> (i - 1) / 2 < i.
Proof.
  intros Hi.
  assert ((i - 1) / 2 <= i - 1) by (apply Nat.Div0.div_le_upper_bound; lia).
  lia.
Qed.

Lemma lookup_total_Some v (i : nat) : i < length v -> v !! i = Some (v !!! i).
Proof.
  intros Hi. apply list_lookup_lookup_total_lt, Hi.
Qed.

(** Moving the hole from [h] to [p]: the element at [p] goes to [h]. *)
Lemma hole_move v (h p : nat) x :
  h < length v -> p < length v ->
  <[p := x]> (<[h := v !!! p]> v) ≡ₚ <[h := x]> v.
Proof.
  intros Hh Hp. destruct (decide (p = h)) as [->|Hne].
  - now rewrite !list_insert_insert_eq.
  - rewrite <- (list_insert_insert_eq v h (v !!! p) x).
    apply Permutation_insert_swap.
    + now rewrite list_lookup_insert_eq.
    + rewrite list_lookup_insert_ne by congruence.
      now apply lookup_total_Some.
Qed.

Lemma push_heap_loop_length fuel v h t x :
  length (push_heap_loop comp fuel v h t x) = length v.
Proof.
  revert v h. induction fuel as [|fuel IH]; intros v h; cbn [push_heap_loop].
  - apply length_insert.
  - destruct (_ && _).
    + rewrite IH. apply length_insert.
    + apply length_insert.
Qed.

Lemma push_heap_loop_perm fuel v h t x :
  h < length v -> push_heap_loop comp fuel v h t x ≡ₚ <[h := x]> v.
Proof.
  revert v h. induction fuel as [|fuel IH]; intros v h Hh; cbn [push_heap_loop].
  - reflexivity.
  - destruct (_ && _); [|reflexivity].
    pose proof (parent_le h).
    rewrite IH by (rewrite length_insert; lia).
    apply hole_move; lia.
Qed.

Lemma push_heap_loop_above fuel v h t x (j : nat) :
  h < j -> push_heap_loop comp fuel v h t x !! j = v !! j.
Proof.
  revert v h. induction fuel as [|fuel IH]; intros v h Hj; cbn [push_heap_loop].
  - apply list_lookup_insert_ne. lia.
  - destruct (_ && _).
    + pose proof (parent_le h).
      rewrite IH by lia. apply list_lookup_insert_ne. lia.
    + apply list_lookup_insert_ne. lia.
Qed.

Lemma adjust_heap_loop_spec fuel v h len :
  h < len -> len <= length v ->
  let '(v', h', sc') := adjust_heap_loop comp fuel v h h len in
  h' = sc' /\ h' < len /\ length v' = length v
  /\ (forall x, <[h' := x]> v' ≡ₚ <[h := x]> v)
  /\ (forall j : nat, len <= j -> v' !! j = v !! j).
Proof.
  revert v h. induction fuel as [|fuel IH]; intros v h Hh Hlen; cbn [adjust_heap_loop].
  - repeat split; auto.
  - destruct (h <? (len - 1) / 2) eqn:E.
    + apply Nat.ltb_lt in E.
      assert (Hc : 2 * (h + 1) <= len - 1).
      { pose proof (Nat.Div0.mul_div_le (len - 1) 2). lia. }
      set (c := if comp (v !!! (2 * (h + 1))) (v !!! (2 * (h + 1) - 1))
                then 2 * (h + 1) - 1 else 2 * (h + 1)).
      assert (Hcl : c < len) by (subst c; destruct (comp _ _); lia).
      specialize (IH (<[h := v !!! c]> v) c Hcl).
      rewrite length_insert in IH. specialize (IH Hlen).
      destruct (adjust_heap_loop comp fuel (<[h := v !!! c]> v) c c len)
        as [[v' h'] sc'].
      destruct IH as (E1 & E2 & E3 & E4 & E5).
      repeat split; auto.
      * intros x. rewrite E4. apply hole_move; lia.
      * intros j Hj. rewrite E5 by exact Hj.
        apply list_lookup_insert_ne. lia.
    + repeat split; auto.
Qed.

Lemma adjust_heap_spec v h len x :
  h < len -> len <= length v ->
  __adjust_heap comp v h len x ≡ₚ <[h := x]> v
  /\ length (__adjust_heap comp v h len x) = length v
  /\ (forall j : nat, len <= j -> __adjust_heap comp v h len x !! j = v !! j).
Proof.
  intros Hh Hlen. unfold __adjust_heap.
  pose proof (adjust_heap_loop_spec len v h len Hh Hlen) as Hloop.
  destruct (adjust_heap_loop comp len v h h len) as [[v' h'] sc'].
  destruct Hloop as (E1 & E2 & E3 & E4 & E5). subst sc'.
  destruct (Nat.even len && (Z.of_nat h' =? Z.quot (Z.of_nat len - 2) 2)%Z)
    eqn:E.
  - apply andb_true_iff in E. destruct E as [Hev Hq].
    apply Z.eqb_eq in Hq.
    assert (Hlen2 : 2 <= len).
    { destruct len as [|[|len]]; try lia. discriminate Hev. }
    apply Nat.even_spec in Hev. destruct Hev as [m ->].
    assert (Hh' : h' = m - 1).
    { replace (Z.of_nat (2 * m) - 2)%Z with (2 * (Z.of_nat m - 1))%Z in Hq
        by lia.
      rewrite Z.mul_comm, Z.quot_mul in Hq by lia. lia. }
    unfold __push_heap.
    assert (Hi : 2 * (h' + 1) - 1 < 2 * m) by lia.
    split; [|split].
    + rewrite push_heap_loop_perm by (rewrite length_insert; lia).
      rewrite <- E4. apply hole_move; lia.
    + rewrite push_heap_loop_length, length_insert. exact E3.
    + intros j Hj. rewrite push_heap_loop_above by lia.
      rewrite list_lookup_insert_ne by lia. now apply E5.
  - unfold __push_heap. split; [|split].
    + rewrite push_heap_loop_perm by lia. apply E4.
    + now rewrite push_heap_loop_length.
    + intros j Hj. rewrite push_heap_loop_above by lia. now apply E5.
Qed.

Lemma push_heap_perm v : v <> [] -> push_heap comp v ≡ₚ v.
Proof.
  intros Hv. unfold push_heap, __push_heap.
  assert (0 < length v) by (destruct v; simpl; [congruence|lia]).
  rewrite push_heap_loop_perm by lia.
  rewrite list_insert_id; [reflexivity|].
  apply lookup_total_Some. lia.
Qed.

Lemma push_heap_length v : length (push_heap comp v) = length v.
Proof. apply push_heap_loop_length. Qed.

Lemma pop_heap_length v : length (pop_heap comp v) = length v.
Proof.
  unfold pop_heap. destruct (1 <? length v) eqn:E; [|reflexivity].
  apply Nat.ltb_lt in E.
  destruct (adjust_heap_spec (<[length v - 1 := v !!! 0]> v) 0
              (length v - 1) (v !!! (length v - 1))) as (_ & E2 & _).
  - lia.
  - rewrite length_insert. lia.
  - now rewrite E2, length_insert.
Qed.

Lemma pop_heap_perm v : pop_heap comp v ≡ₚ v.
Proof.
  unfold pop_heap. destruct (1 <? length v) eqn:E; [|reflexivity].
  apply Nat.ltb_lt in E.
  destruct (adjust_heap_spec (<[length v - 1 := v !!! 0]> v) 0
              (length v - 1) (v !!! (length v - 1))) as (E1 & _ & _).
  - lia.
  - rewrite length_insert. lia.
  - rewrite E1. apply Permutation_insert_swap; apply lookup_total_Some; lia.
Qed.

(** After [pop_heap] the former top is the last element. *)
Lemma pop_heap_last x c :
  pop_heap comp (x :: c) !! length c = Some x.
Proof.
  unfold pop_heap. destruct (1 <? length (x :: c)) eqn:E.
  - apply Nat.ltb_lt in E. simpl in E.
    destruct (adjust_heap_spec (<[length (x :: c) - 1 := (x :: c) !!! 0]> (x :: c)) 0
                (length (x :: c) - 1) ((x :: c) !!! (length (x :: c) - 1)))
      as (_ & _ & E3).
    + simpl. lia.
    + rewrite length_insert. lia.
    + rewrite E3 by (simpl; lia).
      simpl length. replace (S (length c) - 1) with (length c) by lia.
      rewrite list_lookup_insert_eq by (simpl; lia). reflexivity.
  - apply Nat.ltb_ge in E. simpl in E.
    destruct c; simpl in *; [reflexivity|lia].
Qed.

Lemma removelast_snoc_lookup v x :
  v !! (length v - 1) = Some x -> v <> [] -> removelast v ++ [x] = v.
Proof.
  intros Hl Hv. destruct (exists_last Hv) as (w & y & ->).
  rewrite removelast_last.
  rewrite length_app in Hl. simpl in Hl.
  replace (length w + 1 - 1) with (length w) in Hl by lia.
  rewrite list_lookup_middle in Hl by reflexivity.
  now injection Hl as ->.
Qed.

Lemma pq_push_perm c x : pq_push comp c x ≡ₚ x :: c.
Proof.
  unfold pq_push. rewrite push_heap_perm by (destruct c; discriminate).
  symmetry. apply Permutation_cons_append.
Qed.

Lemma pq_push_length c x : length (pq_push comp c x) = S (length c).
Proof.
  unfold pq_push. rewrite push_heap_length, length_app. simpl. lia.
Qed.

(** [top()] followed by [pop()] takes the first element out of the
    vector and keeps all the others. *)
Lemma pq_pop_spec x c :
  exists c', pq_pop comp (x :: c) = Returns c'
             /\ x :: c' ≡ₚ x :: c /\ length c' = length c.
Proof.
  exists (removelast (pop_heap comp (x :: c))). split; [reflexivity|].
  assert (Hne : pop_heap comp (x :: c) <> []).
  { intros E. pose proof (pop_heap_length (x :: c)) as Hl.
    rewrite E in Hl. discriminate Hl. }
  pose proof (pop_heap_last x c) as Hlast.
  pose proof (removelast_snoc_lookup (pop_heap comp (x :: c)) x) as Hsnoc.
  rewrite pop_heap_length in Hsnoc. simpl in Hsnoc.
  replace (length c - 0) with (length c) in Hsnoc by lia.
  specialize (Hsnoc Hlast Hne).
  split.
  - rewrite <- (pop_heap_perm (x :: c)) at 2. rewrite <- Hsnoc at 2.
    apply Permutation_cons_append.
  - apply (f_equal (@length A)) in Hsnoc.
    rewrite length_app, pop_heap_length in Hsnoc. simpl in Hsnoc. lia.
Qed.
End HeapFacts.

(** * Building the tree *)

Lemma full_not_null p : full p -> is_null p = false.
Proof. destruct p; simpl; [intros []|reflexivity]. Qed.

Lemma full_new_leaf b f : full (new_leaf b f).
Proof. simpl. now left. Qed.

Lemma full_new_internal l r : full l -> full r -> full (new_internal l r).
Proof. simpl. now right. Qed.

Lemma leaves_new_leaf b f : leaves (new_leaf b f) = [b].
Proof. reflexivity. Qed.

Lemma leaves_new_internal l r :
  full l -> full r -> leaves (new_internal l r) = leaves l ++ leaves r.
Proof.
  intros Hl Hr. unfold leaves. simpl.
  rewrite (full_not_null l Hl). simpl.
  rewrite map_app, !map_map. reflexivity.
Qed.

Lemma is_leaf_new_internal l r : full l -> is_leaf (new_internal l r) = false.
Proof. intros Hl. simpl. now rewrite (full_not_null l Hl). Qed.

Lemma nodeHeap_push_singleton x : nodeHeap_push [] x = [x].
Proof. reflexivity. Qed.

Lemma build_loop_singleton fuel x : build_loop fuel [x] = Returns [x].
Proof. now destruct fuel. Qed.

Lemma build_loop_spec fuel nodeHeap :
  Forall full nodeHeap -> nodeHeap <> [] ->
  (length nodeHeap <= S fuel)%nat ->
  exists root,
    build_loop fuel nodeHeap = Returns [root]
    /\ full root
    /\ leaves root ≡ₚ flat_map leaves nodeHeap
    /\ ((2 <= length nodeHeap)%nat -> is_leaf root = false).
Proof.
  revert nodeHeap. induction fuel as [|fuel IH]; intros nodeHeap Hfull Hne Hlen.
  - destruct nodeHeap as [|x [|y c]]; [congruence| |simpl in Hlen; lia].
    exists x. simpl. inversion Hfull; subst.
    repeat split; auto.
    + now rewrite app_nil_r.
    + lia.
  - destruct nodeHeap as [|x [|y c]]; [congruence| |].
    + exists x. simpl. inversion Hfull; subst.
      repeat split; auto.
      * now rewrite app_nil_r.
      * lia.
    + cbn [build_loop]. replace (1 <? length (x :: y :: c))%nat with true
        by (symmetry; apply Nat.ltb_lt; simpl; lia).
      unfold nodeHeap_top, nodeHeap_pop. cbn [pq_top bind].
      destruct (pq_pop_spec greater_frequency x (y :: c))
        as (c1 & -> & Hp1 & Hl1).
      cbn [bind].
      destruct c1 as [|x1 c1]; [simpl in Hl1; lia|].
      cbn [pq_top bind].
      destruct (pq_pop_spec greater_frequency x1 c1) as (c2 & -> & Hp2 & Hl2).
      cbn [bind].
      apply Permutation_cons_inv in Hp2.
      assert (Hall : x :: x1 :: c2 ≡ₚ x :: y :: c).
      { rewrite <- Hp1. now rewrite Hp2. }
      assert (Hfull' : Forall full (x :: x1 :: c2)).
      { eapply Permutation_Forall; [symmetry; exact Hall|exact Hfull]. }
      inversion Hfull' as [|? ? Fx Hfull'']; subst.
      inversion Hfull'' as [|? ? Fx1 Fc2]; subst.
      pose proof (pq_push_perm greater_frequency c2 (new_internal x x1)) as Hpush.
      pose proof (pq_push_length greater_frequency c2 (new_internal x x1)) as Hpl.
      fold (nodeHeap_push c2 (new_internal x x1)) in Hpush, Hpl |- *.
      destruct (IH (nodeHeap_push c2 (new_internal x x1))) as (root & Hr & Fr & Lr & Ir).
      * eapply Permutation_Forall; [symmetry; exact Hpush|].
        constructor; [now apply full_new_internal|exact Fc2].
      * intros E. rewrite E in Hpl. discriminate Hpl.
      * rewrite Hpl. simpl in Hlen, Hl1. simpl in Hl2. lia.
      * exists root. split; [exact Hr|]. split; [exact Fr|]. split.
        -- rewrite Lr. rewrite Hpush. rewrite <- Hall. simpl.
           rewrite leaves_new_internal by assumption.
           now rewrite app_assoc.
        -- intros _. destruct c2 as [|z c2].
           ++ rewrite nodeHeap_push_singleton, build_loop_singleton in Hr.
              injection Hr as <-. now apply is_leaf_new_internal.
           ++ apply Ir. rewrite Hpl. simpl. lia.
Qed.

Lemma initial_heap_fold (frequencies : StdMap.t Z) (acc : list HuffmanNode) :
  let h := fold_left
             (fun nodeHeap pair =>
                nodeHeap_push nodeHeap (new_leaf (fst pair) (snd pair)))
             frequencies acc in
  h ≡ₚ acc ++ map (fun pair => new_leaf (fst pair) (snd pair)) frequencies
  /\ length h = (length acc + length frequencies)%nat.
Proof.
  revert acc. induction frequencies as [|[k n] frequencies IH]; intros acc.
  - simpl. rewrite app_nil_r. split; [reflexivity|lia].
  - destruct (IH (nodeHeap_push acc (new_leaf k n))) as [P L].
    cbn [fold_left fst snd map]. cbn zeta in P, L |- *. split.
    + rewrite P. unfold nodeHeap_push at 1. rewrite pq_push_perm.
      rewrite <- app_comm_cons. apply Permutation_middle.
    + rewrite L. unfold nodeHeap_push. rewrite pq_push_length. simpl. lia.
Qed.

Lemma initial_heap_perm (frequencies : StdMap.t Z) :
  initial_heap frequencies
  ≡ₚ map (fun pair => new_leaf (fst pair) (snd pair)) frequencies.
Proof. apply (initial_heap_fold frequencies []). Qed.

Lemma initial_heap_length (frequencies : StdMap.t Z) :
  length (initial_heap frequencies) = length frequencies.
Proof. apply (initial_heap_fold frequencies []). Qed.

(** [build_huffman_tree] returns for every non-empty table; the leaves of
    the tree are the keys of the table. *)
Lemma build_huffman_tree_spec (frequencies : StdMap.t Z) :
  frequencies <> [] ->
  exists root,
    build_huffman_tree frequencies = Returns root
    /\ full root
    /\ leaves root ≡ₚ StdMap.keys frequencies
    /\ ((2 <= length frequencies)%nat -> is_leaf root = false).
Proof.
  intros Hne. unfold build_huffman_tree.
  pose proof (initial_heap_perm frequencies) as Hp.
  pose proof (initial_heap_length frequencies) as Hl.
  destruct (build_loop_spec (length (initial_heap frequencies))
              (initial_heap frequencies)) as (root & Hr & Fr & Lr & Ir).
  - eapply Permutation_Forall; [symmetry; exact Hp|].
    apply List.Forall_forall. intros e He. apply in_map_iff in He.
    destruct He as (pair & <- & _). apply full_new_leaf.
  - intros E. rewrite E in Hl. destruct frequencies; [congruence|discriminate].
  - lia.
  - exists root. rewrite Hr. cbn. split; [reflexivity|]. split; [exact Fr|].
    split.
    + rewrite Lr, Hp. unfold StdMap.keys.
      clear. induction frequencies as [|[k n] m IH]; simpl; [reflexivity|].
      now rewrite IH.
    + now rewrite Hl in Ir.
Qed.

Lemma build_huffman_tree_empty : build_huffman_tree [] = Undefined.
Proof. reflexivity. Qed.

(** * The substitution table *)

Lemma fold_put_path_map pre c paths table :
  fold_left (put_path pre) (map (fun e => (fst e, c :: snd e)) paths) table
  = fold_left (put_path (pre ++ [c])) paths table.
Proof.
  revert table. induction paths as [|e paths IH]; intros table; simpl.
  - reflexivity.
  - rewrite IH. unfold put_path at 2 4. simpl.
    now rewrite <- app_assoc.
Qed.

(** The table is filled with the leaf paths, in the order of the visit. *)
Lemma create_substitution_table_fold root table pre :
  create_substitution_table root table pre
  = fold_left (put_path pre) (leaf_paths root) table.
Proof.
  revert table pre. induction root as [|b f l IHl r IHr]; intros table pre.
  - reflexivity.
  - cbn [create_substitution_table leaf_paths].
    rewrite !fold_left_app, !fold_put_path_map, IHr, IHl.
    destruct (is_null l && is_null r); cbn [fold_left].
    + change (put_path pre table (b, []))
        with (StdMap.put b (pre ++ []) table).
      now rewrite app_nil_r.
    + reflexivity.
Qed.

Lemma fold_put_path_find pre paths table k c :
  StdMap.find k (fold_left (put_path pre) paths table) = Some c ->
  (exists c0, In (k, c0) paths /\ c = pre ++ c0) \/ StdMap.find k table = Some c.
Proof.
  revert table. induction paths as [|[k0 c0] paths IH]; intros table; simpl.
  - now right.
  - intros Hf. apply IH in Hf. destruct Hf as [(c1 & Hin & ->)|Hf].
    + left. exists c1. split; [now right|reflexivity].
    + unfold put_path in Hf. simpl in Hf.
      rewrite StdMapFacts.find_put in Hf.
      destruct (Byte.eqb k k0) eqn:E.
      * apply Byte_eqb_eq in E. subst k0. injection Hf as <-.
        left. exists c0. split; [now left|reflexivity].
      * now right.
Qed.

Lemma fold_put_path_sorted pre paths table :
  StdMap.sorted table -> StdMap.sorted (fold_left (put_path pre) paths table).
Proof.
  revert table. induction paths as [|e paths IH]; intros table Hs; simpl.
  - exact Hs.
  - apply IH. now apply StdMapFacts.sorted_put.
Qed.

Lemma create_substitution_table_sorted root :
  StdMap.sorted (create_substitution_table root [] []).
Proof.
  rewrite create_substitution_table_fold. now apply fold_put_path_sorted.
Qed.

(** Every entry of the table is a leaf with the path that leads to it. *)
Lemma table_entry_leaf_path root b code :
  StdMap.find b (create_substitution_table root [] []) = Some code ->
  In (b, code) (leaf_paths root).
Proof.
  rewrite create_substitution_table_fold. intros Hf.
  apply fold_put_path_find in Hf. destruct Hf as [(c0 & Hin & ->)|Hf].
  - exact Hin.
  - discriminate Hf.
Qed.

Lemma fold_put_path_In pre paths table k :
  In k (map fst paths) ->
  exists c, StdMap.find k (fold_left (put_path pre) paths table) = Some c.
Proof.
  revert table. induction paths as [|[k0 c0] paths IH]; intros table; simpl.
  - intros [].
  - intros [->|Hin].
    + destruct (in_dec Byte.byte_eq_dec k (map fst paths)) as [Hin|Hnin].
      * now apply IH.
      * clear IH. exists (pre ++ c0).
        assert (Hgen : forall t v, StdMap.find k t = Some v ->
                  StdMap.find k (fold_left (put_path pre) paths t) = Some v).
        { induction paths as [|[k1 c1] paths IH]; intros t v Hv; simpl.
          - exact Hv.
          - apply IH.
            + intros Hin. apply Hnin. now right.
            + unfold put_path. simpl. rewrite StdMapFacts.find_put_ne.
              * exact Hv.
              * intros ->. apply Hnin. now left. }
        apply Hgen. unfold put_path. simpl. apply StdMapFacts.find_put_eq.
    + now apply IH.
Qed.

(** Every leaf of the tree has an entry in the table. *)
Lemma leaf_has_entry root b :
  In b (leaves root) ->
  exists code, StdMap.find b (create_substitution_table root [] []) = Some code.
Proof.
  rewrite create_substitution_table_fold. apply fold_put_path_In.
Qed.

Lemma is_null_true p : is_null p = true -> p = nullptr.
Proof. destruct p; [reflexivity|discriminate]. Qed.

Lemma leaf_paths_leaf b f l r :
  is_null l && is_null r = true -> leaf_paths (Node b f l r) = [(b, [])].
Proof.
  intros E. apply andb_true_iff in E. destruct E as [El Er].
  apply is_null_true in El, Er. now subst.
Qed.

Lemma leaf_paths_internal b f l r :
  is_null l && is_null r = false ->
  leaf_paths (Node b f l r)
  = map (fun e => (fst e, LEFT_CHAR :: snd e)) (leaf_paths l)
    ++ map (fun e => (fst e, RIGHT_CHAR :: snd e)) (leaf_paths r).
Proof. intros E. cbn [leaf_paths]. now rewrite E. Qed.

Lemma in_leaf_paths_internal b f l r k c :
  is_null l && is_null r = false ->
  In (k, c) (leaf_paths (Node b f l r)) ->
  (exists c', c = LEFT_CHAR :: c' /\ In (k, c') (leaf_paths l))
  \/ (exists c', c = RIGHT_CHAR :: c' /\ In (k, c') (leaf_paths r)).
Proof.
  intros E. rewrite leaf_paths_internal by exact E.
  rewrite in_app_iff, !in_map_iff.
  intros [([k' c'] & [= <- <-] & Hin)|([k' c'] & [= <- <-] & Hin)].
  - left. now exists c'.
  - right. now exists c'.
Qed.

(** Two leaves of which one path is a prefix of the other are one leaf. *)
Lemma leaf_paths_prefix p b1 c1 b2 c2 :
  In (b1, c1) (leaf_paths p) -> In (b2, c2) (leaf_paths p) ->
  c1 `prefix_of` c2 -> b1 = b2.
Proof.
  revert c1 c2. induction p as [|b f l IHl r IHr]; intros c1 c2 H1 H2 Hpre.
  - destruct H1.
  - destruct (is_null l && is_null r) eqn:E.
    + rewrite leaf_paths_leaf in H1, H2 by exact E.
      destruct H1 as [[= <- <-]|[]]. destruct H2 as [[= <- <-]|[]].
      reflexivity.
    + apply in_leaf_paths_internal in H1, H2; try exact E.
      destruct Hpre as [k Hk].
      destruct H1 as [(c1' & -> & H1)|(c1' & -> & H1)];
        destruct H2 as [(c2' & -> & H2)|(c2' & -> & H2)];
        simpl in Hk; injection Hk as Hk; try discriminate.
      * apply (IHl c1' c2' H1 H2). now exists k.
      * apply (IHr c1' c2' H1 H2). now exists k.
Qed.

Lemma leaf_paths_descend p b c :
  In (b, c) (leaf_paths p) -> holds_byte (descend p c) b.
Proof.
  revert c. induction p as [|b0 f l IHl r IHr]; intros c Hin.
  - destruct Hin.
  - destruct (is_null l && is_null r) eqn:E.
    + pose proof E as E'. apply andb_true_iff in E'. destruct E' as [El Er].
      apply is_null_true in El, Er. subst l r.
      destruct Hin as [[= <- <-]|[]]. simpl. now exists f.
    + apply in_leaf_paths_internal in Hin; try exact E.
      destruct Hin as [(c' & -> & Hin)|(c' & -> & Hin)]; simpl.
      * now apply IHl.
      * now apply IHr.
Qed.

Lemma leaf_paths_nonempty p b c :
  is_leaf p = false -> In (b, c) (leaf_paths p) -> c <> [].
Proof.
  destruct p as [|b0 f l r]; cbn [is_leaf]; intros E Hin.
  - destruct Hin.
  - apply in_leaf_paths_internal in Hin; [|exact E].
    destruct Hin as [(c' & -> & _)|(c' & -> & _)]; discriminate.
Qed.

Lemma leaf_paths_bits p b c : In (b, c) (leaf_paths p) -> Forall is_bit c.
Proof.
  revert c. induction p as [|b0 f l IHl r IHr]; intros c Hin.
  - destruct Hin.
  - destruct (is_null l && is_null r) eqn:E.
    + rewrite leaf_paths_leaf in Hin by exact E.
      destruct Hin as [[= <- <-]|[]]. constructor.
    + apply in_leaf_paths_internal in Hin; try exact E.
      destruct Hin as [(c' & -> & Hin)|(c' & -> & Hin)]; constructor.
      * now left.
      * now apply IHl.
      * now right.
      * now apply IHr.
Qed.

(** Claim C8.  For every code table generated from a Huffman tree, no code
    is a prefix of the code of another byte of the same table: codes are
    recorded at leaves only, and the paths to two different leaves are
    never prefixes of one another.  This holds for every tree the table
    is generated from. *)
Theorem substitution_table_prefix_free (root : HuffmanNode) :
  prefix_free (create_substitution_table root [] []).
Proof.
  intros b1 b2 c1 c2 Hne H1 H2 Hpre.
  apply table_entry_leaf_path in H1, H2.
  apply Hne. exact (leaf_paths_prefix root b1 c1 b2 c2 H1 H2 Hpre).
Qed.

Lemma substitution_table_prefix_free_witness :
  ~ ["0"%char] `prefix_of` ["1"%char].
Proof.
  apply (substitution_table_prefix_free
           (new_internal (new_leaf "A"%byte 4) (new_leaf "B"%byte 4))
           "A"%byte "B"%byte ["0"%char] ["1"%char]).
  - discriminate.
  - reflexivity.
  - reflexivity.
Defined.

(** * Frequencies and the size of the encoded string *)

Lemma to_uint32_range z : 0 <= to_uint32 z < UINT32_MOD.
Proof. unfold to_uint32, UINT32_MOD. apply Z.mod_pos_bound. lia. Qed.

Lemma to_uint32_small z : 0 <= z < UINT32_MOD -> to_uint32 z = z.
Proof. unfold to_uint32. apply Z.mod_small. Qed.

Lemma to_uint32_add_l a b : to_uint32 (to_uint32 a + b) = to_uint32 (a + b).
Proof. unfold to_uint32. apply Zplus_mod_idemp_l. Qed.

Lemma count_step_find frequencies byte k :
  StdMap.find k (count_step frequencies byte)
  = if Byte.eqb k byte then Some (to_uint32 (count_of frequencies byte + 1))
    else StdMap.find k frequencies.
Proof.
  unfold count_step, count_of, StdMap.subscript.
  destruct (StdMap.find byte frequencies) eqn:E; simpl.
  - now rewrite StdMapFacts.find_put.
  - rewrite !StdMapFacts.find_put. now destruct (Byte.eqb k byte).
Qed.

Lemma count_step_sorted frequencies byte :
  StdMap.sorted frequencies -> StdMap.sorted (count_step frequencies byte).
Proof.
  intros Hs. unfold count_step.
  pose proof (StdMapFacts.sorted_subscript 0 frequencies byte Hs) as Hs'.
  destruct (StdMap.subscript 0 frequencies byte) as [n m]. simpl in Hs'.
  now apply StdMapFacts.sorted_put.
Qed.

Lemma count_frequencies_fold data :
  count_frequencies data = fold_left count_step data [].
Proof. reflexivity. Qed.

Lemma fold_count_step_find data frequencies k :
  StdMap.find k (fold_left count_step data frequencies)
  = if occurrences k data =? 0 then StdMap.find k frequencies
    else Some (to_uint32 (count_of frequencies k + occurrences k data)).
Proof.
  revert frequencies. induction data as [|x data IH]; intros frequencies.
  - reflexivity.
  - cbn [fold_left occurrences]. rewrite IH.
    assert (Hocc : 0 <= occurrences k data).
    { clear. induction data as [|y data IH]; simpl; [lia|].
      destruct (Byte.eqb k y); lia. }
    unfold count_of at 1. rewrite !count_step_find.
    destruct (Byte.eqb k x) eqn:E.
    + apply Byte_eqb_eq in E. subst x.
      replace (1 + occurrences k data =? 0) with false
        by (symmetry; apply Z.eqb_neq; lia).
      destruct (occurrences k data =? 0) eqn:E0.
      * apply Z.eqb_eq in E0. rewrite E0. do 2 f_equal; lia.
      * simpl. rewrite to_uint32_add_l. do 2 f_equal; lia.
    + replace (0 + occurrences k data) with (occurrences k data) by lia.
      reflexivity.
Qed.

Lemma occurrences_nonneg k data : 0 <= occurrences k data.
Proof.
  induction data as [|y data IH]; simpl; [lia|]. destruct (Byte.eqb k y); lia.
Qed.

Lemma occurrences_pos k data : In k data <-> 0 < occurrences k data.
Proof.
  induction data as [|y data IH]; simpl.
  - split; [intros []|lia].
  - pose proof (occurrences_nonneg k data).
    destruct (Byte.eqb k y) eqn:E.
    + apply Byte_eqb_eq in E. subst. split; [lia|now left].
    + apply Byte_eqb_neq in E. rewrite Z.add_0_l, <- IH.
      split; [intros [->|]; [congruence|assumption]|now right].
Qed.

(** The table counts every byte of the input, modulo [2^32]. *)
Lemma count_frequencies_find data k :
  StdMap.find k (count_frequencies data)
  = if occurrences k data =? 0 then None
    else Some (to_uint32 (occurrences k data)).
Proof.
  rewrite count_frequencies_fold, fold_count_step_find. reflexivity.
Qed.

Lemma count_of_count_frequencies data k :
  count_of (count_frequencies data) k = to_uint32 (occurrences k data).
Proof.
  unfold count_of. rewrite count_frequencies_find.
  destruct (occurrences k data =? 0) eqn:E; [|reflexivity].
  apply Z.eqb_eq in E. now rewrite E.
Qed.

Lemma count_frequencies_sorted data : StdMap.sorted (count_frequencies data).
Proof.
  rewrite count_frequencies_fold.
  assert (Hgen : forall m, StdMap.sorted m ->
            StdMap.sorted (fold_left count_step data m)).
  { induction data as [|x data IH]; intros m Hm; simpl; [exact Hm|].
    apply IH. now apply count_step_sorted. }
  now apply Hgen.
Qed.

Lemma find_Some_keys {V} (m : StdMap.t V) k v :
  StdMap.find k m = Some v -> In k (StdMap.keys m).
Proof.
  intros Hf. apply StdMapFacts.find_Some_In in Hf.
  unfold StdMap.keys. apply in_map_iff. now exists (k, v).
Qed.

Lemma keys_find_Some {V} (m : StdMap.t V) k :
  In k (StdMap.keys m) -> exists v, StdMap.find k m = Some v.
Proof.
  induction m as [|[k' v'] m IH]; simpl; [intros []|].
  intros Hin. destruct (Byte.eqb k k') eqn:E; [now exists v'|].
  apply Byte_eqb_neq in E. destruct Hin as [->|Hin]; [congruence|now apply IH].
Qed.

Lemma count_frequencies_keys data k :
  In k (StdMap.keys (count_frequencies data)) <-> In k data.
Proof.
  rewrite (occurrences_pos k data). split.
  - intros Hin. apply keys_find_Some in Hin. destruct Hin as [v Hv].
    rewrite count_frequencies_find in Hv.
    destruct (occurrences k data =? 0) eqn:E; [discriminate|].
    apply Z.eqb_neq in E. pose proof (occurrences_nonneg k data). lia.
  - intros Hpos. eapply find_Some_keys. rewrite count_frequencies_find.
    replace (occurrences k data =? 0) with false; [reflexivity|].
    symmetry. apply Z.eqb_neq. lia.
Qed.

Lemma count_frequencies_nonempty data :
  data <> [] -> count_frequencies data <> [].
Proof.
  destruct data as [|x data]; [congruence|]. intros _ E.
  assert (Hin : In x (StdMap.keys (count_frequencies (x :: data)))).
  { apply count_frequencies_keys. now left. }
  rewrite E in Hin. destruct Hin.
Qed.

(** * Size accounting *)

Lemma count_of_subscript frequencies k k' :
  count_of (snd (StdMap.subscript 0 frequencies k)) k' = count_of frequencies k'.
Proof. apply StdMapFacts.subscript_find. Qed.

Lemma encoded_size_fold table frequencies acc :
  let r := fold_left
    (fun '(encodedSize, frequencies) pair =>
       let '(n, frequencies) := StdMap.subscript 0 frequencies (fst pair) in
       (to_uint32 (encodedSize + n * Z.of_nat (length (snd pair))), frequencies))
    table (acc, frequencies) in
  to_uint32 (fst r) = to_uint32 (acc + weighted_length (count_of frequencies) table)
  /\ (forall k, count_of (snd r) k = count_of frequencies k)
  /\ ((forall k, In k (StdMap.keys table) -> In k (StdMap.keys frequencies)) ->
      snd r = frequencies).
Proof.
  revert acc frequencies.
  induction table as [|[k c] table IH]; intros acc frequencies.
  - simpl. rewrite Z.add_0_r. auto.
  - cbn [fold_left fst snd weighted_length fold_right].
    pose proof (StdMapFacts.subscript_fst 0 frequencies k) as Hfst.
    pose proof (count_of_subscript frequencies k) as Hsnd.
    destruct (StdMap.subscript 0 frequencies k) as [n m] eqn:Es.
    simpl in Hfst, Hsnd. fold (count_of frequencies k) in Hfst. subst n.
    specialize (IH (to_uint32 (acc + count_of frequencies k
                                      * Z.of_nat (length c))) m).
    cbn beta iota zeta in IH |- *. destruct IH as (IH1 & IH2 & IH3).
    split; [|split].
    + rewrite IH1, to_uint32_add_l.
      f_equal. rewrite <- Z.add_assoc. f_equal. f_equal.
      clear -Hsnd. induction table as [|[k' c'] table IH]; simpl; [reflexivity|].
      now rewrite IH, Hsnd.
    + intros k'. now rewrite IH2, Hsnd.
    + intros Hkeys.
      assert (m = frequencies) as ->.
      { destruct (keys_find_Some frequencies k) as [v Hv].
        { apply Hkeys. now left. }
        rewrite (StdMapFacts.subscript_present 0 frequencies k v Hv) in Es.
        congruence. }
      apply IH3. intros k' Hin. apply Hkeys. now right.
Qed.

Lemma encoded_size_loop_spec table frequencies :
  fst (encoded_size_loop table frequencies)
  = to_uint32 (weighted_length (count_of frequencies) table).
Proof.
  unfold encoded_size_loop.
  destruct (encoded_size_fold table frequencies 0) as (H1 & _ & _).
  cbn zeta in H1. rewrite Z.add_0_l in H1. rewrite <- H1.
  symmetry. destruct table as [|[k c] table]; [reflexivity|].
  (* the accumulator is reduced modulo 2^32 at every step *)
  clear H1. cbn [fold_left fst snd].
  destruct (StdMap.subscript 0 frequencies k) as [n m].
  generalize (0 + n * Z.of_nat (length c)). intros z.
  generalize m. clear. revert z.
  induction table as [|[k c] table IH]; intros z m.
  - simpl. unfold to_uint32. apply Z.mod_mod. unfold UINT32_MOD. lia.
  - cbn [fold_left fst snd].
    destruct (StdMap.subscript 0 m k) as [n m']. apply IH.
Qed.

Lemma encoded_size_loop_frequencies table frequencies :
  (forall k, In k (StdMap.keys table) -> In k (StdMap.keys frequencies)) ->
  snd (encoded_size_loop table frequencies) = frequencies.
Proof.
  intros Hkeys. unfold encoded_size_loop.
  destruct (encoded_size_fold table frequencies 0) as (_ & _ & H3).
  now apply H3.
Qed.

Lemma code_of_subscript table k k' :
  code_of (snd (StdMap.subscript [] table k)) k' = code_of table k'.
Proof. apply StdMapFacts.subscript_find. Qed.

Lemma encode_fold data table acc :
  let r := fold_left
    (fun '(encoded, substitution_table) ch =>
       let '(code, substitution_table) :=
         StdMap.subscript [] substitution_table ch in
       (encoded ++ code, substitution_table))
    data (acc, table) in
  fst r = acc ++ flat_map (code_of table) data
  /\ (forall k, code_of (snd r) k = code_of table k)
  /\ ((forall k, In k data -> In k (StdMap.keys table)) -> snd r = table).
Proof.
  revert acc table. induction data as [|ch data IH]; intros acc table.
  - simpl. rewrite app_nil_r. auto.
  - cbn [fold_left flat_map].
    pose proof (StdMapFacts.subscript_fst [] table ch) as Hfst.
    pose proof (code_of_subscript table ch) as Hsnd.
    destruct (StdMap.subscript [] table ch) as [code m] eqn:Es.
    simpl in Hfst, Hsnd. fold (code_of table ch) in Hfst. subst code.
    specialize (IH (acc ++ code_of table ch) m).
    cbn beta iota zeta in IH |- *. destruct IH as (IH1 & IH2 & IH3).
    split; [|split].
    + change (default [] (StdMap.find ch table)) with (code_of table ch).
      rewrite IH1, <- app_assoc. f_equal. f_equal.
      clear -Hsnd. induction data as [|x data IH]; simpl; [reflexivity|].
      now rewrite IH, Hsnd.
    + intros k'.
      change (default [] (StdMap.find ch table)) with (code_of table ch).
      now rewrite IH2, Hsnd.
    + intros Hkeys.
      change (default [] (StdMap.find ch table)) with (code_of table ch).
      assert (m = table) as ->.
      { destruct (keys_find_Some table ch) as [v Hv].
        { apply Hkeys. now left. }
        rewrite (StdMapFacts.subscript_present [] table ch v Hv) in Es.
        congruence. }
      apply IH3. intros k' Hin. apply Hkeys. now right.
Qed.

Lemma encode_loop_encoded data table :
  fst (encode_loop data table) = flat_map (code_of table) data.
Proof. apply (encode_fold data table []). Qed.

Lemma encode_loop_table data table :
  (forall k, In k data -> In k (StdMap.keys table)) ->
  snd (encode_loop data table) = table.
Proof. apply (encode_fold data table []). Qed.

Lemma length_flat_map_code_of table data :
  Z.of_nat (length (flat_map (code_of table) data))
  = total_code_length table data.
Proof.
  induction data as [|ch data IH]; simpl; [reflexivity|].
  rewrite length_app, Nat2Z.inj_add, IH. reflexivity.
Qed.

Lemma weighted_length_cons count k c table :
  weighted_length count ((k, c) :: table)
  = count k * Z.of_nat (length c) + weighted_length count table.
Proof. reflexivity. Qed.

Lemma total_code_length_cons table ch data :
  total_code_length table (ch :: data)
  = Z.of_nat (length (code_of table ch)) + total_code_length table data.
Proof. reflexivity. Qed.

Lemma code_of_cons k c (table : StdMap.t std_string) ch :
  code_of ((k, c) :: table) ch = if Byte.eqb ch k then c else code_of table ch.
Proof. unfold code_of. simpl. now destruct (Byte.eqb ch k). Qed.

Lemma weighted_length_zero count table :
  Forall (fun e => count (fst e) = 0) table -> weighted_length count table = 0.
Proof.
  induction 1 as [|[k c] table Hk _ IH]; [reflexivity|].
  rewrite weighted_length_cons, IH. simpl in Hk. rewrite Hk. lia.
Qed.

(** In a sorted table the code of [ch] is the code of the one entry whose
    key is [ch]. *)
Lemma code_length_as_sum table ch :
  StdMap.sorted table ->
  Z.of_nat (length (code_of table ch))
  = weighted_length (fun k => if Byte.eqb k ch then 1 else 0) table.
Proof.
  induction table as [|[k c] table IH]; [reflexivity|].
  intros [Hall Hs]. rewrite weighted_length_cons, code_of_cons.
  destruct (Byte.eqb ch k) eqn:E.
  - apply Byte_eqb_eq in E. subst k. rewrite Byte_eqb_refl.
    rewrite weighted_length_zero; [lia|].
    apply List.Forall_forall. intros [k c'] Hin.
    rewrite List.Forall_forall in Hall. specialize (Hall _ Hin).
    simpl in Hall |- *. destruct (Byte.eqb k ch) eqn:E; [|reflexivity].
    apply Byte_eqb_eq in E. subst k.
    now rewrite StdMapFacts.key_lt_irrefl in Hall.
  - assert (E' : Byte.eqb k ch = false).
    { apply Byte_eqb_neq. apply Byte_eqb_neq in E. congruence. }
    rewrite E', IH by exact Hs. lia.
Qed.

Lemma weighted_length_add f g table :
  weighted_length (fun k => f k + g k) table
  = weighted_length f table + weighted_length g table.
Proof.
  induction table as [|[k c] table IH]; [reflexivity|].
  rewrite !weighted_length_cons, IH. lia.
Qed.

(** The encoded string is as long as the table and the number of
    occurrences of each byte say. *)
Lemma total_code_length_weighted table data :
  StdMap.sorted table ->
  total_code_length table data
  = weighted_length (fun k => occurrences k data) table.
Proof.
  intros Hs. induction data as [|ch data IH].
  - symmetry. apply weighted_length_zero.
    apply List.Forall_forall. now intros e _.
  - rewrite total_code_length_cons, IH, code_length_as_sum by exact Hs.
    rewrite <- weighted_length_add. reflexivity.
Qed.

Lemma weighted_length_mod8 f g table :
  (forall k, f k mod 8 = g k mod 8) ->
  weighted_length f table mod 8 = weighted_length g table mod 8.
Proof.
  intros Hfg. induction table as [|[k c] table IH]; [reflexivity|].
  rewrite !weighted_length_cons.
  rewrite Z.add_mod, Z.mul_mod, Hfg, IH, <- Z.mul_mod, <- Z.add_mod by lia.
  reflexivity.
Qed.

Lemma to_uint32_mod8 z : to_uint32 z mod 8 = z mod 8.
Proof.
  unfold to_uint32, UINT32_MOD.
  apply Z.mod_mod_divide. exists (2 ^ 29). reflexivity.
Qed.

(** The locals of [compress] for a non-empty input. *)
Lemma compress_prepare_spec (data : list Byte) :
  data <> [] ->
  exists root,
    build_huffman_tree (count_frequencies data) = Returns root
    /\ full root
    /\ leaves root ≡ₚ StdMap.keys (count_frequencies data)
    /\ let table := create_substitution_table root [] [] in
       let size := to_uint32
                     (weighted_length (count_of (count_frequencies data)) table) in
       compress_prepare data
       = Returns {| original_file_size := to_uint32 (Z.of_nat (length data));
                    frequencies := count_frequencies data;
                    root := root;
                    substitution_table := table;
                    encodedSize := size;
                    padding := CHAR_BIT - size mod CHAR_BIT;
                    encoded := flat_map (code_of table) data |}.
Proof.
  intros Hne.
  destruct (build_huffman_tree_spec (count_frequencies data))
    as (root & Hb & Hfull & Hleaves & _).
  { now apply count_frequencies_nonempty. }
  exists root. split; [exact Hb|]. split; [exact Hfull|].
  split; [exact Hleaves|]. cbn zeta.
  assert (Hentry : forall k, In k data ->
            In k (StdMap.keys (create_substitution_table root [] []))).
  { intros k Hin. apply count_frequencies_keys in Hin.
    rewrite <- Hleaves in Hin. apply leaf_has_entry in Hin.
    destruct Hin as [code Hcode]. eapply find_Some_keys, Hcode. }
  assert (Hkeys : forall k,
            In k (StdMap.keys (create_substitution_table root [] [])) ->
            In k (StdMap.keys (count_frequencies data))).
  { intros k Hin. apply keys_find_Some in Hin. destruct Hin as [code Hcode].
    apply table_entry_leaf_path in Hcode.
    rewrite <- Hleaves. unfold leaves. apply in_map_iff. now exists (k, code). }
  unfold compress_prepare. rewrite Hb. cbn [bind].
  pose proof (encoded_size_loop_spec (create_substitution_table root [] [])
                (count_frequencies data)) as Hsize.
  pose proof (encoded_size_loop_frequencies
                (create_substitution_table root [] [])
                (count_frequencies data) Hkeys) as Hfreq.
  destruct (encoded_size_loop _ _) as [size frequencies'].
  simpl in Hsize, Hfreq. subst size frequencies'.
  pose proof (encode_loop_encoded data (create_substitution_table root [] []))
    as Henc.
  pose proof (encode_loop_table data (create_substitution_table root [] [])
                Hentry) as Htab.
  destruct (encode_loop _ _) as [encoded' table'].
  simpl in Henc, Htab. subst encoded' table'. reflexivity.
Qed.

Lemma encoded_size_mod8 (data : list Byte) (table : StdMap.t std_string) :
  StdMap.sorted table ->
  to_uint32 (weighted_length (count_of (count_frequencies data)) table) mod 8
  = Z.of_nat (length (flat_map (code_of table) data)) mod 8.
Proof.
  intros Hs. rewrite to_uint32_mod8, length_flat_map_code_of.
  rewrite total_code_length_weighted by exact Hs.
  apply weighted_length_mod8. intros k.
  rewrite count_of_count_frequencies. apply to_uint32_mod8.
Qed.

Lemma length_pad_data (s : std_string) (n : Z) :
  0 <= n ->
  Z.of_nat (length (pad_data s n)) = Z.of_nat (length s) + n.
Proof.
  intros Hn. unfold pad_data. rewrite length_app, repeat_length. lia.
Qed.

(** Claim C6.  For every non-empty input the encoder computes
    [padding = 8 - (len(bit_string) mod 8)], so [0 < padding <= 8]; the
    padded bit string has a length that is a multiple of 8; and
    [packed_size * 8] is the sum over the input bytes of the length of
    their codes, plus the padding.  The counters of the program wrap
    modulo [2^32], which does not change the padding. *)
Theorem compress_size_accounting (data : list Byte) :
  data <> [] ->
  exists st,
    compress_prepare data = Returns st
    /\ padding st = CHAR_BIT - Z.of_nat (length (encoded st)) mod CHAR_BIT
    /\ 0 < padding st <= 8
    /\ Z.of_nat (length (pad_data (encoded st) (padding st))) mod CHAR_BIT = 0
    /\ data_size_of (pad_data (encoded st) (padding st)) * CHAR_BIT
       = total_code_length (substitution_table st) data + padding st
    /\ (Z.of_nat (length (encoded st)) mod CHAR_BIT = 0 -> padding st = 8).
Proof.
  intros Hne.
  destruct (compress_prepare_spec data Hne) as (root & _ & _ & _ & Hst).
  cbn zeta in Hst. eexists. split; [exact Hst|].
  cbn [padding encoded substitution_table].
  pose proof (encoded_size_mod8 data (create_substitution_table root [] [])
                (create_substitution_table_sorted root)) as Hmod.
  unfold CHAR_BIT in *. rewrite Hmod.
  set (len := Z.of_nat (length (flat_map
                (code_of (create_substitution_table root [] [])) data))) in *.
  assert (Hr : 0 <= len mod 8 < 8) by (apply Z.mod_pos_bound; lia).
  assert (Hlen : len + (8 - len mod 8) = 8 * (len / 8 + 1)).
  { pose proof (Z.div_mod len 8). lia. }
  split; [reflexivity|]. split; [lia|].
  unfold data_size_of, CHAR_BIT.
  rewrite length_pad_data by lia. fold len. rewrite Hlen.
  split; [|split].
  - rewrite Z.mul_comm. apply Z.mod_mul. lia.
  - rewrite (Z.mul_comm 8), Z.div_mul by lia.
    rewrite <- (length_flat_map_code_of _ data). fold len. lia.
  - lia.
Qed.

Lemma compress_size_accounting_witness :
  exists st,
    compress_prepare AAAABBBB = Returns st
    /\ padding st = CHAR_BIT - Z.of_nat (length (encoded st)) mod CHAR_BIT
    /\ 0 < padding st <= 8
    /\ Z.of_nat (length (pad_data (encoded st) (padding st))) mod CHAR_BIT = 0
    /\ data_size_of (pad_data (encoded st) (padding st)) * CHAR_BIT
       = total_code_length (substitution_table st) AAAABBBB + padding st
    /\ (Z.of_nat (length (encoded st)) mod CHAR_BIT = 0 -> padding st = 8).
Proof.
  apply (compress_size_accounting AAAABBBB). discriminate.
Defined.

(** * The decoder *)

Lemma decompress_loop_unfold fuel root index bits decoded :
  decompress_loop fuel root index bits decoded
  = let size := static_cast_int (Z.of_nat (length bits)) in
    if size <? INT_MIN + 2 then Undefined
    else if index <? size - 2 then
      match fuel with
      | O => OutOfFuel
      | S fuel' =>
          st <- decode root index bits decoded ;;
          decompress_loop fuel' root (fst st) bits (snd st)
      end
    else Returns decoded.
Proof. destruct fuel; reflexivity. Qed.

(** More fuel does not change a result. *)
Lemma decompress_loop_fuel fuel extra root index bits decoded result :
  decompress_loop fuel root index bits decoded = Returns result ->
  decompress_loop (fuel + extra) root index bits decoded = Returns result.
Proof.
  revert index decoded.
  induction fuel as [|fuel IH]; intros index decoded;
    rewrite !decompress_loop_unfold; cbn zeta;
    destruct (_ <? INT_MIN + 2); try discriminate;
    destruct (index <? _); try easy.
  cbn [Nat.add].
  destruct (decode root index bits decoded) as [[index' decoded']| | |];
    cbn [bind]; try discriminate.
  apply IH.
Qed.

Lemma decompress_fuel fuel extra bits padding frequencies result :
  decompress fuel bits padding frequencies = Returns result ->
  decompress (fuel + extra) bits padding frequencies = Returns result.
Proof.
  unfold decompress.
  destruct (build_huffman_tree frequencies) as [root| | |]; cbn [bind];
    try discriminate.
  destruct (erase_padding bits padding) as [bits'| | |]; cbn [bind];
    try discriminate.
  destruct (decompress_loop fuel root (-1) bits' []) as [decoded| | |] eqn:E;
    cbn [bind]; try discriminate.
  now rewrite (decompress_loop_fuel fuel extra _ _ _ _ _ E).
Qed.

Lemma decompress_to_file_fuel p fuel extra file result :
  decompress_to_file p fuel file = Returns result ->
  decompress_to_file p (fuel + extra) file = Returns result.
Proof.
  unfold decompress_to_file.
  destruct (read_compressed_file p file) as [[[padding data] frequencies]| | |];
    cbn [bind]; try discriminate.
  destruct (decompress fuel _ padding frequencies) as [r| | |] eqn:E;
    cbn [bind]; try discriminate.
  now rewrite (decompress_fuel fuel extra _ _ _ _ E).
Qed.

Lemma round_trip_fuel p fuel extra data result :
  round_trip p fuel data = Returns result ->
  round_trip p (fuel + extra) data = Returns result.
Proof.
  unfold round_trip.
  destruct (compress p data) as [written| | |]; cbn [bind]; try discriminate.
  apply decompress_to_file_fuel.
Qed.

(** * Inputs that the program does not reject *)

(** Claim C4, as amended.  Compressing an empty byte sequence is not
    rejected with a typed error: there is no emptiness check,
    [count_frequencies] yields the empty table, [build_huffman_tree] reads
    the top of an empty queue, and the behaviour of [compress] is
    undefined: no error is raised and no container is guaranteed. *)
Theorem compress_empty (p : platform) :
  count_frequencies [] = []
  /\ build_huffman_tree [] = Undefined
  /\ compress p [] = Undefined.
Proof. repeat split. Qed.

(** Claim C4 as stated fails: compressing the empty input does not end in
    a typed error. *)
Lemma compress_empty_not_rejected :
  ~ exists e, compress ILP32 [] = Throws e.
Proof. intros [e He]. discriminate He. Qed.

Lemma stream_read_short (file : list Byte) (n : nat) :
  (length file < n)%nat ->
  stream_read (open_file file) n = (file, {| unread := []; good := false |}).
Proof.
  intros Hlt. unfold stream_read, open_file. cbn [good unread].
  replace (n <=? length file)%nat with false; [reflexivity|].
  symmetry. apply Nat.leb_gt. exact Hlt.
Qed.

Lemma read_uint32_failed p s :
  good s = false -> read_uint32 p s = (None, s).
Proof.
  intros Hg. unfold read_uint32, stream_read. now rewrite Hg.
Qed.

Lemma read_uint32_good p (s : ifstream) :
  good s = true ->
  read_uint32 p s
  = if (4 <=? length (unread s))%nat
    then (Some (object_value p (take 4 (unread s))),
          {| unread := drop 4 (unread s); good := true |})
    else (None, {| unread := []; good := false |}).
Proof.
  intros Hg. unfold read_uint32, stream_read, sizeof_uint32_t. rewrite Hg.
  destruct (4 <=? length (unread s))%nat eqn:E.
  - apply Nat.leb_le in E.
    rewrite length_take, Nat.min_l by lia. reflexivity.
  - apply Nat.leb_gt in E.
    replace (length (unread s) =? 4)%nat with false; [reflexivity|].
    symmetry. apply Nat.eqb_neq. lia.
Qed.

(** The table count of a container shorter than its header is never read. *)
Lemma read_header_short (p : platform) (file : list Byte) :
  (length file < 16)%nat ->
  let '(_, s1) := read_uint32 p (open_file file) in
  let '(_, s2) := read_uint32 p s1 in
  let '(_, s3) := read_uint32 p s2 in
  fst (read_uint32 p s3) = None.
Proof.
  intros Hlt.
  rewrite (read_uint32_good p (open_file file)) by reflexivity.
  cbn [open_file unread].
  destruct (4 <=? length file)%nat eqn:E1;
    [|now rewrite !read_uint32_failed].
  apply Nat.leb_le in E1.
  rewrite read_uint32_good by reflexivity. cbn [unread].
  destruct (4 <=? length (drop 4 file))%nat eqn:E2;
    [|now rewrite !read_uint32_failed].
  apply Nat.leb_le in E2. rewrite length_drop in E2.
  rewrite read_uint32_good by reflexivity. cbn [unread].
  destruct (4 <=? length (drop 4 (drop 4 file)))%nat eqn:E3;
    [|now rewrite !read_uint32_failed].
  apply Nat.leb_le in E3. rewrite !length_drop in E3.
  rewrite read_uint32_good by reflexivity. cbn [unread].
  replace (4 <=? length (drop 4 (drop 4 (drop 4 file))))%nat with false;
    [reflexivity|].
  symmetry. apply Nat.leb_gt. rewrite !length_drop. lia.
Qed.

(** Claim C5, as amended.  A container shorter than the 16 bytes of the
    header is not rejected with a typed error: [read_compressed_file]
    checks none of its reads, the table count cannot be read in full and
    is used uninitialised, and the behaviour of [read_compressed_file] and
    of [decompress_to_file] is undefined: no error is raised, and a crash
    or garbage output is possible. *)
Theorem decompress_truncated_header (p : platform) (fuel : nat)
    (file : list Byte) :
  (length file < 16)%nat ->
  read_compressed_file p file = Undefined
  /\ decompress_to_file p fuel file = Undefined.
Proof.
  intros Hlt.
  assert (Hread : read_compressed_file p file = Undefined).
  { pose proof (read_header_short p file Hlt) as Hh.
    unfold read_compressed_file.
    destruct (read_uint32 p (open_file file)) as [original s1].
    destruct (read_uint32 p s1) as [data_size s2].
    destruct (read_uint32 p s2) as [pad s3].
    destruct (read_uint32 p s3) as [frequencies_size s4].
    simpl in Hh. subst frequencies_size. reflexivity. }
  split; [exact Hread|].
  unfold decompress_to_file. now rewrite Hread.
Qed.

Lemma decompress_truncated_header_witness :
  read_compressed_file ILP32 [x08; x00; x00; x00; x02] = Undefined
  /\ decompress_to_file ILP32 0 [x08; x00; x00; x00; x02] = Undefined.
Proof.
  apply (decompress_truncated_header ILP32 0 [x08; x00; x00; x00; x02]).
  simpl. lia.
Defined.

(** Claim C5 as stated fails: decompressing the empty container does not
    end in a typed error. *)
Lemma truncated_header_not_rejected :
  ~ exists e, decompress_to_file ILP32 0 [] = Throws e.
Proof. intros [e He]. discriminate He. Qed.

(** The loop of [decompress] exits while the last bit is unread. *)
Lemma decompress_loop_stops_one_bit_early fuel root (bits : std_string)
    decoded :
  (1 <= length bits)%nat ->
  Z.of_nat (length bits) <= INT_MAX ->
  decompress_loop fuel root (Z.of_nat (length bits) - 2) bits decoded
  = Returns decoded.
Proof.
  intros Hlen Hmax. rewrite decompress_loop_unfold. cbn zeta.
  unfold static_cast_int, UINT32_MOD, INT_MAX, INT_MIN in *.
  rewrite Z.mod_small by lia.
  replace (_ <? _) with false by (symmetry; apply Z.ltb_ge; lia).
  replace (_ <? _) with false by (symmetry; apply Z.ltb_ge; lia).
  reflexivity.
Qed.

(** * The program on concrete inputs *)

(** Claim C9, as amended.  For every non-empty frequency table, every
    entry of the generated code table maps a byte to the path from the
    root to the leaf that holds this byte (['0'] for a left branch, ['1']
    for a right branch); the path is non-empty when the table has at least
    two entries. *)
Theorem substitution_table_paths (frequencies : StdMap.t Z) :
  frequencies <> [] ->
  exists root,
    build_huffman_tree frequencies = Returns root
    /\ (forall b code,
          StdMap.find b (create_substitution_table root [] []) = Some code ->
          holds_byte (descend root code) b)
    /\ ((2 <= length frequencies)%nat ->
        forall b code,
          StdMap.find b (create_substitution_table root [] []) = Some code ->
          code <> []).
Proof.
  intros Hne.
  destruct (build_huffman_tree_spec frequencies Hne)
    as (root & Hb & _ & _ & Hleaf).
  exists root. split; [exact Hb|]. split.
  - intros b code Hf. apply leaf_paths_descend.
    now apply table_entry_leaf_path.
  - intros H2 b code Hf. apply (leaf_paths_nonempty root b).
    + now apply Hleaf.
    + now apply table_entry_leaf_path.
Qed.

Lemma substitution_table_paths_witness :
  exists root,
    build_huffman_tree [("A"%byte, 4); ("B"%byte, 4)] = Returns root
    /\ (forall b code,
          StdMap.find b (create_substitution_table root [] []) = Some code ->
          holds_byte (descend root code) b)
    /\ ((2 <= length [("A"%byte, 4); ("B"%byte, 4)])%nat ->
        forall b code,
          StdMap.find b (create_substitution_table root [] []) = Some code ->
          code <> []).
Proof.
  apply (substitution_table_paths [("A"%byte, 4); ("B"%byte, 4)]).
  discriminate.
Defined.

(** Claim C9 as stated fails: the only code of the table generated from a
    frequency table with one entry is the empty string. *)
Lemma single_entry_code_empty :
  build_huffman_tree [("A"%byte, 1)] = Returns (new_leaf "A"%byte 1)
  /\ StdMap.find "A"%byte (create_substitution_table (new_leaf "A"%byte 1) [] [])
     = Some [].
Proof. split; vm_compute; reflexivity. Qed.

(** Claim C7 as stated fails: on four bytes of equal frequency the queue
    gives up the leaves of bytes 0 and 2 first, while the stable order
    over (frequency, insertion order) gives up those of bytes 0 and 1. *)
Lemma heap_order_not_stable :
  let frequencies := [(x00, 1); (x01, 1); (x02, 1); (x03, 1)] in
  build_huffman_tree frequencies
  = Returns (new_internal (new_internal (new_leaf x00 1) (new_leaf x02 1))
                          (new_internal (new_leaf x01 1) (new_leaf x03 1)))
  /\ build_huffman_tree_stable frequencies
     = Returns (new_internal (new_internal (new_leaf x00 1) (new_leaf x01 1))
                             (new_internal (new_leaf x02 1) (new_leaf x03 1)))
  /\ build_huffman_tree frequencies <> build_huffman_tree_stable frequencies.
Proof.
  cbv zeta. split; [vm_compute; reflexivity|].
  split; [vm_compute; reflexivity|].
  vm_compute. discriminate.
Qed.

(** Claim C1 fails on the code.  Compressing and then decompressing
    ["AB"] yields ["A"], a single ["A"] yields the empty sequence, and
    ["ABCA"] yields ["ABC"]: the loop of [decompress] stops while one
    meaningful bit is unread, so a final byte whose code is one bit long
    (or empty) is lost.  More fuel does not change the results. *)
Theorem round_trip_loses_last_byte (fuel : nat) :
  round_trip ILP32 (1 + fuel) ["A"; "B"]%byte = Returns ["A"]%byte
  /\ round_trip ILP32 fuel ["A"]%byte = Returns []
  /\ round_trip ILP32 (3 + fuel) ["A"; "B"; "C"; "A"]%byte
     = Returns ["A"; "B"; "C"]%byte.
Proof.
  split; [|split].
  - apply round_trip_fuel. vm_compute. reflexivity.
  - apply (round_trip_fuel ILP32 0 fuel). vm_compute. reflexivity.
  - apply round_trip_fuel. vm_compute. reflexivity.
Qed.

(** Claim C3 on the code.  For ["AAAABBBB"] the code table has exactly two
    entries, with the codes ["0"] and ["1"], but compressing and then
    decompressing it yields the seven bytes ["AAAABBB"]: the last byte is
    lost.  More fuel does not change the result. *)
Theorem AAAABBBB_table_and_round_trip (fuel : nat) :
  (exists root,
     build_huffman_tree (count_frequencies AAAABBBB) = Returns root
     /\ create_substitution_table root [] []
        = [("A"%byte, ["0"%char]); ("B"%byte, ["1"%char])])
  /\ round_trip ILP32 (7 + fuel) AAAABBBB
     = Returns ["A"; "A"; "A"; "A"; "B"; "B"; "B"]%byte.
Proof.
  split.
  - eexists. split; vm_compute; reflexivity.
  - apply round_trip_fuel. vm_compute. reflexivity.
Qed.

(** Claim C2 fails on the code where [std::size_t] is 8 bytes wide (LP64):
    [packed_size] and [table_count] are written as [std::size_t], so the
    header of the container of ["AAAABBBB"] has 24 bytes, not 16, while
    [read_compressed_file] reads four fields of 4 bytes; decompressing the
    file that was just written has no defined outcome. *)
Theorem LP64_header_is_24_bytes :
  compress LP64 AAAABBBB
  = Returns
      ([x08; x00; x00; x00;
        x02; x00; x00; x00; x00; x00; x00; x00;
        x08; x00; x00; x00;
        x02; x00; x00; x00; x00; x00; x00; x00;
        x41; x04; x00; x00; x00;
        x42; x04; x00; x00; x00;
        x0f; x00], 2)
  /\ forall fuel, round_trip LP64 fuel AAAABBBB = Undefined.
Proof.
  split; [vm_compute; reflexivity|].
  intros fuel. unfold round_trip.
  replace (compress LP64 AAAABBBB) with
    (Returns
      ([x08; x00; x00; x00;
        x02; x00; x00; x00; x00; x00; x00; x00;
        x08; x00; x00; x00;
        x02; x00; x00; x00; x00; x00; x00; x00;
        x41; x04; x00; x00; x00;
        x42; x04; x00; x00; x00;
        x0f; x00], 2)) by (vm_compute; reflexivity).
  cbn [bind fst]. unfold decompress_to_file.
  match goal with
  | |- bind ?r _ = _ => replace r with (@Undefined (Z * list Byte * StdMap.t Z))
      by (vm_compute; reflexivity)
  end.
  reflexivity.
Qed.

(** The header has sixteen bytes exactly when [std::size_t] has four. *)
Lemma length_object_bytes p width z : length (object_bytes p width z) = width.
Proof.
  unfold object_bytes, le_bytes.
  destruct (big_endian p); rewrite ?length_rev, length_map, length_seq;
    reflexivity.
Qed.

Lemma length_header_bytes p original_file_size compressed_data padding
    frequencies :
  length (header_bytes p original_file_size compressed_data padding frequencies)
  = (8 + 2 * sizeof_size_t p)%nat.
Proof.
  unfold header_bytes. rewrite !length_app, !length_object_bytes.
  unfold sizeof_uint32_t. lia.
Qed.

Lemma length_table_bytes p (frequencies : StdMap.t Z) :
  length (table_bytes p frequencies) = (5 * length frequencies)%nat.
Proof.
  unfold table_bytes. induction frequencies as [|[k n] m IH]; [reflexivity|].
  cbn [flat_map]. rewrite length_app. cbn [length].
  rewrite length_object_bytes, IH. unfold sizeof_uint32_t. simpl. lia.
Qed.

(** * The heap algorithms keep the heap order *)

Section HeapOrder.
Context {A : Type} `{Inhabited A} (comp : A -> A -> bool) (key : A -> Z).
Hypothesis comp_key : forall a b, comp a b = (key b <? key a).
Implicit Types (v w : list A) (x : A) (n h i : nat).

Local Open Scope nat_scope.

Lemma get_upd v h x (j : nat) :
  h < length v ->
  <[h := x]> v !!! j = if decide (j = h) then x else v !!! j.
Proof.
  intros Hh. rewrite list_lookup_total_insert.
  destruct (decide (j = h)) as [->|Hne].
  - rewrite decide_True by (split; [reflexivity|exact Hh]). reflexivity.
  - rewrite decide_False; [reflexivity|]. intros [E _]. congruence.
Qed.

Lemma heap_ordered_top n v :
  heap_ordered key n v -> forall i, i < n -> Z.le (key (v !!! 0)) (key (v !!! i)).
Proof.
  intros Hord i. induction i as [i IH] using lt_wf_ind. intros Hi.
  destruct (decide (i = 0)) as [->|Hne]; [lia|].
  pose proof (parent_lt i ltac:(lia)) as Hp.
  specialize (IH _ Hp ltac:(lia)).
  specialize (Hord i ltac:(lia)). lia.
Qed.

Lemma push_heap_loop_ordered n fuel v h x :
  h <= fuel -> h < n -> n <= length v ->
  up_inv key n (<[h := x]> v) h ->
  heap_ordered key n (push_heap_loop comp fuel v h 0 x).
Proof.
  revert v h. induction fuel as [|fuel IH]; intros v h Hf Hh Hn [H1 H2];
    cbn [push_heap_loop].
  - intros i Hi. apply H1; lia.
  - destruct ((0 <? h) && comp (v !!! ((h - 1) / 2)) x) eqn:E.
    + apply andb_true_iff in E. destruct E as [E1 E2].
      apply Nat.ltb_lt in E1. rewrite comp_key in E2. apply Z.ltb_lt in E2.
      pose proof (parent_lt h E1) as Hp.
      set (p := (h - 1) / 2) in *.
      apply IH; [lia|lia|rewrite length_insert; lia|].
      assert (Hw : forall j : nat,
                <[p := x]> (<[h := v !!! p]> v) !!! j
                = if decide (j = p) then x
                  else if decide (j = h) then v !!! p else v !!! j).
      { intros j. rewrite get_upd by (rewrite length_insert; lia).
        destruct (decide (j = p)); [reflexivity|]. apply get_upd. lia. }
      assert (Hv : forall j : nat,
                <[h := x]> v !!! j = if decide (j = h) then x else v !!! j).
      { intros j. apply get_upd. lia. }
      split.
      * intros i Hi Hip. rewrite !Hw.
        rewrite (decide_False (P := i = p)) by exact Hip.
        destruct (decide (i = h)) as [->|Hih].
        -- fold p. rewrite decide_True by reflexivity. lia.
        -- destruct (decide ((i - 1) / 2 = p)) as [Epp|Epp].
           ++ specialize (H1 i Hi Hih). rewrite !Hv, Epp in H1.
              rewrite decide_False in H1 by lia.
              rewrite decide_False in H1 by exact Hih. lia.
           ++ destruct (decide ((i - 1) / 2 = h)) as [Eph|Eph].
              ** specialize (H2 E1 i Hi Eph). rewrite !Hv in H2. fold p in H2.
                 rewrite decide_False in H2 by lia.
                 rewrite decide_False in H2 by exact Hih. exact H2.
              ** specialize (H1 i Hi Hih). rewrite !Hv in H1.
                 rewrite decide_False in H1 by exact Eph.
                 rewrite decide_False in H1 by exact Hih. exact H1.
      * intros Hp0 i Hi Eip. rewrite !Hw.
        pose proof (parent_lt p Hp0) as Hpp.
        rewrite (decide_False (P := (p - 1) / 2 = p)) by lia.
        rewrite (decide_False (P := (p - 1) / 2 = h)) by lia.
        rewrite (decide_False (P := i = p))
          by (pose proof (parent_lt i ltac:(lia)); lia).
        pose proof (H1 p ltac:(lia) ltac:(lia)) as Hpar.
        rewrite !Hv in Hpar.
        rewrite decide_False in Hpar by lia.
        rewrite decide_False in Hpar by lia.
        destruct (decide (i = h)) as [->|Hih]; [exact Hpar|].
        specialize (H1 i Hi Hih). rewrite !Hv, Eip in H1.
        rewrite decide_False in H1 by lia.
        rewrite decide_False in H1 by exact Hih. lia.
    + intros i Hi. destruct (decide (i = h)) as [->|Hih]; [|now apply H1].
      apply andb_false_iff in E.
      pose proof (parent_lt h ltac:(lia)) as Hp.
      rewrite !get_upd by lia.
      rewrite decide_False by lia. rewrite decide_True by reflexivity.
      destruct E as [E|E].
      * apply Nat.ltb_ge in E. lia.
      * rewrite comp_key in E. apply Z.ltb_ge in E. exact E.
Qed.

Lemma adjust_heap_loop_ordered n fuel v h :
  h < n -> n <= length v -> n <= fuel + h ->
  down_inv key n v h ->
  let '(v', h', _) := adjust_heap_loop comp fuel v h h n in
  h' < n /\ length v' = length v /\ ~ h' < (n - 1) / 2 /\ down_inv key n v' h'.
Proof.
  revert v h. induction fuel as [|fuel IH]; intros v h Hh Hn Hf Hinv;
    cbn [adjust_heap_loop].
  - lia.
  - destruct (h <? (n - 1) / 2) eqn:E.
    + apply Nat.ltb_lt in E.
      assert (Hc : 2 * (h + 1) <= n - 1).
      { pose proof (Nat.Div0.mul_div_le (n - 1) 2). lia. }
      set (c := if comp (v !!! (2 * (h + 1))) (v !!! (2 * (h + 1) - 1))
                then 2 * (h + 1) - 1 else 2 * (h + 1)).
      set (o := if comp (v !!! (2 * (h + 1))) (v !!! (2 * (h + 1) - 1))
                then 2 * (h + 1) else 2 * (h + 1) - 1).
      assert (Hpc : (c - 1) / 2 = h /\ (o - 1) / 2 = h /\ c < n /\ o < n
                    /\ h < c /\ h < o
                    /\ Z.le (key (v !!! c)) (key (v !!! o))
                    /\ forall i, (i - 1) / 2 = h -> 0 < i -> i = c \/ i = o).
      { assert (P1 : (2 * (h + 1) - 1 - 1) / 2 = h).
        { replace (2 * (h + 1) - 1 - 1) with (h * 2) by lia.
          apply Nat.div_mul. lia. }
        assert (P2 : (2 * (h + 1) - 1) / 2 = h).
        { replace (2 * (h + 1) - 1) with (1 + h * 2) by lia.
          rewrite Nat.div_add by lia. reflexivity. }
        assert (P3 : forall i, (i - 1) / 2 = h -> 0 < i ->
                       i = 2 * (h + 1) - 1 \/ i = 2 * (h + 1)).
        { intros i Ei Hi.
          pose proof (Nat.div_mod_eq (i - 1) 2) as Hdm.
          pose proof (Nat.mod_upper_bound (i - 1) 2 ltac:(lia)).
          rewrite Ei in Hdm. lia. }
        subst c o.
        destruct (comp (v !!! (2 * (h + 1))) (v !!! (2 * (h + 1) - 1))) eqn:Ec;
          rewrite comp_key in Ec;
          [apply Z.ltb_lt in Ec|apply Z.ltb_ge in Ec];
          cbv iota beta;
          (split; [|split; [|split; [|split; [|split; [|split; [|split]]]]]]);
          try lia; try assumption.
        intros i Ei Hi. destruct (P3 i Ei Hi); [now right|now left]. }
      clearbody c o.
      destruct Hpc as (Pc & Po & Hcn & Hon & Hhc & Hho & Hco & Hkids).
      specialize (IH (<[h := v !!! c]> v) c Hcn).
      rewrite length_insert in IH.
      specialize (IH Hn ltac:(lia)).
      destruct (adjust_heap_loop comp fuel (<[h := v !!! c]> v) c c n)
        as [[v' h'] sc'].
      apply IH. clear IH.
      assert (Hw : forall j : nat,
                <[h := v !!! c]> v !!! j
                = if decide (j = h) then v !!! c else v !!! j).
      { intros j. apply get_upd. lia. }
      intros i Hi Hic. rewrite !Hw. split.
      * intros Hpi.
        destruct (decide (i = h)) as [->|Hih].
        -- (* the element moved into the old hole *)
           pose proof (parent_lt h ltac:(lia)) as Hph.
           rewrite decide_False by lia.
           apply (proj2 (Hinv c ltac:(lia) ltac:(lia)) Pc). lia.
        -- destruct (decide ((i - 1) / 2 = h)) as [Eph|Eph].
           ++ destruct (Hkids i Eph ltac:(lia)) as [->| ->];
                [congruence|exact Hco].
           ++ apply (proj1 (Hinv i Hi Hih) Eph).
      * intros Epc Hc0. rewrite Pc.
        rewrite decide_True by reflexivity.
        assert (Hih : i <> h).
        { pose proof (parent_lt i ltac:(lia)). lia. }
        rewrite decide_False by exact Hih.
        rewrite <- Epc. apply (proj1 (Hinv i Hi Hih)). lia.
    + apply Nat.ltb_ge in E.
      split; [exact Hh|]. split; [reflexivity|]. split; [lia|exact Hinv].
Qed.

Lemma even_branch n h :
  0 < n ->
  (Nat.even n && (Z.of_nat h =? Z.quot (Z.of_nat n - 2) 2)%Z) = true ->
  exists m, n = 2 * m /\ 1 <= m /\ h = m - 1.
Proof.
  intros Hn E. apply andb_true_iff in E. destruct E as [Hev Hq].
  apply Z.eqb_eq in Hq.
  apply Nat.even_spec in Hev. destruct Hev as [m ->].
  exists m. split; [reflexivity|]. split; [lia|].
  replace (Z.of_nat (2 * m) - 2)%Z with (2 * (Z.of_nat m - 1))%Z in Hq by lia.
  rewrite Z.mul_comm, Z.quot_mul in Hq by lia. lia.
Qed.

Lemma even_branch_conv m h :
  1 <= m -> h = m - 1 ->
  (Nat.even (2 * m) && (Z.of_nat h =? Z.quot (Z.of_nat (2 * m) - 2) 2)%Z)
  = true.
Proof.
  intros Hm ->. apply andb_true_iff. split.
  - apply Nat.even_spec. now exists m.
  - apply Z.eqb_eq.
    replace (Z.of_nat (2 * m) - 2)%Z with (2 * (Z.of_nat m - 1))%Z by lia.
    rewrite Z.mul_comm, Z.quot_mul by lia. lia.
Qed.

Lemma adjust_heap_ordered n v x :
  0 < n -> n <= length v ->
  down_inv key n v 0 ->
  heap_ordered key n (__adjust_heap comp v 0 n x).
Proof.
  intros Hn Hlen Hinv. unfold __adjust_heap.
  pose proof (adjust_heap_loop_ordered n n v 0 Hn Hlen ltac:(lia) Hinv)
    as Hloop.
  pose proof (adjust_heap_loop_spec comp n v 0 n Hn Hlen) as Hspec.
  destruct (adjust_heap_loop comp n v 0 0 n) as [[v' h'] sc'].
  destruct Hloop as (Hh' & Hl' & Hexit & Hd).
  destruct Hspec as (<- & _).
  destruct (Nat.even n && (Z.of_nat h' =? Z.quot (Z.of_nat n - 2) 2)%Z)
    eqn:E.
  - destruct (even_branch n h' Hn E) as (m & -> & Hm & ->).
    replace (2 * (m - 1 + 1) - 1) with (2 * m - 1) by lia.
    set (hole := 2 * m - 1).
    assert (Hparent : (hole - 1) / 2 = m - 1).
    { subst hole. replace (2 * m - 1 - 1) with ((m - 1) * 2) by lia.
      apply Nat.div_mul. lia. }
    assert (Hnokid : forall i, 0 < i < 2 * m -> (i - 1) / 2 <> hole).
    { intros i Hi Ei. pose proof (Nat.Div0.mul_div_le (i - 1) 2).
      subst hole. lia. }
    assert (Hkid : forall i, 0 < i < 2 * m -> (i - 1) / 2 = m - 1 ->
                     i = hole).
    { intros i Hi Ei. pose proof (Nat.div_mod_eq (i - 1) 2) as Hdm.
      pose proof (Nat.mod_upper_bound (i - 1) 2 ltac:(lia)).
      rewrite Ei in Hdm. subst hole. lia. }
    unfold __push_heap.
    apply push_heap_loop_ordered;
      [lia|subst hole; lia|rewrite length_insert; lia|].
    assert (Hw : forall j : nat,
              <[hole := x]> (<[m - 1 := v' !!! hole]> v') !!! j
              = if decide (j = hole) then x
                else if decide (j = m - 1) then v' !!! hole else v' !!! j).
    { intros j. rewrite get_upd by (rewrite length_insert; subst hole; lia).
      destruct (decide (j = hole)); [reflexivity|]. apply get_upd. lia. }
    split.
    + intros i Hi Hih. rewrite !Hw.
      rewrite (decide_False (P := (i - 1) / 2 = hole)) by now apply Hnokid.
      rewrite (decide_False (P := i = hole)) by exact Hih.
      destruct (decide (i = m - 1)) as [->|Him].
      * pose proof (parent_lt (m - 1) ltac:(lia)).
        rewrite decide_False by lia.
        apply (proj2 (Hd hole ltac:(subst hole; lia) ltac:(subst hole; lia))
                 Hparent).
        lia.
      * assert (Hpi : (i - 1) / 2 <> m - 1).
        { intros Ei. apply Hih. now apply Hkid. }
        rewrite decide_False by exact Hpi.
        apply (proj1 (Hd i Hi Him) Hpi).
    + intros _ i Hi Ei. exfalso. now apply (Hnokid i Hi).
  - unfold __push_heap.
    assert (Hnokid : forall i, 0 < i < n -> (i - 1) / 2 <> h').
    { intros i Hi Ei.
      pose proof (Nat.div_mod_eq (i - 1) 2) as Hdi.
      pose proof (Nat.mod_upper_bound (i - 1) 2 ltac:(lia)).
      pose proof (Nat.div_mod_eq (n - 1) 2) as Hdn.
      pose proof (Nat.mod_upper_bound (n - 1) 2 ltac:(lia)).
      rewrite Ei in Hdi.
      assert (Hm : n = 2 * (h' + 1)) by lia.
      rewrite Hm, even_branch_conv in E by lia. discriminate E. }
    apply push_heap_loop_ordered; [lia|lia|lia|].
    split.
    + intros i Hi Hih. rewrite !get_upd by lia.
      rewrite (decide_False (P := (i - 1) / 2 = h')) by now apply Hnokid.
      rewrite decide_False by exact Hih.
      apply (proj1 (Hd i Hi Hih)). now apply Hnokid.
    + intros _ i Hi Ei. exfalso. now apply (Hnokid i Hi).
Qed.

Lemma pop_heap_ordered v :
  heap_ordered_list key v -> 1 < length v ->
  heap_ordered key (length v - 1) (pop_heap comp v).
Proof.
  intros Hord Hlen. unfold pop_heap.
  replace (1 <? length v) with true by (symmetry; now apply Nat.ltb_lt).
  apply adjust_heap_ordered; [lia|rewrite length_insert; lia|].
  intros i Hi Hi0. split.
  - intros _. rewrite !get_upd by lia.
    pose proof (parent_le i).
    rewrite !decide_False by lia. apply Hord. lia.
  - intros _ Habs. lia.
Qed.

Lemma pq_pop_ordered x c c' :
  heap_ordered_list key (x :: c) ->
  pq_pop comp (x :: c) = Returns c' ->
  heap_ordered_list key c'.
Proof.
  intros Hord [= <-]. unfold heap_ordered_list.
  rewrite removelast_firstn_len, length_take, pop_heap_length.
  cbn [length]. rewrite Nat.min_l by lia. cbn [Nat.pred].
  intros i Hi. pose proof (parent_le i).
  rewrite !lookup_total_take_lt by lia.
  destruct c as [|y c]; [simpl in Hi; lia|].
  pose proof (pop_heap_ordered (x :: y :: c) Hord ltac:(simpl; lia)) as Hp.
  apply Hp. simpl in Hi |- *. lia.
Qed.

Lemma pq_push_ordered c x :
  heap_ordered_list key c -> heap_ordered_list key (pq_push comp c x).
Proof.
  intros Hord. unfold heap_ordered_list, pq_push.
  rewrite push_heap_length. unfold push_heap, __push_heap.
  rewrite length_app. cbn [length].
  replace (length c + 1 - 1) with (length c) by lia.
  apply push_heap_loop_ordered;
    [lia|lia|rewrite length_app; simpl; lia|].
  rewrite list_lookup_total_middle by reflexivity.
  rewrite list_insert_id
    by (apply list_lookup_middle; reflexivity).
  split.
  - intros i Hi Hin. pose proof (parent_le i).
    rewrite !lookup_total_app_l by lia. apply Hord. lia.
  - intros Hc i Hi Ei. pose proof (Nat.Div0.mul_div_le (i - 1) 2). lia.
Qed.

Lemma pq_top_min x c :
  heap_ordered_list key (x :: c) -> Forall (fun y => Z.le (key x) (key y)) c.
Proof.
  intros Hord. apply Forall_lookup. intros i y Hy.
  pose proof (heap_ordered_top _ _ Hord (S i)) as Hmin.
  assert (Hi : i < length c) by (eapply lookup_lt_Some, Hy).
  specialize (Hmin ltac:(simpl; lia)).
  assert (E0 : (x :: c) !!! 0 = x) by reflexivity.
  assert (Ei : (x :: c) !!! S i = y)
    by (apply list_lookup_total_correct; exact Hy).
  now rewrite E0, Ei in Hmin.
Qed.

Lemma heap_ordered_list_nil : heap_ordered_list key [].
Proof. intros i Hi. simpl in Hi. lia. Qed.
End HeapOrder.

(** * The tree is built by the greedy merge *)

Lemma greater_frequency_key a b :
  greater_frequency a b = (freq_of b <? freq_of a).
Proof. reflexivity. Qed.

Lemma greedy_merge_perm queue queue' root :
  queue ≡ₚ queue' -> greedy_merge queue root -> greedy_merge queue' root.
Proof.
  intros Hp Hg. destruct Hg as [x|queue q1 rest l r root H1 H2 H3 H4 H5].
  - apply Permutation_length_1_inv in Hp. subst. constructor.
  - eapply greedy_step; eauto. now rewrite <- Hp.
Qed.

Lemma build_loop_greedy fuel nodeHeap :
  node_heap nodeHeap -> nodeHeap <> [] ->
  (length nodeHeap <= S fuel)%nat ->
  exists root,
    build_loop fuel nodeHeap = Returns [root] /\ greedy_merge nodeHeap root.
Proof.
  revert nodeHeap. induction fuel as [|fuel IH]; intros nodeHeap Hord Hne Hlen.
  - destruct nodeHeap as [|x [|y c]]; [congruence| |simpl in Hlen; lia].
    exists x. split; [reflexivity|constructor].
  - destruct nodeHeap as [|x [|y c]]; [congruence| |].
    + exists x. split; [reflexivity|constructor].
    + cbn [build_loop]. replace (1 <? length (x :: y :: c))%nat with true
        by (symmetry; apply Nat.ltb_lt; simpl; lia).
      unfold nodeHeap_top, nodeHeap_pop. cbn [pq_top bind].
      pose proof (pq_top_min freq_of x (y :: c) Hord) as Hmin1.
      destruct (pq_pop_spec greater_frequency x (y :: c))
        as (c1 & Hpop1 & Hp1 & Hl1).
      pose proof (pq_pop_ordered greater_frequency freq_of greater_frequency_key
                    x (y :: c) c1 Hord Hpop1) as Hord1.
      rewrite Hpop1. cbn [bind]. apply Permutation_cons_inv in Hp1.
      destruct c1 as [|x1 c1]; [simpl in Hl1; lia|].
      cbn [pq_top bind].
      pose proof (pq_top_min freq_of x1 c1 Hord1) as Hmin2.
      destruct (pq_pop_spec greater_frequency x1 c1) as (c2 & Hpop2 & Hp2 & Hl2).
      pose proof (pq_pop_ordered greater_frequency freq_of greater_frequency_key
                    x1 c1 c2 Hord1 Hpop2) as Hord2.
      rewrite Hpop2. cbn [bind]. apply Permutation_cons_inv in Hp2.
      pose proof (pq_push_perm greater_frequency c2 (new_internal x x1)) as Hpush.
      pose proof (pq_push_length greater_frequency c2 (new_internal x x1)) as Hpl.
      pose proof (pq_push_ordered greater_frequency freq_of greater_frequency_key
                    c2 (new_internal x x1) Hord2) as Hord3.
      fold (nodeHeap_push c2 (new_internal x x1)) in Hpush, Hpl, Hord3 |- *.
      destruct (IH (nodeHeap_push c2 (new_internal x x1))) as (root & Hr & Hg).
      * exact Hord3.
      * intros E. rewrite E in Hpl. discriminate Hpl.
      * rewrite Hpl. simpl in Hlen, Hl1. lia.
      * exists root. split; [exact Hr|].
        eapply (greedy_step _ _ c2 x x1).
        -- rewrite <- Hp1. now rewrite Hp2.
        -- eapply Permutation_Forall; [|exact Hmin1].
           rewrite <- Hp1. now rewrite Hp2.
        -- eapply Permutation_Forall; [|exact Hmin2]. now symmetry.
        -- exact Hpush.
        -- exact Hg.
Qed.

Lemma initial_heap_ordered (frequencies : StdMap.t Z) :
  node_heap (initial_heap frequencies).
Proof.
  unfold initial_heap.
  assert (Hgen : forall acc, node_heap acc ->
            node_heap (fold_left
              (fun nodeHeap pair =>
                 nodeHeap_push nodeHeap (new_leaf (fst pair) (snd pair)))
              frequencies acc)).
  { induction frequencies as [|[k n] m IH]; intros acc Hacc; [exact Hacc|].
    cbn [fold_left]. apply IH.
    apply (pq_push_ordered greater_frequency freq_of greater_frequency_key).
    exact Hacc. }
  apply Hgen. apply heap_ordered_list_nil.
Qed.

(** Claim C7, as amended.  When the tree is built, every round takes out
    of the queue a node of least frequency and then a node of least
    frequency among the others, and the first becomes the left child and
    the second the right child of the node put back; which of several
    nodes of equal frequency is taken is decided by the binary heap, not
    by insertion order.  The leaves are pushed in the order of the table,
    and the tree is a function of the table. *)
Theorem build_huffman_tree_greedy (frequencies : StdMap.t Z) :
  frequencies <> [] ->
  exists root,
    build_huffman_tree frequencies = Returns root
    /\ greedy_merge
         (map (fun pair => new_leaf (fst pair) (snd pair)) frequencies) root.
Proof.
  intros Hne. unfold build_huffman_tree.
  pose proof (initial_heap_perm frequencies) as Hp.
  pose proof (initial_heap_length frequencies) as Hl.
  destruct (build_loop_greedy (length (initial_heap frequencies))
              (initial_heap frequencies)) as (root & Hr & Hg).
  - apply initial_heap_ordered.
  - intros E. rewrite E in Hl. destruct frequencies; [congruence|discriminate].
  - lia.
  - exists root. rewrite Hr. split; [reflexivity|].
    eapply greedy_merge_perm; [exact Hp|exact Hg].
Qed.

Lemma build_huffman_tree_greedy_witness :
  exists root,
    build_huffman_tree [(x00, 1); (x01, 1); (x02, 1); (x03, 1)] = Returns root
    /\ greedy_merge
         (map (fun pair => new_leaf (fst pair) (snd pair))
            [(x00, 1); (x01, 1); (x02, 1); (x03, 1)]) root.
Proof.
  apply (build_huffman_tree_greedy [(x00, 1); (x01, 1); (x02, 1); (x03, 1)]).
  discriminate.
Defined.

(** * What a round trip returns *)

Lemma string_at_middle (pre rest : std_string) (c : ascii) :
  string_at (pre ++ c :: rest) (Z.of_nat (length pre)) = Returns c.
Proof.
  unfold string_at, std_string.
  replace (Z.of_nat (length pre) <? 0) with false
    by (symmetry; apply Z.ltb_ge; lia).
  rewrite Nat2Z.id, list_lookup_middle by reflexivity. reflexivity.
Qed.

(** [decode] reads the code of a leaf and appends the byte of the leaf. *)
Lemma decode_leaf_path root b code :
  In (b, code) (leaf_paths root) ->
  forall (pre rest : std_string) (decoded : list Byte),
    Z.of_nat (length pre + length code) <= INT_MAX ->
    decode root (Z.of_nat (length pre) - 1) (pre ++ code ++ rest) decoded
    = Returns (Z.of_nat (length pre + length code) - 1, decoded ++ [b]).
Proof.
  revert code. induction root as [|b0 f l IHl r IHr];
    intros code Hin pre rest decoded Hmax.
  - destruct Hin.
  - cbn [decode]. destruct (is_null l && is_null r) eqn:E.
    + rewrite leaf_paths_leaf in Hin by exact E.
      destruct Hin as [[= <- <-]|[]].
      cbn [length]. now rewrite Nat.add_0_r.
    + apply in_leaf_paths_internal in Hin; [|exact E].
      assert (Hstep : forall c code',
                code = c :: code' ->
                (Z.of_nat (length pre) - 1 =? INT_MAX) = false
                /\ string_at (pre ++ code ++ rest) (Z.of_nat (length pre) - 1 + 1)
                   = Returns c
                /\ pre ++ code ++ rest = (pre ++ [c]) ++ code' ++ rest
                /\ Z.of_nat (length pre) - 1 + 1
                   = Z.of_nat (length (pre ++ [c])) - 1
                /\ (length pre + length code
                    = length (pre ++ [c]) + length code')%nat).
      { intros c code' ->. cbn [length] in Hmax. split; [|split; [|split; [|split]]].
        - apply Z.eqb_neq. lia.
        - replace (Z.of_nat (length pre) - 1 + 1) with (Z.of_nat (length pre))
            by lia.
          apply string_at_middle.
        - now rewrite <- app_assoc.
        - rewrite length_app. cbn [length]. lia.
        - rewrite length_app. cbn [length]. lia. }
      destruct Hin as [(code' & -> & Hin)|(code' & -> & Hin)];
        destruct (Hstep _ code' eq_refl) as (H1 & H2 & H3 & H4 & H5);
        rewrite H1, H2; cbn [bind]; rewrite H3, H4, H5.
      * replace (Ascii.eqb LEFT_CHAR LEFT_CHAR) with true by reflexivity.
        apply IHl; [exact Hin|]. rewrite <- H5. exact Hmax.
      * replace (Ascii.eqb RIGHT_CHAR LEFT_CHAR) with false by reflexivity.
        apply IHr; [exact Hin|]. rewrite <- H5. exact Hmax.
Qed.

Lemma total_code_length_nonneg table data : 0 <= total_code_length table data.
Proof.
  induction data as [|b data IH]; [reflexivity|].
  rewrite total_code_length_cons. lia.
Qed.

Lemma flat_map_code_of_app table (done todo : list Byte) :
  flat_map (code_of table) (done ++ todo)
  = flat_map (code_of table) done ++ flat_map (code_of table) todo.
Proof. apply flat_map_app. Qed.

(** The loop of [decompress] on the encoding of [done ++ todo], entered
    after the bytes of [done] were decoded. *)
Lemma decompress_loop_decodes root table (todo done decoded : list Byte)
    (fuel : nat) :
  (forall b, In b todo -> In (b, code_of table b) (leaf_paths root)) ->
  Z.of_nat (length (flat_map (code_of table) (done ++ todo))) <= INT_MAX ->
  (length todo <= fuel)%nat ->
  decompress_loop fuel root
    (Z.of_nat (length (flat_map (code_of table) done)) - 1)
    (flat_map (code_of table) (done ++ todo)) decoded
  = Returns (decoded ++ decoded_prefix table todo).
Proof.
  revert done decoded fuel.
  induction todo as [|b todo IH]; intros done decoded fuel Hpaths Hmax Hfuel;
    rewrite decompress_loop_unfold; cbn zeta.
  - rewrite app_nil_r in *. unfold static_cast_int, UINT32_MOD, INT_MAX, INT_MIN in *.
    rewrite Z.mod_small by lia.
    replace (_ <? _) with false by (symmetry; apply Z.ltb_ge; lia).
    replace (_ <? _) with false by (symmetry; apply Z.ltb_ge; lia).
    cbn [decoded_prefix]. now rewrite app_nil_r.
  - pose proof (total_code_length_nonneg table todo) as Hnn.
    assert (Hlen : Z.of_nat (length (flat_map (code_of table) (done ++ b :: todo)))
                   = Z.of_nat (length (flat_map (code_of table) done))
                     + total_code_length table (b :: todo)).
    { rewrite flat_map_code_of_app, length_app, Nat2Z.inj_add.
      now rewrite (length_flat_map_code_of table (b :: todo)). }
    cbn [decoded_prefix].
    replace (static_cast_int _)
      with (Z.of_nat (length (flat_map (code_of table) (done ++ b :: todo)))).
    2:{ unfold static_cast_int, UINT32_MOD, INT_MAX in *.
        rewrite Z.mod_small by lia. lia. }
    replace (_ <? INT_MIN + 2) with false
      by (symmetry; apply Z.ltb_ge; unfold INT_MIN; lia).
    rewrite Hlen.
    destruct (2 <=? total_code_length table (b :: todo)) eqn:E2.
    + apply Z.leb_le in E2.
      replace (_ <? _) with true by (symmetry; apply Z.ltb_lt; lia).
      destruct fuel as [|fuel]; [simpl in Hfuel; lia|].
      assert (Hbits : flat_map (code_of table) (done ++ b :: todo)
                      = flat_map (code_of table) done ++ code_of table b
                        ++ flat_map (code_of table) todo).
      { now rewrite flat_map_code_of_app. }
      rewrite Hbits at 1.
      rewrite (decode_leaf_path root b (code_of table b)).
      * cbn [bind fst snd].
        replace (done ++ b :: todo) with ((done ++ [b]) ++ todo)
          by (now rewrite <- app_assoc).
        replace (Z.of_nat (length (flat_map (code_of table) done)
                           + length (code_of table b)) - 1)
          with (Z.of_nat (length (flat_map (code_of table) (done ++ [b]))) - 1).
        2:{ rewrite flat_map_code_of_app, length_app. cbn [flat_map].
            now rewrite app_nil_r. }
        rewrite IH.
        -- now rewrite <- app_assoc.
        -- intros b' Hb'. apply Hpaths. now right.
        -- rewrite <- app_assoc. exact Hmax.
        -- simpl in Hfuel. lia.
      * apply Hpaths. now left.
      * rewrite Hlen, total_code_length_cons in Hmax.
        rewrite Nat2Z.inj_add. lia.
    + apply Z.leb_gt in E2.
      replace (_ <? _) with false by (symmetry; apply Z.ltb_ge; lia).
      now rewrite app_nil_r.
Qed.

Lemma erase_padding_pad_data (encoded : std_string) (padding : Z) :
  0 <= padding ->
  erase_padding (pad_data encoded padding) padding = Returns encoded.
Proof.
  intros Hp. unfold erase_padding. rewrite length_pad_data by exact Hp.
  replace (_ <? _) with false by (symmetry; apply Z.ltb_ge; lia).
  f_equal. unfold pad_data. rewrite length_app, repeat_length.
  replace (length encoded + Z.to_nat padding - Z.to_nat padding)%nat
    with (length encoded) by lia.
  now rewrite take_app_length.
Qed.

(** What [decompress] returns for the bits, the padding and the table that
    [compress] hands to [write_compressed_file]. *)
Theorem decompress_compress_prepare (data : list Byte) (fuel : nat) :
  data <> [] ->
  (length data <= fuel)%nat ->
  exists st,
    compress_prepare data = Returns st
    /\ (Z.of_nat (length (encoded st)) <= INT_MAX ->
        decompress fuel (pad_data (encoded st) (padding st)) (padding st)
          (frequencies st)
        = Returns (decoded_prefix (substitution_table st) data, encoded st)).
Proof.
  intros Hne Hfuel.
  destruct (compress_prepare_spec data Hne)
    as (root & Hb & Hfull & Hleaves & Hst).
  cbn zeta in Hst. eexists. split; [exact Hst|].
  cbn [padding encoded substitution_table frequencies]. intros Hmax.
  unfold decompress. rewrite Hb. cbn [bind].
  rewrite erase_padding_pad_data.
  2:{ unfold CHAR_BIT.
      pose proof (Z.mod_pos_bound
        (to_uint32 (weighted_length (count_of (count_frequencies data))
                      (create_substitution_table root [] []))) 8).
      lia. }
  cbn [bind].
  pose proof (decompress_loop_decodes root
                (create_substitution_table root [] []) data [] [] fuel) as Hloop.
  cbn [app flat_map length] in Hloop.
  change (Z.of_nat 0 - 1) with (-1) in Hloop.
  rewrite Hloop; [reflexivity| |exact Hmax|exact Hfuel].
  intros b Hin. apply count_frequencies_keys in Hin.
  rewrite <- Hleaves in Hin. apply leaf_has_entry in Hin.
  destruct Hin as [code Hcode]. unfold code_of. rewrite Hcode. cbn.
  now apply table_entry_leaf_path.
Qed.

(** ** The string that [decompress] leaves *)

Lemma erase_padding_app (encoding rest : std_string) :
  erase_padding (encoding ++ rest) (Z.of_nat (length rest)) = Returns encoding.
Proof.
  unfold erase_padding. rewrite length_app, Nat2Z.id.
  replace (_ <? _) with false by (symmetry; apply Z.ltb_ge; lia).
  replace (length encoding + length rest - length rest)%nat
    with (length encoding) by lia.
  now rewrite take_app_length.
Qed.

(** Claim C10, as amended.  [decompress] mutates its bit-string argument
    in place.  With a table that is not empty, a call on the codes of
    bytes of the table followed by [padding] more characters returns, and
    the caller's string is then the unpadded bit stream: the string passed
    in without its last [padding] characters.  No call returns with
    another string: whenever a call returns, the last [padding] characters
    have been erased. *)
Theorem decompress_erases_padding (frequencies : StdMap.t Z) :
  frequencies <> [] ->
  exists root : HuffmanNode,
    build_huffman_tree frequencies = Returns root
    /\ (forall (data : list Byte) (rest : std_string),
          let encoding :=
            flat_map (code_of (create_substitution_table root [] [])) data in
          (forall b, In b data -> In b (StdMap.keys frequencies)) ->
          Z.of_nat (length encoding) <= INT_MAX ->
          exists decoded,
            decompress (length data) (encoding ++ rest)
              (Z.of_nat (length rest)) frequencies
            = Returns (decoded, encoding))
    /\ (forall (fuel : nat) (bits : std_string) (padding : Z)
               (decoded : list Byte) (bits' : std_string),
          0 <= padding ->
          decompress fuel bits padding frequencies = Returns (decoded, bits') ->
          exists erased,
            bits = bits' ++ erased /\ Z.of_nat (length erased) = padding).
Proof.
  intros Hne.
  destruct (build_huffman_tree_spec frequencies Hne)
    as (root & Hb & _ & Hleaves & _).
  exists root. split; [exact Hb|]. split.
  - intros data rest encoding Hdata Hmax.
    exists (decoded_prefix (create_substitution_table root [] []) data).
    unfold decompress. rewrite Hb. cbn [bind].
    rewrite erase_padding_app. cbn [bind].
    pose proof (decompress_loop_decodes root
                  (create_substitution_table root [] []) data [] []
                  (length data)) as Hloop.
    cbn [app flat_map length] in Hloop.
    change (Z.of_nat 0 - 1) with (-1) in Hloop.
    fold encoding in Hloop.
    rewrite Hloop; [reflexivity| |exact Hmax|lia].
    intros b Hin. apply Hdata in Hin.
    rewrite <- Hleaves in Hin. apply leaf_has_entry in Hin.
    destruct Hin as [code Hcode]. unfold code_of. rewrite Hcode. cbn.
    now apply table_entry_leaf_path.
  - intros fuel bits padding decoded bits' Hpad. unfold decompress.
    rewrite Hb. cbn [bind]. unfold erase_padding.
    destruct (Z.of_nat (length bits) <? padding) eqn:E; cbn [bind];
      [discriminate|].
    apply Z.ltb_ge in E.
    destruct (decompress_loop _ _ _ _ _) as [d| | |]; cbn [bind];
      try discriminate.
    intros [= <- <-].
    exists (drop (length bits - Z.to_nat padding) bits). split.
    + now rewrite take_drop.
    + rewrite length_drop. lia.
Qed.

(** The table of [AAAABBBB]; the call on the padded bits of [AAAABBBB]. *)
Lemma decompress_erases_padding_witness :
  [("A"%byte, 4); ("B"%byte, 4)] <> []
  /\ exists decoded,
       decompress 8 bits_AAAABBBB_padded 8 [("A"%byte, 4); ("B"%byte, 4)]
       = Returns (decoded, take 8 bits_AAAABBBB_padded).
Proof.
  assert (H : [("A"%byte, 4); ("B"%byte, 4)] <> []) by discriminate.
  split; [exact H|].
  destruct (decompress_erases_padding [("A"%byte, 4); ("B"%byte, 4)] H)
    as (root & Hb & Hreturns & _).
  vm_compute in Hb. injection Hb as <-.
  apply (Hreturns AAAABBBB (repeat PADDING_BIT 8)).
  - intros b Hin. vm_compute in Hin |- *. tauto.
  - vm_compute. discriminate.
Defined.

(** Claim C10 as stated fails: not every call erases the last [padding]
    characters.  With 9 as the padding and a string of 8 characters the
    call ends in [std::out_of_range], thrown by [erase]; the string has no
    9 characters to lose. *)
Lemma decompress_call_without_erasure :
  decompress 8 (bytes_to_bit_string [x0f]) 9 [("A"%byte, 4); ("B"%byte, 4)]
  = Throws out_of_range
  /\ erase_padding (bytes_to_bit_string [x0f]) 9 = Throws out_of_range
  /\ ~ exists bits' erased : std_string,
         bytes_to_bit_string [x0f] = bits' ++ erased
         /\ Z.of_nat (length erased) = 9.
Proof.
  split; [reflexivity|]. split; [reflexivity|].
  intros (bits' & erased & Hbits & Hlen).
  apply (f_equal (@length ascii)) in Hbits. rewrite length_app in Hbits.
  change (length (bytes_to_bit_string [x0f])) with 8%nat in Hbits. lia.
Qed.

(** ** When the round trip is exact *)

Lemma decoded_prefix_last table (data : list Byte) (x : Byte) :
  (forall b, In b (data ++ [x]) -> (1 <= length (code_of table b))%nat) ->
  decoded_prefix table (data ++ [x])
  = if (2 <=? length (code_of table x))%nat then data ++ [x] else data.
Proof.
  intros Hcodes. induction data as [|b data IH].
  - cbn [app decoded_prefix]. rewrite total_code_length_cons.
    change (total_code_length table []) with 0. rewrite Z.add_0_r.
    destruct (2 <=? length (code_of table x))%nat eqn:E.
    + apply Nat.leb_le in E.
      replace (_ <=? _) with true by (symmetry; apply Z.leb_le; lia).
      reflexivity.
    + apply Nat.leb_gt in E.
      replace (_ <=? _) with false by (symmetry; apply Z.leb_gt; lia).
      reflexivity.
  - rewrite <- app_comm_cons. cbn [decoded_prefix].
    rewrite total_code_length_cons.
    assert (Hb : (1 <= length (code_of table b))%nat)
      by (apply Hcodes; now left).
    assert (Hrest : 1 <= total_code_length table (data ++ [x])).
    { destruct data as [|b' data].
      - cbn [app]. rewrite total_code_length_cons.
        change (total_code_length table []) with 0.
        assert (1 <= length (code_of table x))%nat
          by (apply Hcodes; right; now left).
        lia.
      - rewrite <- app_comm_cons, total_code_length_cons.
        assert (1 <= length (code_of table b'))%nat
          by (apply Hcodes; right; now left).
        pose proof (total_code_length_nonneg table (data ++ [x])) as Hnn.
        lia. }
    replace (_ <=? _) with true by (symmetry; apply Z.leb_le; lia).
    rewrite IH by (intros b' Hb'; apply Hcodes; now right).
    now destruct (2 <=? length (code_of table x))%nat.
Qed.

Lemma decoded_prefix_empty_codes table (data : list Byte) :
  (forall b, In b data -> code_of table b = []) ->
  decoded_prefix table data = [].
Proof.
  intros Hcodes. destruct data as [|b data]; [reflexivity|].
  cbn [decoded_prefix].
  assert (Hz : total_code_length table (b :: data) = 0).
  { clear -Hcodes. induction (b :: data) as [|x l IH]; [reflexivity|].
    rewrite total_code_length_cons, IH by (intros y Hy; apply Hcodes; now right).
    rewrite (Hcodes x) by now left. reflexivity. }
  now rewrite Hz.
Qed.

Lemma build_huffman_tree_single (k : Byte) (n : Z) :
  build_huffman_tree [(k, n)] = Returns (new_leaf k n).
Proof. reflexivity. Qed.

(** The bytes that come back from the bits that [compress] produces: none
    when the input has a single distinct byte (all codes are empty), all
    but the last one when the code of the last byte is one bit long, and
    the whole input otherwise. *)
Theorem decompress_compress_characterisation (init : list Byte) (x : Byte)
    (fuel : nat) :
  (length (init ++ [x]) <= fuel)%nat ->
  exists st,
    compress_prepare (init ++ [x]) = Returns st
    /\ (Z.of_nat (length (encoded st)) <= INT_MAX ->
        decompress fuel (pad_data (encoded st) (padding st)) (padding st)
          (frequencies st)
        = Returns
            (if (length (frequencies st) <? 2)%nat then []
             else if (2 <=? length (code_of (substitution_table st) x))%nat
                  then init ++ [x] else init,
             encoded st)).
Proof.
  intros Hfuel.
  assert (Hne : init ++ [x] <> []) by (destruct init; discriminate).
  destruct (decompress_compress_prepare (init ++ [x]) fuel Hne Hfuel)
    as (st & Hst & Hdec).
  exists st. split; [exact Hst|]. intros Hmax. rewrite (Hdec Hmax).
  f_equal. f_equal.
  destruct (compress_prepare_spec (init ++ [x]) Hne)
    as (root & Hb & Hfull & Hleaves & Hst').
  cbn zeta in Hst'. rewrite Hst' in Hst. injection Hst as <-.
  cbn [substitution_table frequencies].
  pose proof (count_frequencies_nonempty (init ++ [x]) Hne) as Hfne.
  assert (Hentry : forall b, In b (init ++ [x]) ->
            In (b, code_of (create_substitution_table root [] []) b)
               (leaf_paths root)).
  { intros b Hin. apply count_frequencies_keys in Hin.
    rewrite <- Hleaves in Hin. apply leaf_has_entry in Hin.
    destruct Hin as [code Hcode]. unfold code_of. rewrite Hcode. cbn.
    now apply table_entry_leaf_path. }
  destruct (length (count_frequencies (init ++ [x])) <? 2)%nat eqn:E.
  - apply Nat.ltb_lt in E.
    destruct (count_frequencies (init ++ [x])) as [|[k n] [|e m]] eqn:Ef;
      [congruence| |simpl in E; lia].
    rewrite build_huffman_tree_single in Hb. injection Hb as <-.
    apply decoded_prefix_empty_codes. intros b Hin.
    specialize (Hentry b Hin). destruct Hentry as [Heq|[]].
    injection Heq as _ Hc. symmetry. exact Hc.
  - apply Nat.ltb_ge in E.
    destruct (build_huffman_tree_spec (count_frequencies (init ++ [x])) Hfne)
      as (root' & Hb' & _ & _ & Hleaf).
    rewrite Hb in Hb'. injection Hb' as <-.
    apply decoded_prefix_last. intros b Hin.
    specialize (Hentry b Hin).
    pose proof (leaf_paths_nonempty root b _ (Hleaf E) Hentry) as Hnil.
    destruct (code_of (create_substitution_table root [] []) b);
      [congruence|simpl; lia].
Qed.

Lemma decompress_compress_characterisation_witness :
  exists st,
    compress_prepare (["A"; "A"; "A"; "A"; "B"; "B"; "B"]%byte ++ ["B"%byte])
    = Returns st
    /\ (Z.of_nat (length (encoded st)) <= INT_MAX ->
        decompress 8 (pad_data (encoded st) (padding st)) (padding st)
          (frequencies st)
        = Returns
            (if (length (frequencies st) <? 2)%nat then []
             else if (2 <=? length (code_of (substitution_table st) "B"%byte))%nat
                  then ["A"; "A"; "A"; "A"; "B"; "B"; "B"]%byte ++ ["B"%byte]
                  else ["A"; "A"; "A"; "A"; "B"; "B"; "B"]%byte,
             encoded st)).
Proof.
  apply (decompress_compress_characterisation
           ["A"; "A"; "A"; "A"; "B"; "B"; "B"]%byte "B"%byte 8).
  simpl. lia.
Defined.

(** * Writing and reading the container *)

(** ** Integers *)

Lemma le_value_le_bytes_4 (z : Z) :
  0 <= z < UINT32_MOD -> le_value (le_bytes 4 z) = z.
Proof.
  unfold UINT32_MOD. intros Hz. unfold le_bytes, le_value.
  cbn [seq map fold_right].
  rewrite !byte.unsigned_of_Z. unfold byte.wrap.
  rewrite !Z.shiftr_div_pow2 by lia.
  change (8 * Z.of_nat 0) with 0. change (8 * Z.of_nat 1) with 8.
  change (8 * Z.of_nat 2) with 16. change (8 * Z.of_nat 3) with 24.
  change (2 ^ 0) with 1. change (2 ^ 8) with 256.
  change (2 ^ 16) with 65536. change (2 ^ 24) with 16777216.
  change (2 ^ 32) with 4294967296 in Hz.
  Z.div_mod_to_equations. lia.
Qed.

Lemma object_value_object_bytes (p : platform) (z : Z) :
  0 <= z < UINT32_MOD -> object_value p (object_bytes p 4 z) = z.
Proof.
  intros Hz. unfold object_value, object_bytes.
  destruct (big_endian p); rewrite ?rev_involutive;
    now apply le_value_le_bytes_4.
Qed.

(** ** Streams *)

Lemma stream_read_app (bytes rest : list Byte) :
  stream_read {| unread := bytes ++ rest; good := true |} (length bytes)
  = (bytes, {| unread := rest; good := true |}).
Proof.
  unfold stream_read. cbn [good unread].
  replace (length bytes <=? length (bytes ++ rest))%nat with true
    by (symmetry; apply Nat.leb_le; rewrite length_app; lia).
  now rewrite take_app_length, drop_app_length.
Qed.

Lemma read_uint32_app (p : platform) (z : Z) (rest : list Byte) :
  0 <= z < UINT32_MOD ->
  read_uint32 p {| unread := object_bytes p 4 z ++ rest; good := true |}
  = (Some z, {| unread := rest; good := true |}).
Proof.
  intros Hz. unfold read_uint32, sizeof_uint32_t.
  pose proof (stream_read_app (object_bytes p 4 z) rest) as Hr.
  rewrite length_object_bytes in Hr. rewrite Hr.
  rewrite length_object_bytes. cbn [Nat.eqb].
  now rewrite object_value_object_bytes.
Qed.

Lemma read_Byte_cons (b : Byte) (rest : list Byte) :
  read_Byte {| unread := b :: rest; good := true |}
  = (Some b, {| unread := rest; good := true |}).
Proof. reflexivity. Qed.

(** ** The frequency table *)

Lemma put_append {V} (k : Byte) (v : V) (m : StdMap.t V) :
  Forall (fun e => StdMap.key_lt (fst e) k = true) m ->
  StdMap.put k v m = m ++ [(k, v)].
Proof.
  induction 1 as [|[k' v'] m Hk _ IH]; [reflexivity|].
  cbn [StdMap.put app]. simpl in Hk.
  assert (E : Byte.eqb k k' = false).
  { apply Byte_eqb_neq. intros ->.
    now rewrite StdMapFacts.key_lt_irrefl in Hk. }
  assert (L : StdMap.key_lt k k' = false).
  { unfold StdMap.key_lt in *. apply Z.ltb_lt in Hk. apply Z.ltb_ge. lia. }
  now rewrite E, L, IH.
Qed.

Lemma sorted_app_before {V} (acc : StdMap.t V) (k : Byte) (v : V)
    (m : StdMap.t V) :
  StdMap.sorted (acc ++ (k, v) :: m) ->
  Forall (fun e => StdMap.key_lt (fst e) k = true) acc.
Proof.
  induction acc as [|[k' v'] acc IH]; [constructor|].
  cbn [app StdMap.sorted]. intros [Hall Hs]. constructor.
  - rewrite List.Forall_forall in Hall. apply (Hall (k, v)).
    apply in_or_app. right. now left.
  - now apply IH.
Qed.

(** Reading back a table written in key order rebuilds the same table. *)
Lemma fold_put_sorted (m acc : StdMap.t Z) :
  StdMap.sorted (acc ++ m) ->
  fold_left (fun t e => StdMap.put (fst e) (snd e) t) m acc = acc ++ m.
Proof.
  revert acc. induction m as [|[k v] m IH]; intros acc Hs.
  - now rewrite app_nil_r.
  - cbn [fold_left fst snd].
    rewrite put_append by (eapply sorted_app_before, Hs).
    rewrite IH; rewrite <- app_assoc; [reflexivity|exact Hs].
Qed.

Lemma table_bytes_cons (p : platform) (k : Byte) (v : Z) (m : StdMap.t Z) :
  table_bytes p ((k, v) :: m)
  = k :: object_bytes p 4 v ++ table_bytes p m.
Proof. reflexivity. Qed.

Lemma read_table_loop_table_bytes (p : platform) (m : StdMap.t Z) :
  forall (acc : StdMap.t Z) (rest : list Byte) (i : Z) (fuel : nat),
    Forall (fun e => 0 <= snd e < UINT32_MOD) m ->
    (length m <= fuel)%nat ->
    0 <= i -> i + Z.of_nat (length m) <= INT_MAX ->
    read_table_loop fuel p
      {| unread := table_bytes p m ++ rest; good := true |}
      i (i + Z.of_nat (length m)) acc
    = Returns (fold_left (fun t e => StdMap.put (fst e) (snd e) t) m acc,
               {| unread := rest; good := true |}).
Proof.
  induction m as [|[k v] m IH]; intros acc rest i fuel Hrange Hfuel Hi Hmax.
  - cbn [length Z.of_nat table_bytes flat_map app fold_left].
    rewrite Z.add_0_r.
    destruct fuel; cbn [read_table_loop]; now rewrite Z.ltb_irrefl.
  - destruct fuel as [|fuel]; [simpl in Hfuel; lia|].
    cbn [read_table_loop].
    replace (i <? i + Z.of_nat (length ((k, v) :: m))) with true
      by (symmetry; apply Z.ltb_lt; cbn [length]; lia).
    rewrite table_bytes_cons, <- !app_comm_cons, read_Byte_cons, <- app_assoc.
    inversion Hrange as [|? ? Hv Hrange']; subst. cbn [snd] in Hv.
    unfold sizeof_uint32_t.
    rewrite read_uint32_app by exact Hv.
    cbn [use bind].
    replace (i =? INT_MAX) with false
      by (symmetry; apply Z.eqb_neq; cbn [length] in Hmax; lia).
    replace (i + Z.of_nat (length ((k, v) :: m)))
      with (i + 1 + Z.of_nat (length m)) by (cbn [length]; lia).
    apply IH; [exact Hrange'|simpl in Hfuel; lia|lia|cbn [length] in Hmax; lia].
Qed.

(** ** The packed data *)

Lemma bytes_to_bit_string_fold (bytes : list Byte) (acc : std_string) :
  fold_left (fun bits byte => bits ++ byte_to_bit_string byte) bytes acc
  = acc ++ flat_map byte_to_bit_string bytes.
Proof.
  revert acc. induction bytes as [|b bytes IH]; intros acc; cbn [fold_left flat_map].
  - now rewrite app_nil_r.
  - now rewrite IH, <- app_assoc.
Qed.

Lemma bytes_to_bit_string_cons (b : Byte) (bytes : list Byte) :
  bytes_to_bit_string (b :: bytes)
  = byte_to_bit_string b ++ bytes_to_bit_string bytes.
Proof.
  unfold bytes_to_bit_string. cbn [fold_left].
  now rewrite !bytes_to_bit_string_fold.
Qed.

Lemma is_bit_bit_char (c : ascii) : is_bit c -> exists b, c = bit_char b.
Proof. intros [-> | ->]; [now exists false|now exists true]. Qed.

Lemma chunk_round_trip_bool (b7 b6 b5 b4 b3 b2 b1 b0 : bool) :
  match bitset_value (map bit_char [b7; b6; b5; b4; b3; b2; b1; b0]) 0 with
  | Returns v =>
      byte_to_bit_string (byte.of_Z (Z.land v 255))
      = map bit_char [b7; b6; b5; b4; b3; b2; b1; b0]
  | _ => False
  end.
Proof.
  destruct b7, b6, b5, b4, b3, b2, b1, b0; vm_compute; reflexivity.
Qed.

(** Eight characters ['0']/['1'] pack into the byte that unpacks to them. *)
Lemma chunk_round_trip (c7 c6 c5 c4 c3 c2 c1 c0 : ascii) :
  is_bit c7 -> is_bit c6 -> is_bit c5 -> is_bit c4 ->
  is_bit c3 -> is_bit c2 -> is_bit c1 -> is_bit c0 ->
  exists v,
    bitset_value [c7; c6; c5; c4; c3; c2; c1; c0] 0 = Returns v
    /\ byte_to_bit_string (byte.of_Z (Z.land v 255))
       = [c7; c6; c5; c4; c3; c2; c1; c0].
Proof.
  intros H7 H6 H5 H4 H3 H2 H1 H0.
  apply is_bit_bit_char in H7, H6, H5, H4, H3, H2, H1, H0.
  destruct H7 as [b7 ->], H6 as [b6 ->], H5 as [b5 ->], H4 as [b4 ->],
    H3 as [b3 ->], H2 as [b2 ->], H1 as [b1 ->], H0 as [b0 ->].
  pose proof (chunk_round_trip_bool b7 b6 b5 b4 b3 b2 b1 b0) as Hc.
  cbn [map] in Hc.
  destruct (bitset_value _ 0) as [v| | |]; try contradiction.
  now exists v.
Qed.

Lemma write_data_loop_spec (k : nat) :
  forall (pre bits : std_string) (fuel : nat),
    length bits = (8 * k)%nat ->
    Forall is_bit bits ->
    Z.of_nat (length pre + length bits) <= INT_MAX ->
    (k <= fuel)%nat ->
    exists packed,
      write_data_loop fuel (pre ++ bits) (Z.of_nat (length pre))
      = Returns packed
      /\ bytes_to_bit_string packed = bits
      /\ length packed = k.
Proof.
  induction k as [|k IH]; intros pre bits fuel Hlen Hbits Hmax Hfuel.
  - destruct bits; [|discriminate Hlen]. exists []. rewrite app_nil_r.
    split; [|split; reflexivity].
    destruct fuel; cbn [write_data_loop]; now rewrite Z.ltb_irrefl.
  - destruct fuel as [|fuel]; [lia|].
    destruct bits as [|c7 [|c6 [|c5 [|c4 [|c3 [|c2 [|c1 [|c0 bits]]]]]]]];
      try (simpl in Hlen; lia).
    repeat match goal with
           | H : Forall is_bit (_ :: _) |- _ =>
               let Hc := fresh "Hc" in
               apply Forall_cons_1 in H; destruct H as [Hc H]
           end.
    destruct (chunk_round_trip c7 c6 c5 c4 c3 c2 c1 c0) as (v & Hv & Hb);
      try assumption.
    destruct (IH (pre ++ [c7; c6; c5; c4; c3; c2; c1; c0]) bits fuel)
      as (packed & Hw & Hp & Hl).
    + simpl in Hlen. lia.
    + assumption.
    + rewrite length_app. cbn [length] in Hmax |- *. lia.
    + lia.
    + exists (byte.of_Z (Z.land v 255) :: packed).
      split; [|split].
      * cbn [write_data_loop].
        replace (_ <? _) with true
          by (symmetry; apply Z.ltb_lt; rewrite length_app; cbn [length]; lia).
        unfold bitset_at. rewrite Nat2Z.id, drop_app_length.
        cbn [take]. rewrite take_0, Hv. cbn [bind].
        replace (INT_MAX <? _) with false
          by (symmetry; apply Z.ltb_ge; unfold CHAR_BIT;
              cbn [length] in Hmax; lia).
        replace (Z.of_nat (length pre) + CHAR_BIT)
          with (Z.of_nat (length (pre ++ [c7; c6; c5; c4; c3; c2; c1; c0])))
          by (rewrite length_app; cbn [length]; unfold CHAR_BIT; lia).
        replace (pre ++ c7 :: c6 :: c5 :: c4 :: c3 :: c2 :: c1 :: c0 :: bits)
          with ((pre ++ [c7; c6; c5; c4; c3; c2; c1; c0]) ++ bits)
          by (now rewrite <- app_assoc).
        now rewrite Hw.
      * now rewrite bytes_to_bit_string_cons, Hb, Hp.
      * cbn [length]. now rewrite Hl.
Qed.

(** * The round trip through the file *)

Lemma code_of_bits root (b : Byte) :
  Forall is_bit (code_of (create_substitution_table root [] []) b).
Proof.
  unfold code_of.
  destruct (StdMap.find b (create_substitution_table root [] [])) as [c|] eqn:E.
  - apply table_entry_leaf_path in E. eapply leaf_paths_bits, E.
  - constructor.
Qed.

Lemma encoded_bits root (data : list Byte) :
  Forall is_bit (flat_map (code_of (create_substitution_table root [] [])) data).
Proof.
  induction data as [|b data IH]; [constructor|].
  cbn [flat_map]. apply Forall_app. split; [apply code_of_bits|exact IH].
Qed.

Lemma pad_data_bits (s : std_string) (n : Z) :
  Forall is_bit s -> Forall is_bit (pad_data s n).
Proof.
  intros Hs. unfold pad_data. apply Forall_app. split; [exact Hs|].
  apply List.Forall_forall. intros c Hc. apply repeat_spec in Hc. now left.
Qed.

(** The padded string of [compress] is a whole number of bytes. *)
Lemma padded_length (data : list Byte) (table : StdMap.t std_string) :
  StdMap.sorted table ->
  let encoded := flat_map (code_of table) data in
  let size := to_uint32 (weighted_length (count_of (count_frequencies data))
                           table) in
  let padding := CHAR_BIT - size mod CHAR_BIT in
  1 <= padding <= 8
  /\ exists k : nat,
       length (pad_data encoded padding) = (8 * k)%nat
       /\ data_size_of (pad_data encoded padding) = Z.of_nat k
       /\ (1 <= k)%nat.
Proof.
  intros Hs. cbn zeta. unfold CHAR_BIT.
  rewrite (encoded_size_mod8 data table Hs).
  set (len := length (flat_map (code_of table) data)).
  assert (Hr : 0 <= Z.of_nat len mod 8 < 8) by (apply Z.mod_pos_bound; lia).
  split; [lia|].
  exists (Z.to_nat (Z.of_nat len / 8 + 1)).
  assert (Hlen : Z.of_nat len + (8 - Z.of_nat len mod 8)
                 = 8 * (Z.of_nat len / 8 + 1)).
  { pose proof (Z.div_mod (Z.of_nat len) 8). lia. }
  assert (Hq : 0 <= Z.of_nat len / 8) by (apply Z.div_pos; lia).
  pose proof (length_pad_data (flat_map (code_of table) data)
                (8 - Z.of_nat len mod 8) ltac:(lia)) as Hpad.
  fold len in Hpad. rewrite Hlen in Hpad.
  split; [lia|]. split; [|lia].
  unfold data_size_of, CHAR_BIT. rewrite Hpad.
  rewrite (Z.mul_comm 8), Z.div_mul by lia. lia.
Qed.

(** [compress] returns for every non-empty input that is short enough for
    the [int] counter of the writing loop: the file is the header, the
    table and the packed data. *)
Lemma compress_returns (p : platform) (data : list Byte) :
  data <> [] ->
  exists st,
    compress_prepare data = Returns st
    /\ (Z.of_nat (length (encoded st)) + 8 <= INT_MAX ->
        exists packed,
          compress p data
          = Returns
              (header_bytes p (original_file_size st)
                 (pad_data (encoded st) (padding st)) (padding st)
                 (frequencies st)
               ++ table_bytes p (frequencies st) ++ packed,
               to_uint32 (data_size_of (pad_data (encoded st) (padding st))))
          /\ bytes_to_bit_string packed = pad_data (encoded st) (padding st)
          /\ Z.of_nat (length packed)
             = data_size_of (pad_data (encoded st) (padding st))
          /\ (1 <= length packed)%nat).
Proof.
  intros Hne.
  destruct (compress_prepare_spec data Hne) as (root & _ & _ & _ & Hst).
  cbn zeta in Hst. eexists. split; [exact Hst|]. intros Hmax.
  cbn [padding encoded frequencies original_file_size] in *.
  destruct (padded_length data (create_substitution_table root [] [])
              (create_substitution_table_sorted root))
    as (Hpad & k & Hk & Hds & Hk1).
  cbn zeta in Hpad, Hk, Hds.
  set (pad := CHAR_BIT - _ mod CHAR_BIT) in *.
  set (enc := flat_map _ data) in *.
  destruct (write_data_loop_spec k [] (pad_data enc pad)
              (length (pad_data enc pad)))
    as (packed & Hw & Hp & Hl).
  - exact Hk.
  - apply pad_data_bits, encoded_bits.
  - cbn [length Nat.add]. rewrite length_pad_data by lia. lia.
  - lia.
  - exists packed. split; [|split; [exact Hp|split; [lia|lia]]].
    unfold compress. rewrite Hst. cbn [bind].
    cbn [padding encoded frequencies original_file_size].
    unfold write_compressed_file.
    change (Z.of_nat (length (@nil ascii))) with 0 in Hw.
    cbn [app] in Hw. fold pad enc. rewrite Hw.
    cbn [bind]. reflexivity.
Qed.

Lemma length_put {V} (k : Byte) (v : V) (m : StdMap.t V) :
  StdMap.sorted m ->
  length (StdMap.put k v m)
  = match StdMap.find k m with
    | Some _ => length m
    | None => S (length m)
    end.
Proof.
  induction m as [|[k' v'] m IH]; cbn [StdMap.put StdMap.find length].
  - reflexivity.
  - intros [Hall Hs]. destruct (Byte.eqb k k'); cbn [length]; [reflexivity|].
    destruct (StdMap.key_lt k k') eqn:L; cbn [length].
    + rewrite StdMapFacts.sorted_find_None; [reflexivity|].
      rewrite List.Forall_forall in Hall |- *. intros e He.
      eapply StdMapFacts.key_lt_trans; [exact L|now apply Hall].
    + rewrite IH by exact Hs. now destruct (StdMap.find k m).
Qed.

Lemma length_count_step (m : StdMap.t Z) (b : Byte) :
  StdMap.sorted m -> (length (count_step m b) <= S (length m))%nat.
Proof.
  intros Hs. unfold count_step, StdMap.subscript.
  destruct (StdMap.find b m) eqn:E.
  - rewrite length_put, E by exact Hs. lia.
  - rewrite length_put by now apply StdMapFacts.sorted_put.
    rewrite StdMapFacts.find_put_eq, length_put, E by exact Hs. lia.
Qed.

Lemma length_count_frequencies (data : list Byte) :
  (length (count_frequencies data) <= length data)%nat.
Proof.
  rewrite count_frequencies_fold.
  assert (Hgen : forall m : StdMap.t Z,
            StdMap.sorted m ->
            (length (fold_left count_step data m)
             <= length m + length data)%nat).
  { induction data as [|b data IH]; intros m Hs; cbn [fold_left length]; [lia|].
    specialize (IH (count_step m b) (count_step_sorted m b Hs)).
    pose proof (length_count_step m b Hs). lia. }
  apply (Hgen []). exact I.
Qed.

Lemma count_frequencies_range (data : list Byte) :
  Forall (fun e => 0 <= snd e < UINT32_MOD) (count_frequencies data).
Proof.
  apply List.Forall_forall. intros [k v] Hin. cbn [snd].
  apply (StdMapFacts.sorted_In_find k v) in Hin;
    [|apply count_frequencies_sorted].
  rewrite count_frequencies_find in Hin.
  destruct (occurrences k data =? 0); [discriminate|].
  injection Hin as <-. apply to_uint32_range.
Qed.

(** [read_compressed_file] reads back what [write_compressed_file] wrote,
    where [std::size_t] is as wide as [uint32_t]. *)
Lemma read_compressed_file_written (p : platform) (original padding : Z)
    (compressed_data : std_string) (frequencies : StdMap.t Z)
    (packed : list Byte) :
  sizeof_size_t p = 4%nat ->
  0 <= original < UINT32_MOD ->
  0 <= padding < UINT32_MOD ->
  data_size_of compressed_data = Z.of_nat (length packed) ->
  (1 <= length packed)%nat ->
  Z.of_nat (length packed) <= INT_MAX ->
  Z.of_nat (length frequencies) <= INT_MAX ->
  StdMap.sorted frequencies ->
  Forall (fun e => 0 <= snd e < UINT32_MOD) frequencies ->
  read_compressed_file p
    (header_bytes p original compressed_data padding frequencies
     ++ table_bytes p frequencies ++ packed)
  = Returns (padding, packed, frequencies).
Proof.
  intros Hp Horig Hpad Hds Hp1 Hpmax Hfmax Hsorted Hrange.
  unfold read_compressed_file, header_bytes, open_file, sizeof_uint32_t.
  rewrite Hp, Hds, <- !app_assoc.
  assert (Hu : UINT32_MOD = 4294967296) by reflexivity.
  assert (Hi : INT_MAX = 2147483647) by reflexivity.
  rewrite !read_uint32_app by lia.
  cbn [use bind].
  pose proof (read_table_loop_table_bytes p frequencies [] packed 0
                (S (length (table_bytes p frequencies ++ packed)))
                Hrange) as Hloop.
  rewrite Z.add_0_l in Hloop. cbn [unread].
  rewrite Hloop; [|rewrite length_app, length_table_bytes; lia|lia|lia].
  cbn [bind]. rewrite fold_put_sorted by exact Hsorted. cbn [app].
  unfold static_cast_int. rewrite Hu.
  rewrite Z.mod_small by lia.
  replace (Z.of_nat (length packed) + 2 ^ 31 - 2 ^ 31)
    with (Z.of_nat (length packed)) by lia.
  replace (0 <? Z.of_nat (length packed)) with true
    by (symmetry; apply Z.ltb_lt; lia).
  rewrite !Nat2Z.id.
  pose proof (stream_read_app packed []) as Hr.
  rewrite app_nil_r in Hr. rewrite Hr.
  rewrite drop_ge by (rewrite repeat_length; lia).
  now rewrite app_nil_r.
Qed.

(** The round trip through the file, where [std::size_t] is as wide as
    [uint32_t]: the bytes that come back are those that [decompress] gives
    for the bits of [compress]. *)
Theorem round_trip_characterisation (p : platform) (init : list Byte)
    (x : Byte) (fuel : nat) :
  sizeof_size_t p = 4%nat ->
  (length (init ++ [x]) <= fuel)%nat ->
  Z.of_nat (length (init ++ [x])) <= INT_MAX ->
  exists st,
    compress_prepare (init ++ [x]) = Returns st
    /\ (Z.of_nat (length (encoded st)) + 8 <= INT_MAX ->
        round_trip p fuel (init ++ [x])
        = Returns
            (if (length (frequencies st) <? 2)%nat then []
             else if (2 <=? length (code_of (substitution_table st) x))%nat
                  then init ++ [x] else init)).
Proof.
  intros Hp Hfuel Hdmax.
  assert (Hne : init ++ [x] <> []) by (destruct init; discriminate).
  destruct (decompress_compress_characterisation init x fuel Hfuel)
    as (st & Hst & Hdec).
  exists st. split; [exact Hst|]. intros Hmax.
  destruct (compress_returns p (init ++ [x]) Hne) as (st' & Hst' & Hcomp).
  rewrite Hst in Hst'. injection Hst' as <-.
  destruct (Hcomp Hmax) as (packed & Hfile & Hbits & Hlen & Hp1).
  destruct (compress_prepare_spec (init ++ [x]) Hne)
    as (root & _ & _ & _ & Hspec).
  cbn zeta in Hspec. rewrite Hspec in Hst. injection Hst as Est.
  destruct (padded_length (init ++ [x]) (create_substitution_table root [] [])
              (create_substitution_table_sorted root))
    as (Hpad & k & Hk & Hds & Hk1).
  cbn zeta in Hpad, Hk, Hds.
  assert (Hu : UINT32_MOD = 4294967296) by reflexivity.
  assert (Hi : INT_MAX = 2147483647) by reflexivity.
  unfold round_trip. rewrite Hfile. cbn [bind fst].
  unfold decompress_to_file.
  rewrite read_compressed_file_written.
  - cbn [bind]. rewrite Hbits, Hdec by lia. reflexivity.
  - exact Hp.
  - rewrite <- Est. cbn [original_file_size]. apply to_uint32_range.
  - rewrite <- Est. cbn [padding]. lia.
  - now rewrite Hlen.
  - exact Hp1.
  - rewrite Hlen. rewrite <- Est in Hmax |- *. cbn [padding encoded] in *.
    rewrite Hds.
    assert (Z.of_nat (8 * k) <= INT_MAX); [|lia].
    rewrite <- Hk, length_pad_data by lia. lia.
  - rewrite <- Est. cbn [frequencies].
    pose proof (length_count_frequencies (init ++ [x])). lia.
  - rewrite <- Est. cbn [frequencies]. apply count_frequencies_sorted.
  - rewrite <- Est. cbn [frequencies]. apply count_frequencies_range.
Qed.

Lemma round_trip_characterisation_witness :
  exists st,
    compress_prepare (["A"; "B"; "C"]%byte ++ ["A"%byte]) = Returns st
    /\ (Z.of_nat (length (encoded st)) + 8 <= INT_MAX ->
        round_trip ILP32 4 (["A"; "B"; "C"]%byte ++ ["A"%byte])
        = Returns
            (if (length (frequencies st) <? 2)%nat then []
             else if (2 <=? length (code_of (substitution_table st) "A"%byte))%nat
                  then ["A"; "B"; "C"]%byte ++ ["A"%byte]
                  else ["A"; "B"; "C"]%byte)).
Proof.
  apply (round_trip_characterisation ILP32 ["A"; "B"; "C"]%byte "A"%byte 4).
  - reflexivity.
  - simpl. lia.
  - vm_compute. discriminate.
Defined.

(** The size of the file that [compress] writes: a header of
    [8 + 2 * sizeof(std::size_t)] bytes, five bytes for each entry of the
    table, and the packed data. *)
Lemma container_layout (p : platform) (data : list Byte) :
  data <> [] ->
  exists st,
    compress_prepare data = Returns st
    /\ (Z.of_nat (length (encoded st)) + 8 <= INT_MAX ->
        exists file result,
          compress p data = Returns (file, result)
          /\ Z.of_nat (length file)
             = 8 + 2 * Z.of_nat (sizeof_size_t p)
               + 5 * Z.of_nat (length (frequencies st))
               + data_size_of (pad_data (encoded st) (padding st))).
Proof.
  intros Hne. destruct (compress_returns p data Hne) as (st & Hst & Hcomp).
  exists st. split; [exact Hst|]. intros Hmax.
  destruct (Hcomp Hmax) as (packed & Hfile & _ & Hlen & _).
  eexists. eexists. split; [exact Hfile|].
  rewrite !length_app, length_header_bytes, length_table_bytes. lia.
Qed.

(** * The fuel of the loops *)

(** ** The heap algorithms: their fuel always suffices *)

Section HeapFuel.
Context {A : Type} `{Inhabited A} (comp : A -> A -> bool).

Local Open Scope nat_scope.

Lemma push_heap_loop_fuel fuel (v : list A) (h t : nat) (x : A) :
  h <= fuel ->
  push_heap_loop comp (S fuel) v h t x = push_heap_loop comp fuel v h t x.
Proof.
  revert v h. induction fuel as [|fuel IH]; intros v h Hh.
  - assert (h = 0) as -> by lia. cbn [push_heap_loop].
    replace (t <? 0) with false by (symmetry; apply Nat.ltb_ge; lia).
    reflexivity.
  - change (push_heap_loop comp (S (S fuel)) v h t x)
      with (if (t <? h) && comp (v !!! ((h - 1) / 2)) x
            then push_heap_loop comp (S fuel) (<[h := v !!! ((h - 1) / 2)]> v)
                   ((h - 1) / 2) t x
            else <[h := x]> v).
    change (push_heap_loop comp (S fuel) v h t x)
      with (if (t <? h) && comp (v !!! ((h - 1) / 2)) x
            then push_heap_loop comp fuel (<[h := v !!! ((h - 1) / 2)]> v)
                   ((h - 1) / 2) t x
            else <[h := x]> v).
    destruct ((t <? h) && comp (v !!! ((h - 1) / 2)) x) eqn:E;
      [|reflexivity].
    apply andb_true_iff in E. destruct E as [E _]. apply Nat.ltb_lt in E.
    apply IH. pose proof (parent_lt h ltac:(lia)). lia.
Qed.

Lemma adjust_heap_loop_fuel fuel (v : list A) (h len : nat) :
  len <= fuel + 2 * h ->
  adjust_heap_loop comp (S fuel) v h h len
  = adjust_heap_loop comp fuel v h h len.
Proof.
  revert v h. induction fuel as [|fuel IH]; intros v h Hf.
  - cbn [adjust_heap_loop].
    replace (h <? (len - 1) / 2) with false; [reflexivity|].
    symmetry. apply Nat.ltb_ge.
    apply Nat.Div0.div_le_upper_bound. lia.
  - change (adjust_heap_loop comp (S (S fuel)) v h h len)
      with (if h <? (len - 1) / 2 then
              let c := if comp (v !!! (2 * (h + 1)))
                            (v !!! (2 * (h + 1) - 1))
                       then 2 * (h + 1) - 1 else 2 * (h + 1) in
              adjust_heap_loop comp (S fuel) (<[h := v !!! c]> v) c c len
            else (v, h, h)).
    change (adjust_heap_loop comp (S fuel) v h h len)
      with (if h <? (len - 1) / 2 then
              let c := if comp (v !!! (2 * (h + 1)))
                            (v !!! (2 * (h + 1) - 1))
                       then 2 * (h + 1) - 1 else 2 * (h + 1) in
              adjust_heap_loop comp fuel (<[h := v !!! c]> v) c c len
            else (v, h, h)).
    destruct (h <? (len - 1) / 2); [|reflexivity].
    cbn zeta. apply IH.
    destruct (comp _ _); lia.
Qed.
End HeapFuel.

(** ** Writing and reading never run out of fuel *)

Lemma bitset_value_fuel (chars : std_string) (acc : Z) :
  bitset_value chars acc <> OutOfFuel.
Proof.
  revert acc. induction chars as [|c chars IH]; intros acc;
    cbn [bitset_value]; [discriminate|].
  destruct (Ascii.eqb c "0"); [apply IH|].
  destruct (Ascii.eqb c "1"); [apply IH|discriminate].
Qed.

Lemma write_data_loop_fuel (fuel : nat) (compressed_data : std_string) (i : Z) :
  Z.of_nat (length compressed_data) - i <= Z.of_nat fuel ->
  write_data_loop fuel compressed_data i <> OutOfFuel.
Proof.
  revert i. induction fuel as [|fuel IH]; intros i Hf; cbn [write_data_loop].
  - replace (i <? _) with false by (symmetry; apply Z.ltb_ge; lia).
    discriminate.
  - destruct (i <? _); [|discriminate].
    pose proof (bitset_value_fuel (take 8 (drop (Z.to_nat i) compressed_data)) 0)
      as Hb.
    unfold bitset_at.
    destruct (bitset_value _ 0) as [v| | |]; cbn [bind];
      [|discriminate|discriminate|congruence].
    destruct (INT_MAX <? i + CHAR_BIT); [discriminate|].
    specialize (IH (i + CHAR_BIT) ltac:(unfold CHAR_BIT; lia)).
    destruct (write_data_loop fuel compressed_data (i + CHAR_BIT));
      cbn [bind]; congruence.
Qed.

Lemma write_compressed_file_fuel p original compressed_data padding
    frequencies :
  write_compressed_file p original compressed_data padding frequencies
  <> OutOfFuel.
Proof.
  unfold write_compressed_file.
  pose proof (write_data_loop_fuel
                (length (pad_data compressed_data padding))
                (pad_data compressed_data padding) 0 ltac:(lia)) as Hw.
  destruct (write_data_loop _ _ 0); cbn [bind]; congruence.
Qed.

Lemma stream_read_spec (s : ifstream) (n : nat) :
  let '(bytes, s') := stream_read s n in
  (length bytes <= n)%nat
  /\ ((0 < n)%nat -> length bytes = n ->
      (length (unread s') < length (unread s))%nat).
Proof.
  unfold stream_read. destruct (good s).
  - destruct (n <=? length (unread s))%nat eqn:E.
    + apply Nat.leb_le in E. cbn [unread].
      rewrite length_drop, length_take. lia.
    + apply Nat.leb_gt in E. cbn [unread length]. lia.
  - cbn [length]. lia.
Qed.

Lemma stream_read_unread (s : ifstream) (n : nat) :
  (length (unread (snd (stream_read s n))) <= length (unread s))%nat.
Proof.
  unfold stream_read. destruct (good s); [|reflexivity].
  destruct (n <=? length (unread s))%nat; cbn [snd unread length].
  - rewrite length_drop. lia.
  - lia.
Qed.

Lemma read_table_loop_fuel (fuel : nat) (p : platform) (s : ifstream)
    (i count : Z) (acc : StdMap.t Z) :
  (length (unread s) < fuel)%nat ->
  read_table_loop fuel p s i count acc <> OutOfFuel.
Proof.
  revert s i acc. induction fuel as [|fuel IH]; intros s i acc Hf; [lia|].
  cbn [read_table_loop]. destruct (i <? count); [|discriminate].
  unfold read_Byte, read_uint32, sizeof_uint32_t.
  pose proof (stream_read_spec s 1) as H1.
  destruct (stream_read s 1) as [bytes1 s1]. destruct H1 as [H1 H1'].
  pose proof (stream_read_unread s1 4) as H4.
  destruct (stream_read s1 4) as [bytes4 s4]. cbn [snd] in H4.
  destruct bytes1 as [|ch bytes1]; cbn [head use bind]; [discriminate|].
  destruct (length bytes4 =? 4)%nat; cbn [use bind]; [|discriminate].
  destruct (i =? INT_MAX); [discriminate|].
  apply IH.
  assert (bytes1 = []) as -> by (destruct bytes1; [reflexivity|simpl in H1; lia]).
  specialize (H1' ltac:(lia) eq_refl). lia.
Qed.

(** [read_compressed_file] returns, throws or is undefined for every file:
    the fuel of its loop always suffices. *)
Lemma read_compressed_file_fuel (p : platform) (file : list Byte) :
  read_compressed_file p file <> OutOfFuel.
Proof.
  unfold read_compressed_file.
  destruct (read_uint32 p (open_file file)) as [original s1].
  destruct (read_uint32 p s1) as [data_size s2].
  destruct (read_uint32 p s2) as [pad s3].
  destruct (read_uint32 p s3) as [count s4].
  destruct count as [count|]; cbn [use bind]; [|discriminate].
  pose proof (read_table_loop_fuel (S (length (unread s4))) p s4 0 count []
                ltac:(lia)) as Hloop.
  destruct (read_table_loop _ p s4 0 count []) as [[frequencies s5]| | |];
    cbn [bind]; try discriminate; [|congruence].
  destruct data_size as [data_size|]; cbn [use bind]; [|discriminate].
  destruct (0 <? static_cast_int data_size).
  - destruct (stream_read s5 _) as [bytes s6].
    destruct pad; cbn [use bind]; discriminate.
  - destruct pad; cbn [use bind]; discriminate.
Qed.

(** ** The loop of [decompress] *)

Lemma string_at_fuel (str : std_string) (index : Z) :
  string_at str index <> OutOfFuel.
Proof.
  unfold string_at. destruct (index <? 0); [discriminate|].
  destruct (str !! Z.to_nat index); [discriminate|].
  destruct (index =? Z.of_nat (length str)); discriminate.
Qed.

(** [decode] never moves [index] back, and never runs out of fuel. *)
Lemma decode_monotone root :
  forall index str decoded,
    match decode root index str decoded with
    | Returns (index', _) => index <= index'
    | OutOfFuel => False
    | _ => True
    end.
Proof.
  induction root as [|b f l IHl r IHr]; intros index str decoded;
    cbn [decode].
  - lia.
  - destruct (is_null l && is_null r); [lia|].
    destruct (index =? INT_MAX); [exact I|].
    pose proof (string_at_fuel str (index + 1)) as Hs.
    destruct (string_at str (index + 1)) as [c| | |]; cbn [bind];
      [|exact I|exact I|congruence].
    destruct (Ascii.eqb c LEFT_CHAR).
    + specialize (IHl (index + 1) str decoded).
      destruct (decode l (index + 1) str decoded) as [[index' d]| | |];
        [lia|exact I|exact I|exact IHl].
    + specialize (IHr (index + 1) str decoded).
      destruct (decode r (index + 1) str decoded) as [[index' d]| | |];
        [lia|exact I|exact I|exact IHr].
Qed.

(** From a node that is not a leaf, [decode] reads at least one bit. *)
Lemma decode_progress root index str decoded :
  is_null root = false -> is_leaf root = false ->
  match decode root index str decoded with
  | Returns (index', _) => index < index'
  | OutOfFuel => False
  | _ => True
  end.
Proof.
  destruct root as [|b f l r]; [discriminate|]. intros _ Hleaf.
  cbn [is_leaf] in Hleaf. cbn [decode]. rewrite Hleaf.
  destruct (index =? INT_MAX); [exact I|].
  pose proof (string_at_fuel str (index + 1)) as Hs.
  destruct (string_at str (index + 1)) as [c| | |]; cbn [bind];
    [|exact I|exact I|congruence].
  destruct (Ascii.eqb c LEFT_CHAR).
  - pose proof (decode_monotone l (index + 1) str decoded) as Hm.
    destruct (decode l (index + 1) str decoded) as [[index' d]| | |];
      [lia|exact I|exact I|exact Hm].
  - pose proof (decode_monotone r (index + 1) str decoded) as Hm.
    destruct (decode r (index + 1) str decoded) as [[index' d]| | |];
      [lia|exact I|exact I|exact Hm].
Qed.

(** With a tree that is not a single leaf the loop ends: as many rounds as
    there are unread bits suffice. *)
Lemma decompress_loop_terminates fuel root index (bits : std_string) decoded :
  is_null root = false -> is_leaf root = false ->
  Z.of_nat (length bits) - 1 - index <= Z.of_nat fuel ->
  decompress_loop fuel root index bits decoded <> OutOfFuel.
Proof.
  intros Hnull Hleaf. revert index decoded.
  induction fuel as [|fuel IH]; intros index decoded Hf;
    rewrite decompress_loop_unfold; cbn zeta.
  - destruct (_ <? INT_MIN + 2); [discriminate|].
    destruct (index <? _) eqn:E; [|discriminate].
    apply Z.ltb_lt in E. exfalso.
    assert (Hc : static_cast_int (Z.of_nat (length bits))
                 <= Z.of_nat (length bits)).
    { unfold static_cast_int, UINT32_MOD.
      pose proof (Z.mod_le (Z.of_nat (length bits) + 2 ^ 31) (2 ^ 32)
                    ltac:(lia) ltac:(lia)).
      lia. }
    lia.
  - destruct (_ <? INT_MIN + 2); [discriminate|].
    destruct (index <? _) eqn:E; [|discriminate].
    pose proof (decode_progress root index bits decoded Hnull Hleaf) as Hp.
    destruct (decode root index bits decoded) as [[index' d]| | |];
      cbn [bind fst snd]; [|discriminate|discriminate|contradiction].
    apply IH. lia.
Qed.

(** With a single leaf as the tree the loop never ends once it is
    entered: [decode] appends the byte of the leaf and reads no bit. *)
Lemma decompress_loop_leaf_diverges fuel root index (bits : std_string)
    decoded :
  is_leaf root = true ->
  INT_MIN + 2 <= static_cast_int (Z.of_nat (length bits)) ->
  index < static_cast_int (Z.of_nat (length bits)) - 2 ->
  decompress_loop fuel root index bits decoded = OutOfFuel.
Proof.
  intros Hleaf Hmin Hidx. revert decoded.
  induction fuel as [|fuel IH]; intros decoded;
    rewrite decompress_loop_unfold; cbn zeta;
    replace (_ <? INT_MIN + 2) with false by (symmetry; apply Z.ltb_ge; lia);
    replace (index <? _) with true by (symmetry; apply Z.ltb_lt; lia).
  - reflexivity.
  - destruct root as [|b f l r]; [discriminate|].
    cbn [is_leaf] in Hleaf. cbn [decode]. rewrite Hleaf. cbn [bind fst snd].
    apply IH.
Qed.

(** * The frequency table, the tree and the codes: further properties *)

(** ** The counts add up to the length of the input *)

Lemma sum_counts_cons (k : Byte) (v : Z) (m : StdMap.t Z) :
  sum_counts ((k, v) :: m) = v + sum_counts m.
Proof. reflexivity. Qed.

Lemma sum_counts_put (k : Byte) (v : Z) (m : StdMap.t Z) :
  StdMap.sorted m ->
  sum_counts (StdMap.put k v m) = sum_counts m - count_of m k + v.
Proof.
  unfold count_of, default.
  induction m as [|[k' v'] m IH];
    cbn [StdMap.put StdMap.find StdMap.sorted from_option id].
  - intros _. rewrite sum_counts_cons. cbn [sum_counts fold_right]. lia.
  - intros [Hall Hs]. destruct (Byte.eqb k k') eqn:E.
    + rewrite !sum_counts_cons. cbn [from_option id]. lia.
    + destruct (StdMap.key_lt k k') eqn:L.
      * rewrite StdMapFacts.sorted_find_None.
        -- rewrite !sum_counts_cons. cbn [from_option id]. lia.
        -- rewrite List.Forall_forall in Hall |- *. intros e He.
           eapply StdMapFacts.key_lt_trans; [exact L|now apply Hall].
      * specialize (IH Hs). rewrite !sum_counts_cons, IH.
        unfold from_option, id. lia.
Qed.

Lemma sum_counts_count_step (m : StdMap.t Z) (b : Byte) :
  StdMap.sorted m ->
  to_uint32 (sum_counts (count_step m b)) = to_uint32 (sum_counts m + 1).
Proof.
  intros Hs. unfold count_step, StdMap.subscript.
  destruct (StdMap.find b m) as [n|] eqn:E.
  - rewrite sum_counts_put by exact Hs. unfold count_of. rewrite E.
    unfold default. cbn [from_option id].
    replace (sum_counts m - n + to_uint32 (n + 1))
      with (to_uint32 (n + 1) + (sum_counts m - n)) by lia.
    rewrite to_uint32_add_l. f_equal. lia.
  - rewrite sum_counts_put by now apply StdMapFacts.sorted_put.
    rewrite sum_counts_put by exact Hs. unfold count_of.
    rewrite StdMapFacts.find_put_eq, E. unfold default. cbn [from_option id].
    replace (sum_counts m - 0 + 0 - 0 + to_uint32 (0 + 1))
      with (to_uint32 (0 + 1) + sum_counts m) by lia.
    rewrite to_uint32_add_l. f_equal. lia.
Qed.

Lemma sum_counts_fold (data : list Byte) (m : StdMap.t Z) :
  StdMap.sorted m ->
  to_uint32 (sum_counts (fold_left count_step data m))
  = to_uint32 (sum_counts m + Z.of_nat (length data)).
Proof.
  revert m. induction data as [|b data IH]; intros m Hs;
    cbn [fold_left length].
  - f_equal. lia.
  - rewrite IH by now apply count_step_sorted.
    rewrite <- to_uint32_add_l, sum_counts_count_step, to_uint32_add_l
      by exact Hs.
    f_equal. lia.
Qed.

(** X1.  [count_frequencies] returns a table in ascending byte order that
    holds, for exactly the bytes that occur in the input, the number of
    their occurrences modulo [2^32]; it has at most as many entries as the
    input has bytes, and its counts add up to the length of the input
    modulo [2^32]. *)
Theorem count_frequencies_table (data : list Byte) :
  StdMap.sorted (count_frequencies data)
  /\ (forall k : Byte,
        StdMap.find k (count_frequencies data)
        = if occurrences k data =? 0 then None
          else Some (to_uint32 (occurrences k data)))
  /\ (forall k : Byte,
        In k (StdMap.keys (count_frequencies data)) <-> In k data)
  /\ (length (count_frequencies data) <= length data)%nat
  /\ to_uint32 (sum_counts (count_frequencies data))
     = to_uint32 (Z.of_nat (length data)).
Proof.
  split; [apply count_frequencies_sorted|].
  split; [intros k; apply count_frequencies_find|].
  split; [intros k; apply count_frequencies_keys|].
  split; [apply length_count_frequencies|].
  rewrite count_frequencies_fold, sum_counts_fold by exact I. reflexivity.
Qed.

(** ** The frequency of the root *)

Lemma sum_freq_cons (x : HuffmanNode) (q : list HuffmanNode) :
  sum_freq (x :: q) = freq_of x + sum_freq q.
Proof. reflexivity. Qed.

Lemma sum_freq_perm (q q' : list HuffmanNode) :
  q ≡ₚ q' -> sum_freq q = sum_freq q'.
Proof.
  induction 1; rewrite ?sum_freq_cons; [reflexivity|lia|lia|congruence].
Qed.

Lemma freq_of_new_internal (l r : HuffmanNode) :
  freq_of (new_internal l r) = to_uint32 (freq_of l + freq_of r).
Proof. reflexivity. Qed.

Lemma greedy_merge_sum (queue : list HuffmanNode) (root : HuffmanNode) :
  greedy_merge queue root ->
  Forall (fun x => 0 <= freq_of x < UINT32_MOD) queue ->
  freq_of root = to_uint32 (sum_freq queue).
Proof.
  induction 1 as [x|queue queue' rest l r root Hq Hl Hr Hq' Hg IH];
    intros Hrange.
  - inversion Hrange; subst. rewrite sum_freq_cons.
    change (sum_freq []) with 0.
    rewrite Z.add_0_r. symmetry. now apply to_uint32_small.
  - assert (Hrest : Forall (fun x => 0 <= freq_of x < UINT32_MOD) rest).
    { eapply Permutation_Forall in Hrange; [|exact Hq].
      inversion Hrange as [|? ? _ H1]; subst.
      inversion H1; subst. assumption. }
    rewrite IH.
    + rewrite (sum_freq_perm _ _ Hq'), (sum_freq_perm _ _ Hq).
      rewrite !sum_freq_cons, freq_of_new_internal.
      rewrite to_uint32_add_l. f_equal. lia.
    + eapply Permutation_Forall; [symmetry; exact Hq'|].
      constructor; [|exact Hrest].
      rewrite freq_of_new_internal. apply to_uint32_range.
Qed.

(** The tree of a non-empty table is the result of the greedy merge of
    its leaves. *)
Lemma build_huffman_tree_merges (frequencies : StdMap.t Z) (root : HuffmanNode) :
  build_huffman_tree frequencies = Returns root ->
  frequencies <> []
  /\ greedy_merge
       (map (fun pair => new_leaf (fst pair) (snd pair)) frequencies) root.
Proof.
  intros Hb.
  assert (Hne : frequencies <> []).
  { intros ->. rewrite build_huffman_tree_empty in Hb. discriminate. }
  split; [exact Hne|].
  unfold build_huffman_tree in Hb.
  pose proof (initial_heap_perm frequencies) as Hp.
  pose proof (initial_heap_length frequencies) as Hl.
  destruct (build_loop_greedy (length (initial_heap frequencies))
              (initial_heap frequencies)) as (root' & Hr & Hg).
  - apply initial_heap_ordered.
  - intros E. rewrite E in Hl. destruct frequencies; [congruence|discriminate].
  - lia.
  - rewrite Hr in Hb. cbn in Hb. injection Hb as <-.
    eapply greedy_merge_perm; [exact Hp|exact Hg].
Qed.

Lemma sum_freq_leaves (frequencies : StdMap.t Z) :
  sum_freq (map (fun pair => new_leaf (fst pair) (snd pair)) frequencies)
  = sum_counts frequencies.
Proof.
  induction frequencies as [|[k n] m IH]; [reflexivity|].
  cbn [map fst snd]. rewrite sum_freq_cons, sum_counts_cons, IH.
  reflexivity.
Qed.

Lemma root_frequency_sum (frequencies : StdMap.t Z) (root : HuffmanNode) :
  Forall (fun e => 0 <= snd e < UINT32_MOD) frequencies ->
  build_huffman_tree frequencies = Returns root ->
  freq_of root = to_uint32 (sum_counts frequencies).
Proof.
  intros Hrange Hb. apply build_huffman_tree_merges in Hb.
  destruct Hb as [_ Hg]. rewrite (greedy_merge_sum _ _ Hg).
  - now rewrite sum_freq_leaves.
  - apply List.Forall_forall. intros x Hx. apply in_map_iff in Hx.
    destruct Hx as ([k n] & <- & Hin). cbn [fst snd new_leaf freq_of].
    rewrite List.Forall_forall in Hrange. apply (Hrange (k, n) Hin).
Qed.

(** X2.  The frequency stored in the root of the tree that is built from
    the frequency table of an input is the length of the input modulo
    [2^32], the value that the header of the container holds as the
    original size: the sums that [HuffmanNode(left, right)] computes add up
    all the counts. *)
Theorem root_frequency_is_input_length (data : list Byte)
    (root : HuffmanNode) :
  build_huffman_tree (count_frequencies data) = Returns root ->
  freq_of root = to_uint32 (Z.of_nat (length data)).
Proof.
  intros Hb.
  rewrite (root_frequency_sum (count_frequencies data) root
             (count_frequencies_range data) Hb).
  rewrite count_frequencies_fold, sum_counts_fold by exact I. f_equal.
Qed.

Lemma root_frequency_is_input_length_witness :
  build_huffman_tree (count_frequencies AAAABBBB)
  = Returns (Node NULL_CHAR 8 (new_leaf "A" 4) (new_leaf "B" 4))
  /\ freq_of (Node NULL_CHAR 8 (new_leaf "A" 4) (new_leaf "B" 4))
     = to_uint32 (Z.of_nat (length AAAABBBB)).
Proof.
  split; [reflexivity|].
  apply (root_frequency_is_input_length AAAABBBB). reflexivity.
Defined.

(** ** The entries of the substitution table *)

Lemma sorted_keys_NoDup {V} (m : StdMap.t V) :
  StdMap.sorted m -> List.NoDup (StdMap.keys m).
Proof.
  induction m as [|[k v] m IH]; cbn [StdMap.sorted StdMap.keys map fst].
  - constructor.
  - intros [Hall Hs]. constructor; [|now apply IH].
    intros Hin. apply in_map_iff in Hin. destruct Hin as (e & He & Hin).
    rewrite List.Forall_forall in Hall. specialize (Hall e Hin).
    rewrite He, StdMapFacts.key_lt_irrefl in Hall. discriminate.
Qed.

Lemma sorted_keys_length {V V'} (m : StdMap.t V) (m' : StdMap.t V') :
  StdMap.sorted m -> StdMap.sorted m' ->
  (forall b : Byte, In b (StdMap.keys m) <-> In b (StdMap.keys m')) ->
  length m = length m'.
Proof.
  intros Hs Hs' Hiff.
  rewrite <- (length_map fst m), <- (length_map fst m').
  apply Permutation_length.
  apply Stdlib.Sorting.Permutation.NoDup_Permutation;
    [now apply sorted_keys_NoDup|now apply sorted_keys_NoDup|exact Hiff].
Qed.

(** X3.  The substitution table that [compress] builds has an entry for a
    byte exactly if the byte occurs in the input, and it has as many
    entries as the frequency table; so the lookups [substitution_table[ch]]
    of the encoding loop never meet a byte without a code. *)
Theorem substitution_table_domain (data : list Byte) (root : HuffmanNode) :
  build_huffman_tree (count_frequencies data) = Returns root ->
  (forall b : Byte,
     In b (StdMap.keys (create_substitution_table root [] [])) <-> In b data)
  /\ length (create_substitution_table root [] [])
     = length (count_frequencies data).
Proof.
  intros Hb.
  assert (Hne : count_frequencies data <> []).
  { intros E. rewrite E, build_huffman_tree_empty in Hb. discriminate. }
  destruct (build_huffman_tree_spec (count_frequencies data) Hne)
    as (root' & Hb' & Hfull & Hleaves & _).
  rewrite Hb in Hb'. injection Hb' as <-.
  assert (Hdom : forall b : Byte,
            In b (StdMap.keys (create_substitution_table root [] []))
            <-> In b (StdMap.keys (count_frequencies data))).
  { intros b. split.
    - intros Hin. apply keys_find_Some in Hin. destruct Hin as [code Hcode].
      apply table_entry_leaf_path in Hcode.
      rewrite <- Hleaves. unfold leaves. apply in_map_iff. now exists (b, code).
    - intros Hin. rewrite <- Hleaves in Hin. apply leaf_has_entry in Hin.
      destruct Hin as [code Hcode]. eapply find_Some_keys, Hcode. }
  split.
  - intros b. rewrite Hdom. apply count_frequencies_keys.
  - apply sorted_keys_length.
    + apply create_substitution_table_sorted.
    + apply count_frequencies_sorted.
    + exact Hdom.
Qed.

Lemma substitution_table_domain_witness :
  build_huffman_tree (count_frequencies AAAABBBB)
  = Returns (Node NULL_CHAR 8 (new_leaf "A" 4) (new_leaf "B" 4))
  /\ (forall b : Byte,
        In b (StdMap.keys
                (create_substitution_table
                   (Node NULL_CHAR 8 (new_leaf "A" 4) (new_leaf "B" 4)) [] []))
        <-> In b AAAABBBB)
  /\ length (create_substitution_table
               (Node NULL_CHAR 8 (new_leaf "A" 4) (new_leaf "B" 4)) [] [])
     = length (count_frequencies AAAABBBB).
Proof.
  split; [reflexivity|].
  apply (substitution_table_domain AAAABBBB). reflexivity.
Defined.

(** ** The length of the codes *)

Lemma leaf_path_length (p : HuffmanNode) :
  full p ->
  (1 <= length (leaf_paths p))%nat
  /\ forall b c, In (b, c) (leaf_paths p) ->
       (length c < length (leaf_paths p))%nat.
Proof.
  induction p as [|b0 f l IHl r IHr]; cbn [full]; [intros []|].
  intros [[-> ->]|[Fl Fr]].
  - cbn. split; [lia|]. intros b c [[= <- <-]|[]]. cbn. lia.
  - destruct (IHl Fl) as [Ll Hl]. destruct (IHr Fr) as [Lr Hr].
    assert (E : is_null l && is_null r = false).
    { now rewrite (full_not_null l Fl). }
    rewrite leaf_paths_internal by exact E.
    rewrite length_app, !length_map. unfold std_string in *. split; [lia|].
    intros b c Hin.
    assert (Hin' : In (b, c) (leaf_paths (Node b0 f l r))).
    { now rewrite leaf_paths_internal by exact E. }
    apply in_leaf_paths_internal in Hin'; [|exact E].
    destruct Hin' as [(c' & -> & Hc)|(c' & -> & Hc)]; cbn [length].
    + specialize (Hl b c' Hc). lia.
    + specialize (Hr b c' Hc). lia.
Qed.

(** The table of an input has at most 256 entries. *)
Lemma length_sorted_le_256 {V} (m : StdMap.t V) :
  StdMap.sorted m -> (length m <= 256)%nat.
Proof.
  intros Hs.
  pose proof (sorted_keys_NoDup m Hs) as Hnd. unfold StdMap.keys in Hnd.
  assert (Hincl : incl (map fst m) (map byte.of_Z (map Z.of_nat (seq 0 256)))).
  { intros k _. apply in_map_iff. exists (byte.unsigned k).
    split; [apply byte.of_Z_unsigned|].
    apply in_map_iff. exists (Z.to_nat (byte.unsigned k)).
    pose proof (byte.unsigned_range k).
    split; [lia|]. apply in_seq. lia. }
  apply (List.NoDup_incl_length Hnd) in Hincl.
  now rewrite !length_map, length_seq in Hincl.
Qed.

(** X4.  Every code of the substitution table of a tree that
    [build_huffman_tree] returns is shorter than the frequency table has
    entries; a [std::map] of bytes has at most 256 entries, so no code is
    longer than 255 bits. *)
Theorem code_length_bound (frequencies : StdMap.t Z) (root : HuffmanNode)
    (b : Byte) (code : std_string) :
  StdMap.sorted frequencies ->
  build_huffman_tree frequencies = Returns root ->
  StdMap.find b (create_substitution_table root [] []) = Some code ->
  (length code < length frequencies)%nat /\ (length code <= 255)%nat.
Proof.
  intros Hs Hb Hcode.
  assert (Hne : frequencies <> []).
  { intros ->. rewrite build_huffman_tree_empty in Hb. discriminate. }
  destruct (build_huffman_tree_spec frequencies Hne)
    as (root' & Hb' & Hfull & Hleaves & _).
  rewrite Hb in Hb'. injection Hb' as <-.
  apply table_entry_leaf_path in Hcode.
  destruct (leaf_path_length root Hfull) as [_ Hlen].
  specialize (Hlen b code Hcode).
  apply Permutation_length in Hleaves.
  unfold leaves, StdMap.keys in Hleaves. rewrite !length_map in Hleaves.
  pose proof (length_sorted_le_256 frequencies Hs).
  unfold std_string in *. lia.
Qed.

Lemma code_length_bound_witness :
  StdMap.sorted [("A"%byte, 4); ("B"%byte, 4)]
  /\ build_huffman_tree [("A"%byte, 4); ("B"%byte, 4)]
     = Returns (Node NULL_CHAR 8 (new_leaf "A" 4) (new_leaf "B" 4))
  /\ StdMap.find "B"%byte
       (create_substitution_table
          (Node NULL_CHAR 8 (new_leaf "A" 4) (new_leaf "B" 4)) [] [])
     = Some [RIGHT_CHAR]
  /\ (length [RIGHT_CHAR] < length [("A"%byte, 4); ("B"%byte, 4)])%nat
  /\ (length [RIGHT_CHAR] <= 255)%nat.
Proof.
  assert (Hs : StdMap.sorted [("A"%byte, 4); ("B"%byte, 4)]).
  { cbn. repeat constructor. }
  split; [exact Hs|]. split; [reflexivity|]. split; [reflexivity|].
  apply (code_length_bound [("A"%byte, 4); ("B"%byte, 4)]
           (Node NULL_CHAR 8 (new_leaf "A" 4) (new_leaf "B" 4)) "B"%byte);
    [exact Hs|reflexivity|reflexivity].
Defined.

(** ** The shape of the tree *)

(** X5.  The tree that [build_huffman_tree] returns is a full binary
    tree: every node has two children or none.  Its leaves hold the bytes
    of the frequency table, each entry once, and the root is itself a leaf
    exactly if the table has a single entry. *)
Theorem build_huffman_tree_shape (frequencies : StdMap.t Z)
    (root : HuffmanNode) :
  build_huffman_tree frequencies = Returns root ->
  full root
  /\ leaves root ≡ₚ StdMap.keys frequencies
  /\ (is_leaf root = true <-> length frequencies = 1%nat).
Proof.
  intros Hb.
  assert (Hne : frequencies <> []).
  { intros ->. rewrite build_huffman_tree_empty in Hb. discriminate. }
  destruct (build_huffman_tree_spec frequencies Hne)
    as (root' & Hb' & Hfull & Hleaves & Hleaf).
  rewrite Hb in Hb'. injection Hb' as <-.
  split; [exact Hfull|]. split; [exact Hleaves|]. split.
  - intros Hl. destruct frequencies as [|e [|e' m]]; [congruence|reflexivity|].
    exfalso. rewrite Hleaf in Hl by (simpl; lia). discriminate.
  - intros H1. destruct frequencies as [|[k n] [|e' m]]; try discriminate H1.
    rewrite build_huffman_tree_single in Hb. injection Hb as <-.
    reflexivity.
Qed.

Lemma build_huffman_tree_shape_witness :
  build_huffman_tree [("A"%byte, 2); ("B"%byte, 1); ("C"%byte, 1)]
  = Returns
      (Node NULL_CHAR 4 (new_leaf "A" 2)
         (Node NULL_CHAR 2 (new_leaf "B" 1) (new_leaf "C" 1)))
  /\ full
       (Node NULL_CHAR 4 (new_leaf "A" 2)
          (Node NULL_CHAR 2 (new_leaf "B" 1) (new_leaf "C" 1)))
  /\ leaves
       (Node NULL_CHAR 4 (new_leaf "A" 2)
          (Node NULL_CHAR 2 (new_leaf "B" 1) (new_leaf "C" 1)))
     ≡ₚ StdMap.keys [("A"%byte, 2); ("B"%byte, 1); ("C"%byte, 1)]
  /\ (is_leaf
        (Node NULL_CHAR 4 (new_leaf "A" 2)
           (Node NULL_CHAR 2 (new_leaf "B" 1) (new_leaf "C" 1))) = true
      <-> length [("A"%byte, 2); ("B"%byte, 1); ("C"%byte, 1)] = 1%nat).
Proof.
  split; [reflexivity|].
  apply (build_huffman_tree_shape
           [("A"%byte, 2); ("B"%byte, 1); ("C"%byte, 1)]).
  reflexivity.
Defined.

(** * Bit strings and the container: further properties *)

(** ** Unpacking bytes and packing them again *)

Lemma length_byte_to_bit_string (b : Byte) :
  length (byte_to_bit_string b) = 8%nat.
Proof. reflexivity. Qed.

Lemma byte_to_bit_string_bits (b : Byte) : Forall is_bit (byte_to_bit_string b).
Proof.
  unfold byte_to_bit_string. apply List.Forall_forall. intros c Hc.
  apply in_map_iff in Hc. destruct Hc as (i & <- & _).
  destruct (Z.testbit (byte.unsigned b) i); [now right|now left].
Qed.

Lemma bytes_to_bit_string_flat_map (bytes : list Byte) :
  bytes_to_bit_string bytes = flat_map byte_to_bit_string bytes.
Proof. unfold bytes_to_bit_string. now rewrite bytes_to_bit_string_fold. Qed.

Lemma length_bytes_to_bit_string (bytes : list Byte) :
  length (bytes_to_bit_string bytes) = (8 * length bytes)%nat.
Proof.
  induction bytes as [|b bytes IH]; [reflexivity|].
  rewrite bytes_to_bit_string_cons, length_app, IH, length_byte_to_bit_string.
  cbn [length]. lia.
Qed.

Lemma bytes_to_bit_string_bits (bytes : list Byte) :
  Forall is_bit (bytes_to_bit_string bytes).
Proof.
  induction bytes as [|b bytes IH]; [constructor|].
  rewrite bytes_to_bit_string_cons. apply Forall_app.
  split; [apply byte_to_bit_string_bits|exact IH].
Qed.

(** The eight characters of a byte pack into the byte. *)
Lemma pack_byte_to_bit_string (b : Byte) :
  match bitset_value (byte_to_bit_string b) 0 with
  | Returns v => byte.of_Z (Z.land v 255) = b
  | _ => False
  end.
Proof. destruct b; vm_compute; reflexivity. Qed.

Lemma write_data_loop_bytes (bytes : list Byte) :
  forall (pre : std_string) (fuel : nat),
    Z.of_nat (length pre) + 8 * Z.of_nat (length bytes) <= INT_MAX ->
    (length bytes <= fuel)%nat ->
    write_data_loop fuel (pre ++ bytes_to_bit_string bytes)
      (Z.of_nat (length pre))
    = Returns bytes.
Proof.
  induction bytes as [|b bytes IH]; intros pre fuel Hmax Hfuel.
  - change (bytes_to_bit_string []) with (@nil ascii). rewrite app_nil_r.
    destruct fuel; cbn [write_data_loop]; now rewrite Z.ltb_irrefl.
  - destruct fuel as [|fuel]; [simpl in Hfuel; lia|].
    cbn [write_data_loop]. rewrite bytes_to_bit_string_cons.
    pose proof (length_byte_to_bit_string b) as Hb8.
    replace (_ <? _) with true
      by (symmetry; apply Z.ltb_lt; rewrite !length_app, Hb8; lia).
    unfold bitset_at. rewrite Nat2Z.id, drop_app_length.
    replace (take 8 (byte_to_bit_string b ++ bytes_to_bit_string bytes))
      with (byte_to_bit_string b)
      by (symmetry; rewrite <- Hb8 at 1; apply take_app_length).
    pose proof (pack_byte_to_bit_string b) as Hpack.
    destruct (bitset_value (byte_to_bit_string b) 0) as [v| | |];
      try contradiction.
    cbn [bind]. rewrite Hpack.
    replace (INT_MAX <? _) with false
      by (symmetry; apply Z.ltb_ge; unfold CHAR_BIT;
          cbn [length] in Hmax; lia).
    replace (Z.of_nat (length pre) + CHAR_BIT)
      with (Z.of_nat (length (pre ++ byte_to_bit_string b)))
      by (rewrite length_app, Hb8; unfold CHAR_BIT; lia).
    rewrite app_assoc, IH; [reflexivity| |simpl in Hfuel; lia].
    rewrite length_app, Hb8. cbn [length] in Hmax. lia.
Qed.

(** X6.  [bytes_to_bit_string] writes every byte as its eight binary
    digits, most significant first, and the loop of [write_compressed_file]
    that packs a bit string into bytes is its inverse: packing the bit
    string of a sequence of bytes gives the sequence back. *)
Theorem bytes_to_bit_string_packs_back (bytes : list Byte) :
  8 * Z.of_nat (length bytes) <= INT_MAX ->
  length (bytes_to_bit_string bytes) = (8 * length bytes)%nat
  /\ Forall is_bit (bytes_to_bit_string bytes)
  /\ write_data_loop (length (bytes_to_bit_string bytes))
       (bytes_to_bit_string bytes) 0
     = Returns bytes.
Proof.
  intros Hmax. split; [apply length_bytes_to_bit_string|].
  split; [apply bytes_to_bit_string_bits|].
  apply (write_data_loop_bytes bytes []).
  - cbn [length]. lia.
  - rewrite length_bytes_to_bit_string. lia.
Qed.

Lemma bytes_to_bit_string_packs_back_witness :
  8 * Z.of_nat (length [x0f; x00]) <= INT_MAX
  /\ length (bytes_to_bit_string [x0f; x00]) = (8 * length [x0f; x00])%nat
  /\ Forall is_bit (bytes_to_bit_string [x0f; x00])
  /\ write_data_loop (length (bytes_to_bit_string [x0f; x00]))
       (bytes_to_bit_string [x0f; x00]) 0
     = Returns [x0f; x00].
Proof.
  assert (H : 8 * Z.of_nat (length [x0f; x00]) <= INT_MAX)
    by (vm_compute; discriminate).
  split; [exact H|].
  apply (bytes_to_bit_string_packs_back [x0f; x00] H).
Defined.

(** X7.  Conversely, a string of ['0'] and ['1'] characters whose length
    is a multiple of 8 is packed by the loop of [write_compressed_file]
    into one byte for every eight characters, and [bytes_to_bit_string]
    of these bytes is the string again. *)
Theorem packed_bits_unpack (bits : std_string) (k : nat) :
  Forall is_bit bits ->
  length bits = (8 * k)%nat ->
  Z.of_nat (length bits) <= INT_MAX ->
  exists packed,
    write_data_loop (length bits) bits 0 = Returns packed
    /\ length packed = k
    /\ bytes_to_bit_string packed = bits.
Proof.
  intros Hbits Hlen Hmax.
  destruct (write_data_loop_spec k [] bits (length bits))
    as (packed & Hw & Hp & Hl);
    [exact Hlen|exact Hbits|exact Hmax|lia|].
  exists packed. split; [exact Hw|]. split; [exact Hl|exact Hp].
Qed.

Lemma packed_bits_unpack_witness :
  Forall is_bit bits_AAAABBBB_padded
  /\ length bits_AAAABBBB_padded = (8 * 2)%nat
  /\ Z.of_nat (length bits_AAAABBBB_padded) <= INT_MAX
  /\ exists packed,
       write_data_loop (length bits_AAAABBBB_padded) bits_AAAABBBB_padded 0
       = Returns packed
       /\ length packed = 2%nat
       /\ bytes_to_bit_string packed = bits_AAAABBBB_padded.
Proof.
  assert (H1 : Forall is_bit bits_AAAABBBB_padded).
  { vm_compute.
    repeat (constructor; [(left; reflexivity) || (right; reflexivity)|]).
    constructor. }
  assert (H2 : length bits_AAAABBBB_padded = (8 * 2)%nat) by reflexivity.
  assert (H3 : Z.of_nat (length bits_AAAABBBB_padded) <= INT_MAX)
    by (vm_compute; discriminate).
  split; [exact H1|]. split; [exact H2|]. split; [exact H3|].
  apply (packed_bits_unpack bits_AAAABBBB_padded 2 H1 H2 H3).
Defined.

(** ** What [compress] writes *)

(** X8.  For an input whose codes have fewer than [INT_MAX - 7] bits in
    all, [compress] returns, and the file it writes holds, in this order:
    the length of the input modulo [2^32] (4 bytes), the number of bytes of
    packed data (as wide as [std::size_t]), the padding (4 bytes), the
    number of entries of the frequency table (as wide as [std::size_t]),
    the entries of the table in ascending byte order, and the packed data,
    which is the concatenation of the codes of the bytes of the input
    followed by the padding of ['0'] characters.  The value returned is the
    number of bytes of packed data. *)
Theorem compress_container (p : platform) (data : list Byte)
    (root : HuffmanNode) :
  build_huffman_tree (count_frequencies data) = Returns root ->
  let table := create_substitution_table root [] [] in
  let bits := flat_map (code_of table) data in
  let padding := CHAR_BIT - Z.of_nat (length bits) mod CHAR_BIT in
  Z.of_nat (length bits) + 8 <= INT_MAX ->
  exists packed : list Byte,
    compress p data
    = Returns
        (object_bytes p 4 (to_uint32 (Z.of_nat (length data)))
         ++ object_bytes p (sizeof_size_t p) (Z.of_nat (length packed))
         ++ object_bytes p 4 padding
         ++ object_bytes p (sizeof_size_t p)
              (Z.of_nat (length (count_frequencies data)))
         ++ table_bytes p (count_frequencies data)
         ++ packed,
         Z.of_nat (length packed))
    /\ bytes_to_bit_string packed
       = bits ++ repeat PADDING_BIT (Z.to_nat padding).
Proof.
  intros Hb table bits pad Hmax.
  assert (Hne : data <> []).
  { intros ->. change (count_frequencies []) with (@nil (Byte * Z)) in Hb.
    rewrite build_huffman_tree_empty in Hb. discriminate. }
  destruct (compress_prepare_spec data Hne) as (root' & Hb' & _ & _ & Hst).
  rewrite Hb in Hb'. injection Hb' as <-. cbn zeta in Hst.
  fold table in Hst. fold bits in Hst.
  pose proof (encoded_size_mod8 data table
                (create_substitution_table_sorted root)) as Hmod.
  fold bits in Hmod.
  assert (Hpad : CHAR_BIT
                 - to_uint32 (weighted_length
                                (count_of (count_frequencies data)) table)
                   mod CHAR_BIT
                 = pad).
  { unfold pad, CHAR_BIT. now rewrite Hmod. }
  rewrite Hpad in Hst.
  destruct (compress_returns p data Hne) as (st & Hst' & Hcomp).
  rewrite Hst in Hst'. injection Hst' as <-.
  cbn [encoded padding frequencies original_file_size] in Hcomp.
  destruct (Hcomp Hmax) as (packed & Hfile & Hbits & Hlen & _).
  exists packed. split; [|exact Hbits].
  rewrite Hfile. unfold header_bytes, sizeof_uint32_t.
  rewrite <- Hlen, <- !app_assoc. do 2 f_equal.
  apply to_uint32_small.
  assert (H8 : 8 * Z.of_nat (length packed)
               = Z.of_nat (length (pad_data bits pad))).
  { pose proof (length_bytes_to_bit_string packed) as HL.
    rewrite Hbits in HL. lia. }
  assert (0 <= Z.of_nat (length bits) mod 8 < 8)
    by (apply Z.mod_pos_bound; lia).
  rewrite length_pad_data in H8 by (unfold pad, CHAR_BIT; lia).
  unfold pad, CHAR_BIT, INT_MAX, UINT32_MOD in *. lia.
Qed.

Lemma compress_container_witness :
  build_huffman_tree (count_frequencies AAAABBBB)
  = Returns (Node NULL_CHAR 8 (new_leaf "A" 4) (new_leaf "B" 4))
  /\ exists packed : list Byte,
       compress ILP32 AAAABBBB
       = Returns
           (object_bytes ILP32 4 (to_uint32 (Z.of_nat (length AAAABBBB)))
            ++ object_bytes ILP32 (sizeof_size_t ILP32)
                 (Z.of_nat (length packed))
            ++ object_bytes ILP32 4
                 (CHAR_BIT
                  - Z.of_nat
                      (length
                         (flat_map
                            (code_of
                               (create_substitution_table
                                  (Node NULL_CHAR 8 (new_leaf "A" 4)
                                     (new_leaf "B" 4)) [] []))
                            AAAABBBB)) mod CHAR_BIT)
            ++ object_bytes ILP32 (sizeof_size_t ILP32)
                 (Z.of_nat (length (count_frequencies AAAABBBB)))
            ++ table_bytes ILP32 (count_frequencies AAAABBBB)
            ++ packed,
            Z.of_nat (length packed))
       /\ bytes_to_bit_string packed
          = flat_map
              (code_of
                 (create_substitution_table
                    (Node NULL_CHAR 8 (new_leaf "A" 4) (new_leaf "B" 4))
                    [] []))
              AAAABBBB
            ++ repeat PADDING_BIT
                 (Z.to_nat
                    (CHAR_BIT
                     - Z.of_nat
                         (length
                            (flat_map
                               (code_of
                                  (create_substitution_table
                                     (Node NULL_CHAR 8 (new_leaf "A" 4)
                                        (new_leaf "B" 4)) [] []))
                               AAAABBBB)) mod CHAR_BIT)).
Proof.
  split; [reflexivity|].
  apply (compress_container ILP32 AAAABBBB
           (Node NULL_CHAR 8 (new_leaf "A" 4) (new_leaf "B" 4)));
    [reflexivity|vm_compute; discriminate].
Defined.

(** ** The size that [compress] returns *)

(** When the packing loop returns, it has written one byte for every
    eight characters, rounded up, and its counter has not overflowed. *)
Lemma write_data_loop_length (fuel : nat) (s : std_string) :
  forall (i : Z) (packed : list Byte),
    write_data_loop fuel s i = Returns packed ->
    (Z.of_nat (length s) <= i /\ packed = [])
    \/ (i < Z.of_nat (length s)
        /\ Z.of_nat (length s) <= i + 8 * Z.of_nat (length packed)
           < Z.of_nat (length s) + 8
        /\ i + 8 * Z.of_nat (length packed) <= INT_MAX).
Proof.
  induction fuel as [|fuel IH]; intros i packed Hw; cbn [write_data_loop] in Hw;
    destruct (i <? Z.of_nat (length s)) eqn:E.
  - discriminate Hw.
  - apply Z.ltb_ge in E. injection Hw as <-. now left.
  - apply Z.ltb_lt in E. right.
    destruct (bitset_at s (Z.to_nat i)) as [v| | |]; cbn [bind] in Hw;
      try discriminate Hw.
    destruct (INT_MAX <? i + CHAR_BIT) eqn:O; [discriminate Hw|].
    apply Z.ltb_ge in O. unfold CHAR_BIT in *.
    destruct (write_data_loop fuel s (i + 8)) as [rest| | |] eqn:R;
      cbn [bind] in Hw; try discriminate Hw.
    injection Hw as <-. cbn [length].
    destruct (IH (i + 8) rest R) as [[Hle ->]|(Hlt & Hb & Hm)];
      cbn [length]; lia.
  - apply Z.ltb_ge in E. injection Hw as <-. now left.
Qed.

(** X9.  Whenever [compress] returns, the number it returns, which
    [compress_to_file] prints as the size of the compressed file, counts
    the bytes of packed data only: the file that was written is larger by
    its header of [8 + 2 * sizeof(std::size_t)] bytes and by five bytes for
    every distinct byte of the input. *)
Theorem compress_reports_packed_size (p : platform) (data file : list Byte)
    (compressed_size : Z) :
  compress p data = Returns (file, compressed_size) ->
  1 <= compressed_size
  /\ Z.of_nat (length file)
     = compressed_size + 8 + 2 * Z.of_nat (sizeof_size_t p)
       + 5 * Z.of_nat (length (count_frequencies data)).
Proof.
  intros Hc.
  assert (Hne : data <> []) by (intros ->; discriminate Hc).
  destruct (compress_prepare_spec data Hne) as (root & _ & _ & _ & Hst).
  cbn zeta in Hst.
  destruct (padded_length data (create_substitution_table root [] [])
              (create_substitution_table_sorted root))
    as (Hpad & k & Hk & Hds & Hk1).
  cbn zeta in Hpad, Hk, Hds.
  unfold compress in Hc. rewrite Hst in Hc. cbn [bind] in Hc.
  cbn [encoded padding frequencies original_file_size] in Hc.
  unfold write_compressed_file in Hc.
  set (pad := CHAR_BIT - _ mod CHAR_BIT) in *.
  set (enc := flat_map _ data) in *.
  destruct (write_data_loop (length (pad_data enc pad)) (pad_data enc pad) 0)
    as [packed| | |] eqn:Hw; cbn [bind] in Hc; try discriminate Hc.
  injection Hc as <- <-.
  apply write_data_loop_length in Hw.
  assert (Hpk : Z.of_nat (length packed) = Z.of_nat k
                /\ 8 * Z.of_nat k <= INT_MAX).
  { destruct Hw as [[Hle _]|(_ & Hb & Hm)]; lia. }
  destruct Hpk as [Hpk Hm].
  change (Z.of_nat (length (pad_data enc pad)) / CHAR_BIT)
    with (data_size_of (pad_data enc pad)).
  rewrite Hds, to_uint32_small
    by (unfold INT_MAX, UINT32_MOD in *; lia).
  split; [lia|].
  rewrite !length_app, length_header_bytes, length_table_bytes. lia.
Qed.

Lemma compress_reports_packed_size_witness :
  compress LP64 AAAABBBB
  = Returns
      ([x08; x00; x00; x00;
        x02; x00; x00; x00; x00; x00; x00; x00;
        x08; x00; x00; x00;
        x02; x00; x00; x00; x00; x00; x00; x00;
        x41; x04; x00; x00; x00;
        x42; x04; x00; x00; x00;
        x0f; x00], 2)
  /\ 1 <= 2
  /\ Z.of_nat (length [x08; x00; x00; x00;
                       x02; x00; x00; x00; x00; x00; x00; x00;
                       x08; x00; x00; x00;
                       x02; x00; x00; x00; x00; x00; x00; x00;
                       x41; x04; x00; x00; x00;
                       x42; x04; x00; x00; x00;
                       x0f; x00])
     = 2 + 8 + 2 * Z.of_nat (sizeof_size_t LP64)
       + 5 * Z.of_nat (length (count_frequencies AAAABBBB)).
Proof.
  split; [vm_compute; reflexivity|].
  apply (compress_reports_packed_size LP64 AAAABBBB). vm_compute. reflexivity.
Defined.

(** * Reading a container and decoding it: further properties *)

(** ** What [read_compressed_file] returns *)

Lemma drop_repeat {A} (x : A) (n k : nat) :
  drop k (repeat x n) = repeat x (n - k).
Proof.
  revert k. induction n as [|n IH]; intros [|k]; cbn [repeat drop Nat.sub];
    try reflexivity.
  apply IH.
Qed.

(** The read of the data: the bytes that the file still has, and zero
    bytes for those that it lacks. *)
Lemma read_data_bytes (rest : list Byte) (n : nat) :
  let '(bytes, _) := stream_read {| unread := rest; good := true |} n in
  bytes ++ drop (length bytes) (repeat x00 n)
  = take n rest ++ repeat x00 (n - length rest).
Proof.
  unfold stream_read. cbn [good unread].
  destruct (n <=? length rest)%nat eqn:E.
  - apply Nat.leb_le in E. rewrite drop_repeat, length_take.
    replace (n - n `min` length rest)%nat with 0%nat by lia.
    replace (n - length rest)%nat with 0%nat by lia. reflexivity.
  - apply Nat.leb_gt in E. rewrite drop_repeat.
    now rewrite take_ge by lia.
Qed.

(** X10.  For a file that begins with four 4-byte fields and a table of as
    many entries as the fourth field says, [read_compressed_file] returns
    the third field as the padding, the table with its entries inserted in
    the order of the file (a later entry for the same byte replaces an
    earlier one), and as data the first [data_size] bytes that follow the
    table.  It ignores what follows them, and if the file ends early it
    reports nothing: the bytes that are missing are zero. *)
Theorem read_compressed_file_parses (p : platform)
    (original data_size padding : Z) (entries : list (Byte * Z))
    (rest : list Byte) :
  0 <= original < UINT32_MOD ->
  0 <= data_size <= INT_MAX ->
  0 <= padding < UINT32_MOD ->
  Z.of_nat (length entries) <= INT_MAX ->
  Forall (fun e => 0 <= snd e < UINT32_MOD) entries ->
  read_compressed_file p
    (object_bytes p 4 original ++ object_bytes p 4 data_size
     ++ object_bytes p 4 padding
     ++ object_bytes p 4 (Z.of_nat (length entries))
     ++ table_bytes p entries ++ rest)
  = Returns
      (padding,
       take (Z.to_nat data_size) rest
       ++ repeat x00 (Z.to_nat data_size - length rest),
       fold_left (fun t e => StdMap.put (fst e) (snd e) t) entries []).
Proof.
  intros Horig Hds Hpad Hfmax Hrange.
  assert (Hu : UINT32_MOD = 4294967296) by reflexivity.
  assert (Hi : INT_MAX = 2147483647) by reflexivity.
  unfold read_compressed_file, open_file.
  rewrite !read_uint32_app by lia.
  cbn [use bind unread].
  pose proof (read_table_loop_table_bytes p entries [] rest 0
                (S (length (table_bytes p entries ++ rest)))
                Hrange) as Hloop.
  rewrite Z.add_0_l in Hloop.
  rewrite Hloop; [|rewrite length_app, length_table_bytes; lia|lia|lia].
  cbn [bind].
  unfold static_cast_int. rewrite Hu.
  rewrite Z.mod_small by lia.
  replace (data_size + 2 ^ 31 - 2 ^ 31) with data_size by lia.
  pose proof (read_data_bytes rest (Z.to_nat data_size)) as Hread.
  destruct (0 <? data_size) eqn:E.
  - destruct (stream_read {| unread := rest; good := true |}
                (Z.to_nat data_size)) as [bytes s].
    now rewrite Hread.
  - apply Z.ltb_ge in E. replace data_size with 0 by lia. reflexivity.
Qed.

Lemma read_compressed_file_parses_witness :
  0 <= 8 < UINT32_MOD
  /\ 0 <= 3 <= INT_MAX
  /\ 0 <= 8 < UINT32_MOD
  /\ Z.of_nat (length [("B"%byte, 4); ("A"%byte, 4); ("B"%byte, 5)])
     <= INT_MAX
  /\ Forall (fun e => 0 <= snd e < UINT32_MOD)
       [("B"%byte, 4); ("A"%byte, 4); ("B"%byte, 5)]
  /\ read_compressed_file ILP32
       (object_bytes ILP32 4 8 ++ object_bytes ILP32 4 3
        ++ object_bytes ILP32 4 8
        ++ object_bytes ILP32 4
             (Z.of_nat (length [("B"%byte, 4); ("A"%byte, 4); ("B"%byte, 5)]))
        ++ table_bytes ILP32 [("B"%byte, 4); ("A"%byte, 4); ("B"%byte, 5)]
        ++ [x0f; x00])
     = Returns
         (8,
          take (Z.to_nat 3) [x0f; x00]
          ++ repeat x00 (Z.to_nat 3 - length [x0f; x00]),
          fold_left (fun t e => StdMap.put (fst e) (snd e) t)
            [("B"%byte, 4); ("A"%byte, 4); ("B"%byte, 5)] []).
Proof.
  assert (H1 : 0 <= 8 < UINT32_MOD) by (unfold UINT32_MOD; lia).
  assert (H2 : 0 <= 3 <= INT_MAX) by (unfold INT_MAX; lia).
  assert (H3 : Z.of_nat (length [("B"%byte, 4); ("A"%byte, 4); ("B"%byte, 5)])
               <= INT_MAX) by (vm_compute; discriminate).
  assert (H4 : Forall (fun e => 0 <= snd e < UINT32_MOD)
                 [("B"%byte, 4); ("A"%byte, 4); ("B"%byte, 5)]).
  { unfold UINT32_MOD. repeat constructor; cbn [snd]; lia. }
  split; [exact H1|]. split; [exact H2|]. split; [exact H1|].
  split; [exact H3|]. split; [exact H4|].
  apply (read_compressed_file_parses ILP32 8 3 8
           [("B"%byte, 4); ("A"%byte, 4); ("B"%byte, 5)] [x0f; x00]
           H1 H2 H1 H3 H4).
Defined.

(** ** When the decoding loop ends *)

Lemma static_cast_int_small (z : Z) :
  0 <= z <= INT_MAX -> static_cast_int z = z.
Proof.
  unfold static_cast_int, INT_MAX, UINT32_MOD. intros Hz.
  rewrite Z.mod_small by lia. lia.
Qed.

Lemma length_erased (bits : std_string) (padding : Z) :
  0 <= padding <= Z.of_nat (length bits) ->
  Z.of_nat (length (take (length bits - Z.to_nat padding) bits))
  = Z.of_nat (length bits) - padding.
Proof. intros Hp. rewrite length_take. lia. Qed.

(** X11.  With a frequency table of a single entry, [decompress] does not
    leave its loop if at least two bits remain once the padding is erased:
    the tree is a single leaf, so [decode] appends its byte without
    reading a bit, and the loop is entered again with the same [index]
    and a longer result.  The model runs out of every amount of fuel;
    memory allocation is assumed not to fail. *)
Theorem decompress_single_entry_diverges (fuel : nat) (bits : std_string)
    (padding : Z) (k : Byte) (n : Z) :
  0 <= padding ->
  2 <= Z.of_nat (length bits) - padding <= INT_MAX ->
  decompress fuel bits padding [(k, n)] = OutOfFuel.
Proof.
  intros Hp Hlen. unfold decompress.
  rewrite build_huffman_tree_single. cbn [bind].
  unfold erase_padding.
  replace (_ <? padding) with false by (symmetry; apply Z.ltb_ge; lia).
  cbn [bind].
  rewrite decompress_loop_leaf_diverges; [reflexivity|reflexivity| |];
    rewrite length_erased, static_cast_int_small by lia;
    unfold INT_MIN; lia.
Qed.

Lemma decompress_single_entry_diverges_witness :
  0 <= 6
  /\ 2 <= Z.of_nat (length (bytes_to_bit_string [x00])) - 6 <= INT_MAX
  /\ decompress 1000 (bytes_to_bit_string [x00]) 6 [("A"%byte, 2)] = OutOfFuel.
Proof.
  assert (H1 : 0 <= 6) by lia.
  assert (H2 : 2 <= Z.of_nat (length (bytes_to_bit_string [x00])) - 6
               <= INT_MAX) by (vm_compute; split; discriminate).
  split; [exact H1|]. split; [exact H2|].
  apply (decompress_single_entry_diverges 1000 (bytes_to_bit_string [x00]) 6
           "A"%byte 2 H1 H2).
Defined.

(** X12.  With a frequency table of at least two entries the loop of
    [decompress] ends whatever the bits are: every call of [decode] reads
    at least one bit, so as many rounds as there are bits suffice. *)
Theorem decompress_terminates (bits : std_string) (padding : Z)
    (frequencies : StdMap.t Z) :
  (2 <= length frequencies)%nat ->
  decompress (length bits) bits padding frequencies <> OutOfFuel.
Proof.
  intros H2.
  assert (Hne : frequencies <> []) by (destruct frequencies; [simpl in H2; lia|discriminate]).
  destruct (build_huffman_tree_spec frequencies Hne)
    as (root & Hb & Hfull & _ & Hleaf).
  unfold decompress. rewrite Hb. cbn [bind].
  unfold erase_padding.
  destruct (_ <? padding); cbn [bind]; [discriminate|].
  pose proof (decompress_loop_terminates (length bits) root (-1)
                (take (length bits - Z.to_nat padding) bits) []
                (full_not_null root Hfull) (Hleaf H2)) as Hterm.
  destruct (decompress_loop _ _ _ _ _); cbn [bind]; try discriminate.
  exfalso. apply Hterm; [|reflexivity].
  rewrite length_take. lia.
Qed.

Lemma decompress_terminates_witness :
  (2 <= length [("A"%byte, 4); ("B"%byte, 4)])%nat
  /\ decompress (length bits_AAAABBBB_padded) bits_AAAABBBB_padded 8
       [("A"%byte, 4); ("B"%byte, 4)]
     <> OutOfFuel.
Proof.
  assert (H : (2 <= length [("A"%byte, 4); ("B"%byte, 4)])%nat)
    by (simpl; lia).
  split; [exact H|].
  apply (decompress_terminates bits_AAAABBBB_padded 8
           [("A"%byte, 4); ("B"%byte, 4)] H).
Defined.

(** X13.  If the padding exceeds the number of bits, [decompress] ends
    with the exception [std::out_of_range] of [bits.erase]: the position
    [bits.length() - padding] is computed on unsigned integers and lies
    beyond the end of the string.  (With an empty table the behaviour is
    undefined before that.) *)
Theorem decompress_padding_exceeds_bits (fuel : nat) (bits : std_string)
    (padding : Z) (frequencies : StdMap.t Z) :
  frequencies <> [] ->
  Z.of_nat (length bits) < padding ->
  decompress fuel bits padding frequencies = Throws out_of_range.
Proof.
  intros Hne Hlt.
  destruct (build_huffman_tree_spec frequencies Hne) as (root & Hb & _).
  unfold decompress. rewrite Hb. cbn [bind].
  unfold erase_padding.
  replace (_ <? padding) with true by (symmetry; apply Z.ltb_lt; lia).
  reflexivity.
Qed.

Lemma decompress_padding_exceeds_bits_witness :
  [("A"%byte, 4); ("B"%byte, 4)] <> []
  /\ Z.of_nat (length (bytes_to_bit_string [x0f])) < 9
  /\ decompress 0 (bytes_to_bit_string [x0f]) 9 [("A"%byte, 4); ("B"%byte, 4)]
     = Throws out_of_range.
Proof.
  assert (H1 : [("A"%byte, 4); ("B"%byte, 4)] <> []) by discriminate.
  assert (H2 : Z.of_nat (length (bytes_to_bit_string [x0f])) < 9)
    by (vm_compute; reflexivity).
  split; [exact H1|]. split; [exact H2|].
  apply (decompress_padding_exceeds_bits 0 (bytes_to_bit_string [x0f]) 9
           [("A"%byte, 4); ("B"%byte, 4)] H1 H2).
Defined.

(** ** When the round trip gives the input back *)

(** X14.  Where [std::size_t] is 4 bytes wide, compressing an input to a
    file and decompressing the file returns: nothing, if the code of the
    last byte of the input is empty (the input has one distinct byte);
    the input without its last byte, if that code is one bit long; and
    the input itself exactly if that code has at least two bits. *)
Theorem round_trip_result (p : platform) (init : list Byte) (x : Byte)
    (root : HuffmanNode) (fuel : nat) :
  sizeof_size_t p = 4%nat ->
  build_huffman_tree (count_frequencies (init ++ [x])) = Returns root ->
  let table := create_substitution_table root [] [] in
  Z.of_nat (length (flat_map (code_of table) (init ++ [x]))) + 8 <= INT_MAX ->
  (length (init ++ [x]) <= fuel)%nat ->
  round_trip p fuel (init ++ [x])
  = Returns
      match length (code_of table x) with
      | 0%nat => []
      | 1%nat => init
      | _ => init ++ [x]
      end.
Proof.
  intros Hp Hb table Hmax Hfuel.
  assert (Hne : init ++ [x] <> []) by (destruct init; discriminate).
  destruct (decompress_compress_characterisation init x fuel Hfuel)
    as (st & Hst & Hdec).
  destruct (compress_returns p (init ++ [x]) Hne) as (st' & Hst' & Hcomp).
  rewrite Hst in Hst'. injection Hst' as <-.
  destruct (compress_prepare_spec (init ++ [x]) Hne)
    as (root' & Hb' & Hfull & Hleaves & Hspec).
  rewrite Hb in Hb'. injection Hb' as <-.
  cbn zeta in Hspec. fold table in Hspec.
  rewrite Hspec in Hst. injection Hst as Est.
  assert (Hmax' : Z.of_nat (length (encoded st)) + 8 <= INT_MAX).
  { rewrite <- Est. exact Hmax. }
  destruct (Hcomp Hmax') as (packed & Hfile & Hbits & Hlen & Hp1).
  destruct (padded_length (init ++ [x]) table
              (create_substitution_table_sorted root))
    as (Hpad & k & Hk & Hds & Hk1).
  cbn zeta in Hpad, Hk, Hds.
  assert (Hu : UINT32_MOD = 4294967296) by reflexivity.
  assert (Hi : INT_MAX = 2147483647) by reflexivity.
  unfold round_trip. rewrite Hfile. cbn [bind fst].
  unfold decompress_to_file.
  rewrite read_compressed_file_written.
  - cbn [bind]. rewrite Hbits, Hdec by lia. cbn [bind fst]. f_equal.
    rewrite <- Est. cbn [frequencies substitution_table].
    assert (Hx : In (x, code_of table x) (leaf_paths root)).
    { assert (Hin : In x (init ++ [x])) by (apply in_or_app; right; now left).
      apply count_frequencies_keys in Hin.
      rewrite <- Hleaves in Hin. apply leaf_has_entry in Hin.
      destruct Hin as [code Hcode]. unfold table, code_of. rewrite Hcode.
      cbn. now apply table_entry_leaf_path. }
    destruct (length (count_frequencies (init ++ [x])) <? 2)%nat eqn:E.
    + apply Nat.ltb_lt in E.
      destruct (count_frequencies (init ++ [x])) as [|[k0 n0] [|e m]] eqn:Ef;
        [discriminate Hb| |simpl in E; lia].
      rewrite build_huffman_tree_single in Hb. injection Hb as <-.
      destruct Hx as [Heq|[]]. injection Heq as _ Hc.
      now rewrite <- Hc.
    + apply Nat.ltb_ge in E.
      destruct (build_huffman_tree_spec (count_frequencies (init ++ [x])))
        as (root' & Hb' & _ & _ & Hleaf).
      { intros E0. rewrite E0 in E. simpl in E. lia. }
      rewrite Hb in Hb'. injection Hb' as <-.
      pose proof (leaf_paths_nonempty root x _ (Hleaf E) Hx) as Hnil.
      destruct (code_of table x) as [|c0 [|c1 code]]; [congruence| |];
        reflexivity.
  - exact Hp.
  - rewrite <- Est. cbn [original_file_size]. apply to_uint32_range.
  - rewrite <- Est. cbn [padding]. lia.
  - now rewrite Hlen.
  - exact Hp1.
  - rewrite Hlen. rewrite <- Est in Hmax' |- *. cbn [padding encoded] in *.
    rewrite Hds.
    assert (Z.of_nat (8 * k) <= INT_MAX); [|lia].
    rewrite <- Hk, length_pad_data by lia. lia.
  - rewrite <- Est. cbn [frequencies].
    pose proof (length_sorted_le_256 _
                  (count_frequencies_sorted (init ++ [x]))). lia.
  - rewrite <- Est. cbn [frequencies]. apply count_frequencies_sorted.
  - rewrite <- Est. cbn [frequencies]. apply count_frequencies_range.
Qed.

Lemma round_trip_result_witness :
  sizeof_size_t ILP32 = 4%nat
  /\ build_huffman_tree (count_frequencies (["A"; "B"; "C"]%byte ++ ["A"%byte]))
     = Returns
         (Node NULL_CHAR 4 (new_leaf "A" 2)
            (Node NULL_CHAR 2 (new_leaf "B" 1) (new_leaf "C" 1)))
  /\ round_trip ILP32 4 (["A"; "B"; "C"]%byte ++ ["A"%byte])
     = Returns
         match
           length
             (code_of
                (create_substitution_table
                   (Node NULL_CHAR 4 (new_leaf "A" 2)
                      (Node NULL_CHAR 2 (new_leaf "B" 1) (new_leaf "C" 1)))
                   [] []) "A"%byte)
         with
         | 0%nat => []
         | 1%nat => ["A"; "B"; "C"]%byte
         | _ => ["A"; "B"; "C"]%byte ++ ["A"%byte]
         end.
Proof.
  split; [reflexivity|]. split; [reflexivity|].
  apply (round_trip_result ILP32 ["A"; "B"; "C"]%byte "A"%byte
           (Node NULL_CHAR 4 (new_leaf "A" 2)
              (Node NULL_CHAR 2 (new_leaf "B" 1) (new_leaf "C" 1))) 4);
    [reflexivity|reflexivity|vm_compute; discriminate|simpl; lia].
Defined.

(** * Files and the command line *)

Lemma string_eqb_eq (a b : std_string) :
  Main.string_eqb a b = true <-> a = b.
Proof.
  revert b. induction a as [|x a IH]; intros [|y b]; cbn [Main.string_eqb];
    try (split; [discriminate|discriminate]); [split; reflexivity|].
  rewrite andb_true_iff, Ascii.eqb_eq, IH. split.
  - now intros [-> ->].
  - intros [= -> ->]. now split.
Qed.

Lemma string_eqb_refl (a : std_string) : Main.string_eqb a a = true.
Proof. now apply string_eqb_eq. Qed.

Lemma string_eqb_neq (a b : std_string) :
  Main.string_eqb a b = false <-> a <> b.
Proof.
  rewrite <- string_eqb_eq. destruct (Main.string_eqb a b); split;
    congruence.
Qed.

(** ** The name of the compressed file *)

Lemma suffix_drop (ext s : std_string) :
  (length ext <= length s)%nat ->
  ext `suffix_of` s <-> drop (length s - length ext) s = ext.
Proof.
  intros Hlen. split.
  - intros [k ->]. rewrite length_app.
    replace (length k + length ext - length ext)%nat with (length k) by lia.
    apply drop_app_length.
  - intros <-. exists (take (length s - length ext) s).
    now rewrite take_drop.
Qed.

(** X15.  With the extension [".huff"] that [main] sets, the file that
    [compress_to_file] writes always has a name that ends in [".huff"]: the
    name given is kept if it ends in [".huff"] already (the name [".huff"]
    itself included), and it gets [".huff"] appended otherwise. *)
Theorem compressed_file_name_ends_in_huff (to_file : std_string) :
  let huff := ["."; "h"; "u"; "f"; "f"]%char in
  let name := Main.compressed_file_name huff to_file in
  huff `suffix_of` name
  /\ (huff `suffix_of` to_file -> name = to_file)
  /\ (~ huff `suffix_of` to_file -> name = to_file ++ huff).
Proof.
  intros huff name. unfold name, Main.compressed_file_name.
  assert (Hkey : Main.string_eqb
                   (if (5 <? length to_file)%nat
                    then drop (length to_file - 5) to_file else to_file) huff
                 = true
                 <-> huff `suffix_of` to_file).
  { rewrite string_eqb_eq.
    destruct (5 <? length to_file)%nat eqn:E.
    - apply Nat.ltb_lt in E. symmetry.
      apply (suffix_drop huff to_file). cbn [huff length]. lia.
    - apply Nat.ltb_ge in E. split.
      + intros ->. reflexivity.
      + intros Hs. pose proof (suffix_length _ _ Hs) as Hl.
        cbn [huff length] in Hl.
        apply (suffix_drop huff to_file) in Hs; [|cbn [huff length]; lia].
        cbn [huff length] in Hs.
        replace (length to_file - 5)%nat with 0%nat in Hs by lia.
        exact Hs. }
  destruct (Main.string_eqb _ huff) eqn:E; cbn [negb].
  - assert (Hs : huff `suffix_of` to_file) by now apply Hkey.
    split; [exact Hs|]. split; [reflexivity|]. intros Hn. now destruct Hn.
  - assert (Hn : ~ huff `suffix_of` to_file).
    { intros Hs. apply Hkey in Hs. discriminate Hs. }
    split; [now exists to_file|]. split; [|reflexivity].
    intros Hs. now destruct Hn.
Qed.

(** ** Reading and writing whole files *)

Lemma SIZE_MOD_pos (p : platform) : 0 < Main.SIZE_MOD p.
Proof. unfold Main.SIZE_MOD. apply Z.pow_pos_nonneg; lia. Qed.

Lemma vector_max_size_lt (p : platform) :
  Main.vector_max_size p < Main.SIZE_MOD p.
Proof.
  unfold Main.vector_max_size. pose proof (SIZE_MOD_pos p).
  pose proof (Z.div_le_upper_bound (Main.SIZE_MOD p) 2 (Main.SIZE_MOD p)).
  lia.
Qed.

Lemma read_uncompressed_file_Some (p : platform) (files : Main.filesystem)
    (filename : std_string) (file : list Byte) :
  Main.contents files filename = Some file ->
  Z.of_nat (length file) <= Main.vector_max_size p ->
  Main.read_uncompressed_file p files filename = Main.Done file.
Proof.
  intros Hc Hmax.
  unfold Main.read_uncompressed_file, Main.ifstream_open. rewrite Hc.
  unfold Main.get_file_size, Main.seekg_0, Main.tellg, Main.reserve.
  cbn [Main.failbit Main.gpos Main.bytes].
  pose proof (vector_max_size_lt p).
  rewrite Z.mod_small by lia.
  replace (_ <? _) with false by (symmetry; apply Z.ltb_ge; lia).
  cbn [Main.and_then]. unfold Main.istream_iterator_range.
  cbn [Main.failbit Main.gpos Main.bytes]. reflexivity.
Qed.

Lemma read_uncompressed_file_None (p : platform) (files : Main.filesystem)
    (filename : std_string) :
  Main.contents files filename = None ->
  Main.read_uncompressed_file p files filename
  = Main.Uncaught Main.length_error.
Proof.
  intros Hc.
  unfold Main.read_uncompressed_file, Main.ifstream_open. rewrite Hc.
  unfold Main.get_file_size, Main.seekg_0, Main.tellg, Main.reserve.
  cbn [Main.failbit Main.gpos Main.bytes].
  pose proof (SIZE_MOD_pos p) as Hpos.
  assert (Hm : (-1) mod Main.SIZE_MOD p = Main.SIZE_MOD p - 1).
  { symmetry. apply (Z.mod_unique _ _ (-1)); lia. }
  rewrite Hm.
  replace (_ <? _) with true; [reflexivity|].
  symmetry. apply Z.ltb_lt. unfold Main.vector_max_size.
  pose proof (Z.div_lt_upper_bound (Main.SIZE_MOD p) 2 (Main.SIZE_MOD p)).
  lia.
Qed.

Lemma read_compressed_file_open (p : platform) (file : list Byte) :
  Main.read_compressed_file p (open_file file) = read_compressed_file p file.
Proof. reflexivity. Qed.

Lemma read_compressed_file_closed (p : platform) :
  Main.read_compressed_file p {| unread := []; good := false |} = Undefined.
Proof. reflexivity. Qed.

(** X16.  Neither command reports that its input file cannot be opened.
    [compress_to_file] ends with the exception [std::length_error], which
    nothing catches: the size of the file is read as [-1] and passed to
    [reserve].  The behaviour of [decompress_to_file] is undefined: no
    field of the header is read, and the number of table entries is used
    without a value. *)
Theorem unreadable_input_not_reported (p : platform) (fuel : nat)
    (from_file to_file : std_string) (w : Main.world) :
  Main.contents (Main.files w) from_file = None ->
  Main.compress_to_file p from_file to_file w
  = Main.Uncaught Main.length_error
  /\ Main.decompress_to_file p fuel from_file to_file w
     = Main.UndefinedBehaviour.
Proof.
  intros Hc. split.
  - unfold Main.compress_to_file.
    now rewrite read_uncompressed_file_None by exact Hc.
  - unfold Main.decompress_to_file, Main.compressed_stream. rewrite Hc.
    now rewrite read_compressed_file_closed.
Qed.

(** The world in which no file exists, every name can be written and
    nothing was printed. *)
Lemma unreadable_input_not_reported_witness :
  let w := {| Main.COMPRESSED_FILE_EXTENSION := [];
              Main.files := {| Main.contents := fun _ => None;
                               Main.writable := fun _ => true |};
              Main.cout := [] |} in
  Main.contents (Main.files w) ["a"%char] = None
  /\ Main.compress_to_file LP64 ["a"%char] ["b"%char] w
     = Main.Uncaught Main.length_error
  /\ Main.decompress_to_file LP64 0 ["a"%char] ["b"%char] w
     = Main.UndefinedBehaviour.
Proof.
  intros w. split; [reflexivity|].
  apply (unreadable_input_not_reported LP64 0 ["a"%char] ["b"%char] w).
  reflexivity.
Defined.

(** X17.  A file written by [write_uncompressed_file] and read by
    [read_uncompressed_file] gives the bytes that were written, if the
    file can be opened for writing and the number of bytes fits in an
    [int] and in a vector; no other file changes. *)
Theorem write_then_read_uncompressed_file (p : platform)
    (files : Main.filesystem) (filename : std_string) (data : list Byte) :
  Main.writable files filename = true ->
  Z.of_nat (length data) <= INT_MAX ->
  Z.of_nat (length data) <= Main.vector_max_size p ->
  let files' := Main.write_uncompressed_file data filename files in
  Main.read_uncompressed_file p files' filename = Main.Done data
  /\ forall other : std_string,
       other <> filename ->
       Main.contents files' other = Main.contents files other.
Proof.
  intros Hw Hint Hvec files'.
  assert (Hf : files'
               = {| Main.contents := fun name =>
                        if Main.string_eqb name filename then Some data
                        else Main.contents files name;
                    Main.writable := Main.writable files |}).
  { unfold files', Main.write_uncompressed_file, Main.ofstream_write.
    rewrite Hw, static_cast_int_small by lia.
    now rewrite Nat2Z.id, firstn_all. }
  rewrite Hf. split.
  - apply read_uncompressed_file_Some; [|exact Hvec].
    cbn [Main.contents]. now rewrite string_eqb_refl.
  - intros other Hne. cbn [Main.contents].
    apply string_eqb_neq in Hne. now rewrite Hne.
Qed.

Lemma write_then_read_uncompressed_file_witness :
  let files := {| Main.contents := fun _ => None;
                  Main.writable := fun _ => true |} in
  Main.writable files ["a"%char] = true
  /\ Z.of_nat (length AAAABBBB) <= INT_MAX
  /\ Z.of_nat (length AAAABBBB) <= Main.vector_max_size LP64
  /\ Main.read_uncompressed_file LP64
       (Main.write_uncompressed_file AAAABBBB ["a"%char] files) ["a"%char]
     = Main.Done AAAABBBB
  /\ forall other : std_string,
       other <> ["a"%char] ->
       Main.contents (Main.write_uncompressed_file AAAABBBB ["a"%char] files)
         other
       = Main.contents files other.
Proof.
  intros files.
  assert (H1 : Main.writable files ["a"%char] = true) by reflexivity.
  assert (H2 : Z.of_nat (length AAAABBBB) <= INT_MAX)
    by (vm_compute; discriminate).
  assert (H3 : Z.of_nat (length AAAABBBB) <= Main.vector_max_size LP64)
    by (vm_compute; discriminate).
  split; [exact H1|]. split; [exact H2|]. split; [exact H3|].
  apply (write_then_read_uncompressed_file LP64 files ["a"%char] AAAABBBB
           H1 H2 H3).
Defined.

(** * Runs of the program *)

(** ** The files that a run changes *)

Lemma ofstream_write_other (files : Main.filesystem)
    (filename name : std_string) (bytes : list Byte) :
  name <> filename ->
  Main.contents (Main.ofstream_write files filename bytes) name
  = Main.contents files name.
Proof.
  intros Hne. unfold Main.ofstream_write.
  destruct (Main.writable files filename); [|reflexivity].
  cbn [Main.contents]. apply string_eqb_neq in Hne. now rewrite Hne.
Qed.

Lemma ofstream_write_same (files : Main.filesystem) (filename : std_string)
    (bytes : list Byte) :
  Main.writable files filename = true ->
  Main.contents (Main.ofstream_write files filename bytes) filename
  = Some bytes.
Proof.
  intros Hw. unfold Main.ofstream_write. rewrite Hw.
  cbn [Main.contents]. now rewrite string_eqb_refl.
Qed.

Lemma ofstream_write_writable (files : Main.filesystem)
    (filename : std_string) (bytes : list Byte) :
  Main.writable (Main.ofstream_write files filename bytes)
  = Main.writable files.
Proof.
  unfold Main.ofstream_write.
  now destruct (Main.writable files filename).
Qed.

Lemma print_files (w : Main.world) (items : list Main.output) :
  Main.files (Main.print w items) = Main.files w.
Proof. reflexivity. Qed.

Lemma show_help_files (intended : bool) (w : Main.world) :
  Main.files (Main.show_help intended w) = Main.files w.
Proof. now destruct intended. Qed.

Lemma file_compressed_message_files (data_size compressed_size : Z)
    (filename : std_string) (w : Main.world) :
  Main.files (Main.file_compressed_message data_size compressed_size
                filename w)
  = Main.files w.
Proof.
  unfold Main.file_compressed_message.
  now destruct (compressed_size <? data_size).
Qed.

Lemma compress_to_file_frame (p : platform) (from_file to_file : std_string)
    (w w' : Main.world) (name : std_string) :
  Main.compress_to_file p from_file to_file w = Main.Done w' ->
  name <> Main.compressed_file_name (Main.COMPRESSED_FILE_EXTENSION w) to_file ->
  Main.contents (Main.files w') name = Main.contents (Main.files w) name.
Proof.
  unfold Main.compress_to_file. intros Hc Hne.
  destruct (Main.read_uncompressed_file p (Main.files w) from_file)
    as [data| | |]; cbn [Main.and_then] in Hc; try discriminate Hc.
  destruct (compress p data) as [[file size]| | |];
    cbn [Main.of_outcome Main.and_then] in Hc; try discriminate Hc.
  injection Hc as <-.
  rewrite file_compressed_message_files. cbn [Main.files].
  now apply ofstream_write_other.
Qed.

Lemma decompress_to_file_frame (p : platform) (fuel : nat)
    (from_file to_file : std_string) (w w' : Main.world) (name : std_string) :
  Main.decompress_to_file p fuel from_file to_file w = Main.Done w' ->
  name <> to_file ->
  Main.contents (Main.files w') name = Main.contents (Main.files w) name.
Proof.
  unfold Main.decompress_to_file. intros Hd Hne.
  destruct (Main.read_compressed_file p _) as [[[padding data] freqs]| | |];
    cbn [Main.of_outcome Main.and_then] in Hd; try discriminate Hd.
  destruct (decompress fuel _ padding freqs) as [decoded| | |];
    cbn [Main.of_outcome Main.and_then] in Hd; try discriminate Hd.
  injection Hd as <-. cbn [Main.files].
  unfold Main.write_uncompressed_file. now apply ofstream_write_other.
Qed.

(** X18.  A run of the program that ends returns 0 and changes at most
    one file.  When it compresses (two arguments, or [-c] or [--compress]
    and two arguments) that file is the one named last, under the name
    that ends in [".huff"]; when it decompresses ([-d] or
    [--decompress] and two arguments) it is the file named last, under the
    name given.  Every other file keeps its contents, and with any other
    command line no file changes. *)
Theorem main_changes_only_the_output_file (p : platform) (fuel : nat)
    (argv : list std_string) (w w' : Main.world) (status : Z) :
  Main.main p fuel argv w = Main.Done (w', status) ->
  let huff := ["."; "h"; "u"; "f"; "f"]%char in
  let only (name : std_string) :=
    forall other : std_string,
      other <> name ->
      Main.contents (Main.files w') other = Main.contents (Main.files w) other in
  let decompresses (flag : std_string) :=
    flag = ["-"; "d"]%char
    \/ flag = ["-"; "-"; "d"; "e"; "c"; "o"; "m"; "p"; "r"; "e"; "s"; "s"]%char in
  let compresses (flag : std_string) :=
    flag = ["-"; "c"]%char
    \/ flag = ["-"; "-"; "c"; "o"; "m"; "p"; "r"; "e"; "s"; "s"]%char in
  status = 0
  /\ match argv with
     | [_; _; to_file] => only (Main.compressed_file_name huff to_file)
     | [_; flag; _; to_file] =>
         (decompresses flag -> only to_file)
         /\ (~ decompresses flag -> compresses flag ->
             only (Main.compressed_file_name huff to_file))
         /\ (~ decompresses flag -> ~ compresses flag ->
             Main.files w' = Main.files w)
     | _ => Main.files w' = Main.files w
     end.
Proof.
  unfold Main.main. intros Hm. cbn zeta.
  set (w0 := {| Main.COMPRESSED_FILE_EXTENSION := _;
                Main.files := Main.files w;
                Main.cout := Main.cout w |}) in Hm.
  destruct (Main.handle_args p fuel argv w0) as [w1| | |] eqn:Hh;
    cbn [Main.and_then] in Hm; try discriminate Hm.
  injection Hm as <- <-. split; [reflexivity|].
  unfold Main.handle_args in Hh.
  destruct argv as [|a0 [|a1 [|a2 [|a3 [|a4 rest]]]]]; cbn [length nth] in Hh.
  - injection Hh as <-. now rewrite show_help_files.
  - injection Hh as <-. now rewrite show_help_files.
  - destruct (_ || _) in Hh; injection Hh as <-;
      [now rewrite show_help_files|reflexivity].
  - intros other Hne.
    apply (compress_to_file_frame p a1 a2 w0 w1 other Hh Hne).
  - destruct (Main.string_eqb a1 _ || Main.string_eqb a1 _) eqn:Ed in Hh.
    + apply orb_true_iff in Ed. rewrite !string_eqb_eq in Ed.
      split; [|split; intros Hn; destruct (Hn Ed)].
      intros _ other Hne.
      apply (decompress_to_file_frame p fuel a2 a3 w0 w1 other Hh Hne).
    + apply orb_false_iff in Ed. rewrite !string_eqb_neq in Ed.
      split; [intros [E|E]; [destruct (proj1 Ed E)|destruct (proj2 Ed E)]|].
      destruct (Main.string_eqb a1 _ || Main.string_eqb a1 _) eqn:Ec in Hh.
      * apply orb_true_iff in Ec. rewrite !string_eqb_eq in Ec.
        split; [|intros _ Hn; destruct (Hn Ec)].
        intros _ _ other Hne.
        apply (compress_to_file_frame p a2 a3 w0 w1 other Hh Hne).
      * apply orb_false_iff in Ec. rewrite !string_eqb_neq in Ec.
        injection Hh as <-.
        split; [|intros _ _; now rewrite show_help_files].
        intros _ [E|E]; [destruct (proj1 Ec E)|destruct (proj2 Ec E)].
  - injection Hh as <-. now rewrite show_help_files.
Qed.

(** The run [h i o] with a file [i] that holds [AAAABBBB]: it writes the
    file [o.huff]. *)
Lemma main_changes_only_the_output_file_witness :
  let w := {| Main.COMPRESSED_FILE_EXTENSION := [];
              Main.files :=
                {| Main.contents := fun name =>
                     if Main.string_eqb name ["i"%char] then Some AAAABBBB
                     else None;
                   Main.writable := fun _ => true |};
              Main.cout := [] |} in
  let argv := [["h"%char]; ["i"%char]; ["o"%char]] in
  let w' := match Main.main ILP32 0 argv w with
            | Main.Done (w', _) => w'
            | _ => w
            end in
  Main.main ILP32 0 argv w = Main.Done (w', 0)
  /\ Main.contents (Main.files w') ["o"; "."; "h"; "u"; "f"; "f"]%char
     <> Main.contents (Main.files w) ["o"; "."; "h"; "u"; "f"; "f"]%char
  /\ 0 = 0
  /\ forall other : std_string,
       other <> ["o"; "."; "h"; "u"; "f"; "f"]%char ->
       Main.contents (Main.files w') other = Main.contents (Main.files w) other.
Proof.
  intros w argv w'.
  assert (H1 : Main.main ILP32 0 argv w = Main.Done (w', 0))
    by (vm_compute; reflexivity).
  split; [exact H1|].
  split; [vm_compute; discriminate|].
  apply (main_changes_only_the_output_file ILP32 0 argv w w' 0 H1).
Defined.

(** ** Compressing a file and decompressing the result *)

Lemma main_compress (p : platform) (fuel : nat)
    (prog from_file to_file : std_string) (w : Main.world)
    (data file : list Byte) (size : Z) :
  Main.contents (Main.files w) from_file = Some data ->
  Z.of_nat (length data) <= Main.vector_max_size p ->
  compress p data = Returns (file, size) ->
  exists w1,
    Main.main p fuel [prog; from_file; to_file] w = Main.Done (w1, 0)
    /\ Main.files w1
       = Main.ofstream_write (Main.files w)
           (Main.compressed_file_name ["."; "h"; "u"; "f"; "f"]%char to_file)
           file.
Proof.
  intros Hc Hmax Hcomp.
  unfold Main.main, Main.handle_args. cbn [length nth].
  unfold Main.compress_to_file. cbn [Main.files Main.COMPRESSED_FILE_EXTENSION].
  rewrite (read_uncompressed_file_Some p _ _ data Hc Hmax).
  cbn [Main.and_then]. rewrite Hcomp. cbn [Main.of_outcome Main.and_then].
  eexists. split; [reflexivity|].
  now rewrite file_compressed_message_files.
Qed.

Lemma main_decompress (p : platform) (fuel : nat)
    (prog from_file to_file : std_string) (w : Main.world)
    (file decoded : list Byte) :
  Main.contents (Main.files w) from_file = Some file ->
  decompress_to_file p fuel file = Returns decoded ->
  exists w2,
    Main.main p fuel [prog; ["-"; "d"]%char; from_file; to_file] w
    = Main.Done (w2, 0)
    /\ Main.files w2
       = Main.write_uncompressed_file decoded to_file (Main.files w).
Proof.
  intros Hc Hd.
  unfold Main.main, Main.handle_args. cbn [length nth].
  match goal with
  | |- context [Main.string_eqb ?a ?b || ?c] =>
      change (Main.string_eqb a b || c) with true
  end.
  cbn iota.
  unfold Main.decompress_to_file, Main.compressed_stream.
  cbn [Main.files Main.COMPRESSED_FILE_EXTENSION Main.cout].
  rewrite Hc, read_compressed_file_open.
  unfold decompress_to_file in Hd.
  destruct (read_compressed_file p file) as [[[padding data] freqs]| | |];
    cbn [bind] in Hd; try discriminate Hd.
  cbn [Main.of_outcome Main.and_then].
  destruct (decompress fuel (bytes_to_bit_string data) padding freqs)
    as [result| | |]; cbn [bind] in Hd; try discriminate Hd.
  injection Hd as <-.
  cbn [Main.of_outcome Main.and_then].
  eexists. split; reflexivity.
Qed.

(** X19.  Two runs of the program compose to the round trip of the codec:
    if compressing the bytes of the input file and decompressing the
    container gives the bytes [r], then after the run that compresses the
    input file and the run that decompresses, with [-d], the file that
    the first run wrote, the output file of the second run holds [r].
    Both runs return 0. *)
Theorem compress_then_decompress_files (p : platform) (fuel : nat)
    (prog from_file to_file back : std_string) (w : Main.world)
    (data r : list Byte) :
  let compressed :=
    Main.compressed_file_name ["."; "h"; "u"; "f"; "f"]%char to_file in
  Main.contents (Main.files w) from_file = Some data ->
  Z.of_nat (length data) <= Main.vector_max_size p ->
  Main.writable (Main.files w) compressed = true ->
  Main.writable (Main.files w) back = true ->
  round_trip p fuel data = Returns r ->
  Z.of_nat (length r) <= INT_MAX ->
  exists w1 w2 : Main.world,
    Main.main p fuel [prog; from_file; to_file] w = Main.Done (w1, 0)
    /\ Main.main p fuel [prog; ["-"; "d"]%char; compressed; back] w1
       = Main.Done (w2, 0)
    /\ Main.contents (Main.files w2) back = Some r.
Proof.
  intros compressed Hc Hmax Hw1 Hw2 Hrt Hr.
  unfold round_trip in Hrt.
  destruct (compress p data) as [[file size]| | |] eqn:Hcomp;
    cbn [bind fst] in Hrt; try discriminate Hrt.
  destruct (main_compress p fuel prog from_file to_file w data file size
              Hc Hmax Hcomp) as (w1 & Hm1 & Hf1).
  fold compressed in Hf1.
  assert (Hc1 : Main.contents (Main.files w1) compressed = Some file).
  { rewrite Hf1. now apply ofstream_write_same. }
  destruct (main_decompress p fuel prog compressed back w1 file r Hc1 Hrt)
    as (w2 & Hm2 & Hf2).
  exists w1, w2. split; [exact Hm1|]. split; [exact Hm2|].
  rewrite Hf2. unfold Main.write_uncompressed_file.
  rewrite static_cast_int_small by lia.
  rewrite Nat2Z.id, firstn_all.
  apply ofstream_write_same.
  now rewrite Hf1, ofstream_write_writable.
Qed.

Lemma compress_then_decompress_files_witness :
  let w := {| Main.COMPRESSED_FILE_EXTENSION := [];
              Main.files :=
                {| Main.contents := fun name =>
                     if Main.string_eqb name ["i"%char]
                     then Some ["A"; "B"; "C"; "A"]%byte
                     else None;
                   Main.writable := fun _ => true |};
              Main.cout := [] |} in
  let compressed :=
    Main.compressed_file_name ["."; "h"; "u"; "f"; "f"]%char ["o"%char] in
  Main.contents (Main.files w) ["i"%char] = Some ["A"; "B"; "C"; "A"]%byte
  /\ Z.of_nat (length ["A"; "B"; "C"; "A"]%byte) <= Main.vector_max_size ILP32
  /\ Main.writable (Main.files w) compressed = true
  /\ Main.writable (Main.files w) ["b"%char] = true
  /\ round_trip ILP32 4 ["A"; "B"; "C"; "A"]%byte
     = Returns ["A"; "B"; "C"]%byte
  /\ Z.of_nat (length ["A"; "B"; "C"]%byte) <= INT_MAX
  /\ exists w1 w2 : Main.world,
       Main.main ILP32 4 [["h"%char]; ["i"%char]; ["o"%char]] w
       = Main.Done (w1, 0)
       /\ Main.main ILP32 4
            [["h"%char]; ["-"; "d"]%char; compressed; ["b"%char]] w1
          = Main.Done (w2, 0)
       /\ Main.contents (Main.files w2) ["b"%char]
          = Some ["A"; "B"; "C"]%byte.
Proof.
  intros w compressed.
  assert (H1 : Main.contents (Main.files w) ["i"%char]
               = Some ["A"; "B"; "C"; "A"]%byte) by reflexivity.
  assert (H2 : Z.of_nat (length ["A"; "B"; "C"; "A"]%byte)
               <= Main.vector_max_size ILP32) by (vm_compute; discriminate).
  assert (H3 : Main.writable (Main.files w) compressed = true)
    by reflexivity.
  assert (H4 : Main.writable (Main.files w) ["b"%char] = true)
    by reflexivity.
  assert (H5 : round_trip ILP32 4 ["A"; "B"; "C"; "A"]%byte
               = Returns ["A"; "B"; "C"]%byte) by (vm_compute; reflexivity).
  assert (H6 : Z.of_nat (length ["A"; "B"; "C"]%byte) <= INT_MAX)
    by (vm_compute; discriminate).
  split; [exact H1|]. split; [exact H2|]. split; [exact H3|].
  split; [exact H4|]. split; [exact H5|]. split; [exact H6|].
  apply (compress_then_decompress_files ILP32 4 ["h"%char] ["i"%char]
           ["o"%char] ["b"%char] w ["A"; "B"; "C"; "A"]%byte
           ["A"; "B"; "C"]%byte H1 H2 H3 H4 H5 H6).
Defined.

(** * The decoder on arbitrary bits *)

(** X20.  [decode] inverts the substitution table one code at a time: where
    the string holds the code of a byte at the position after [index],
    whatever follows it, [decode] appends that byte and leaves [index] on
    the last character of the code. *)
Theorem decode_reads_one_code (root : HuffmanNode) (b : Byte)
    (code pre rest : std_string) (decoded : list Byte) :
  StdMap.find b (create_substitution_table root [] []) = Some code ->
  Z.of_nat (length pre + length code) <= INT_MAX ->
  decode root (Z.of_nat (length pre) - 1) (pre ++ code ++ rest) decoded
  = Returns (Z.of_nat (length pre) + Z.of_nat (length code) - 1,
             decoded ++ [b]).
Proof.
  intros Hcode Hmax. apply table_entry_leaf_path in Hcode.
  rewrite (decode_leaf_path root b code Hcode pre rest decoded Hmax).
  do 2 f_equal. lia.
Qed.

Lemma decode_reads_one_code_witness :
  StdMap.find "C"%byte
    (create_substitution_table
       (Node NULL_CHAR 4 (new_leaf "A" 2)
          (Node NULL_CHAR 2 (new_leaf "B" 1) (new_leaf "C" 1))) [] [])
  = Some ["1"; "1"]%char
  /\ Z.of_nat (length ["0"%char] + length ["1"; "1"]%char) <= INT_MAX
  /\ decode
       (Node NULL_CHAR 4 (new_leaf "A" 2)
          (Node NULL_CHAR 2 (new_leaf "B" 1) (new_leaf "C" 1)))
       (Z.of_nat (length ["0"%char]) - 1)
       (["0"%char] ++ ["1"; "1"]%char ++ ["0"; "1"; "0"]%char) ["A"%byte]
     = Returns (Z.of_nat (length ["0"%char])
                + Z.of_nat (length ["1"; "1"]%char) - 1,
                ["A"%byte] ++ ["C"%byte]).
Proof.
  assert (H1 : StdMap.find "C"%byte
                 (create_substitution_table
                    (Node NULL_CHAR 4 (new_leaf "A" 2)
                       (Node NULL_CHAR 2 (new_leaf "B" 1) (new_leaf "C" 1)))
                    [] [])
               = Some ["1"; "1"]%char) by reflexivity.
  assert (H2 : Z.of_nat (length ["0"%char] + length ["1"; "1"]%char)
               <= INT_MAX) by (vm_compute; discriminate).
  split; [exact H1|]. split; [exact H2|].
  apply (decode_reads_one_code _ "C"%byte ["1"; "1"]%char ["0"%char]
           ["0"; "1"; "0"]%char ["A"%byte] H1 H2).
Defined.

(** ** What [decompress] can return *)

(** [decode] appends at most one byte, the byte of a leaf. *)
Lemma decode_appends (root : HuffmanNode) :
  forall (index : Z) (str : std_string) (decoded : list Byte)
         (index' : Z) (decoded' : list Byte),
    decode root index str decoded = Returns (index', decoded') ->
    decoded' = decoded
    \/ exists b, In b (leaves root) /\ decoded' = decoded ++ [b].
Proof.
  induction root as [|b0 f l IHl r IHr];
    intros index str decoded index' decoded' Hd; cbn [decode] in Hd.
  - injection Hd as <- <-. now left.
  - destruct (is_null l && is_null r) eqn:E.
    + injection Hd as <- <-. right. exists b0. split; [|reflexivity].
      unfold leaves. rewrite leaf_paths_leaf by exact E. now left.
    + destruct (index =? INT_MAX); [discriminate Hd|].
      destruct (string_at str (index + 1)) as [c| | |]; cbn [bind] in Hd;
        try discriminate Hd.
      assert (Hsub : forall b, In b (leaves l) \/ In b (leaves r) ->
                In b (leaves (Node b0 f l r))).
      { intros b Hb. unfold leaves in *.
        rewrite leaf_paths_internal by exact E.
        rewrite map_app, !map_map. cbn [fst].
        apply in_or_app. exact Hb. }
      destruct (Ascii.eqb c LEFT_CHAR).
      * destruct (IHl _ _ _ _ _ Hd) as [->|(b & Hb & ->)]; [now left|].
        right. exists b. split; [apply Hsub; now left|reflexivity].
      * destruct (IHr _ _ _ _ _ Hd) as [->|(b & Hb & ->)]; [now left|].
        right. exists b. split; [apply Hsub; now right|reflexivity].
Qed.

Lemma static_cast_int_le (z : Z) : 0 <= z -> static_cast_int z <= z.
Proof.
  intros Hz. unfold static_cast_int, UINT32_MOD.
  pose proof (Z.mod_le (z + 2 ^ 31) (2 ^ 32) ltac:(lia) ltac:(lia)). lia.
Qed.

(** The loop of [decompress] with a tree that is not a single leaf: the
    bytes it returns are leaves of the tree, and there are fewer of them
    than the string has characters. *)
Lemma decompress_loop_output (P : Byte -> Prop) (fuel : nat)
    (root : HuffmanNode) (bits : std_string) :
  is_null root = false -> is_leaf root = false ->
  (forall b, In b (leaves root) -> P b) ->
  forall (index : Z) (decoded result : list Byte),
    decompress_loop fuel root index bits decoded = Returns result ->
    Forall P decoded ->
    Z.of_nat (length decoded)
    <= Z.min (index + 1)
         (Z.max 0 (static_cast_int (Z.of_nat (length bits)) - 1)) ->
    Forall P result
    /\ Z.of_nat (length result)
       <= Z.max 0 (static_cast_int (Z.of_nat (length bits)) - 1).
Proof.
  intros Hnull Hleaf HP.
  induction fuel as [|fuel IH]; intros index decoded result Hl Hall Hlen;
    rewrite decompress_loop_unfold in Hl; cbn zeta in Hl;
    destruct (_ <? INT_MIN + 2); try discriminate Hl;
    destruct (index <? _) eqn:E; try discriminate Hl.
  - injection Hl as <-. split; [exact Hall|lia].
  - apply Z.ltb_lt in E.
    pose proof (decode_progress root index bits decoded Hnull Hleaf) as Hp.
    destruct (decode root index bits decoded) as [[index' d]| | |] eqn:Hd;
      cbn [bind fst snd] in Hl; try discriminate Hl.
    apply (IH index' d result Hl).
    + destruct (decode_appends root _ _ _ _ _ Hd) as [->|(b & Hb & ->)];
        [exact Hall|].
      apply Forall_app. split; [exact Hall|].
      constructor; [now apply HP|constructor].
    + destruct (decode_appends root _ _ _ _ _ Hd) as [->|(b & Hb & ->)];
        [lia|].
      rewrite length_app. cbn [length]. lia.
  - injection Hl as <-. split; [exact Hall|lia].
Qed.

(** X21.  Whatever the bits and the table are, when [decompress] returns,
    every byte of its result is a byte of the frequency table, and the
    result has no more bytes than the string has characters once the
    padding is erased: the decoded data is never longer than eight times
    the packed data. *)
Theorem decompress_output_bounded (fuel : nat) (bits : std_string)
    (padding : Z) (frequencies : StdMap.t Z) (decoded : list Byte)
    (bits' : std_string) :
  decompress fuel bits padding frequencies = Returns (decoded, bits') ->
  Forall (fun b => In b (StdMap.keys frequencies)) decoded
  /\ (length decoded <= length bits')%nat
  /\ (length bits' <= length bits)%nat.
Proof.
  intros Hd.
  assert (Hne : frequencies <> []).
  { intros ->. discriminate Hd. }
  destruct (build_huffman_tree_spec frequencies Hne)
    as (root & Hb & Hfull & Hleaves & Hleaf).
  unfold decompress in Hd. rewrite Hb in Hd. cbn [bind] in Hd.
  unfold erase_padding in Hd.
  destruct (_ <? padding); cbn [bind] in Hd; [discriminate Hd|].
  set (erased := take (length bits - Z.to_nat padding) bits) in *.
  destruct (decompress_loop fuel root (-1) erased []) as [result| | |] eqn:Hl;
    cbn [bind] in Hd; try discriminate Hd.
  injection Hd as <- <-.
  assert (Hshort : (length erased <= length bits)%nat).
  { unfold erased. rewrite length_take. lia. }
  assert (Hcast : static_cast_int (Z.of_nat (length erased))
                  <= Z.of_nat (length erased))
    by (apply static_cast_int_le; lia).
  destruct (is_leaf root) eqn:Eleaf.
  - (* a single leaf: the loop returns only if it is not entered *)
    destruct (static_cast_int (Z.of_nat (length erased)) <? INT_MIN + 2) eqn:E1;
      [rewrite decompress_loop_unfold in Hl; cbn zeta in Hl;
       rewrite E1 in Hl; discriminate Hl|].
    destruct (-1 <? static_cast_int (Z.of_nat (length erased)) - 2) eqn:E2.
    + apply Z.ltb_ge in E1. apply Z.ltb_lt in E2.
      rewrite decompress_loop_leaf_diverges in Hl by (assumption || lia).
      discriminate Hl.
    + rewrite decompress_loop_unfold in Hl. cbn zeta in Hl.
      rewrite E1, E2 in Hl.
      injection Hl as <-. split; [constructor|]. cbn [length]. lia.
  - destruct (decompress_loop_output
                (fun b => In b (StdMap.keys frequencies)) fuel root erased
                (full_not_null root Hfull) Eleaf)
      with (index := -1) (decoded := @nil Byte) (result := result)
      as [Hall Hlen].
    + intros b Hin. now rewrite <- Hleaves.
    + exact Hl.
    + constructor.
    + cbn [length]. lia.
    + split; [exact Hall|]. lia.
Qed.

Lemma decompress_output_bounded_witness :
  decompress 7 bits_AAAABBBB_padded 8 [("A"%byte, 4); ("B"%byte, 4)]
  = Returns (["A"; "A"; "A"; "A"; "B"; "B"; "B"]%byte,
             take 8 bits_AAAABBBB_padded)
  /\ Forall (fun b => In b (StdMap.keys [("A"%byte, 4); ("B"%byte, 4)]))
       ["A"; "A"; "A"; "A"; "B"; "B"; "B"]%byte
  /\ (length ["A"; "A"; "A"; "A"; "B"; "B"; "B"]%byte
      <= length (take 8 bits_AAAABBBB_padded))%nat
  /\ (length (take 8 bits_AAAABBBB_padded)
      <= length bits_AAAABBBB_padded)%nat.
Proof.
  assert (H : decompress 7 bits_AAAABBBB_padded 8
                [("A"%byte, 4); ("B"%byte, 4)]
              = Returns (["A"; "A"; "A"; "A"; "B"; "B"; "B"]%byte,
                         take 8 bits_AAAABBBB_padded))
    by (vm_compute; reflexivity).
  split; [exact H|].
  apply (decompress_output_bounded 7 bits_AAAABBBB_padded 8
           [("A"%byte, 4); ("B"%byte, 4)] _ _ H).
Defined.

(** * The tree of [build_huffman_tree] gives a shortest encoding *)

(** ** Lengths that satisfy Kraft's inequality *)

Lemma lengths_cost_cons (w : Z) (d : nat) (P : list (Z * nat)) :
  lengths_cost ((w, d) :: P) = w * Z.of_nat d + lengths_cost P.
Proof. reflexivity. Qed.

Lemma kraft_sum_cons (H : nat) (w : Z) (d : nat) (P : list (Z * nat)) :
  kraft_sum H ((w, d) :: P) = 2 ^ Z.of_nat (H - d) + kraft_sum H P.
Proof. reflexivity. Qed.

Lemma lengths_cost_perm (P P' : list (Z * nat)) :
  P ≡ₚ P' -> lengths_cost P = lengths_cost P'.
Proof.
  induction 1 as [|[w d] P P' _ IH|[w d] [w' d'] P|P P' P'' _ IH1 _ IH2];
    rewrite ?lengths_cost_cons; [reflexivity|lia|lia|congruence].
Qed.

Lemma kraft_sum_perm (H : nat) (P P' : list (Z * nat)) :
  P ≡ₚ P' -> kraft_sum H P = kraft_sum H P'.
Proof.
  induction 1 as [|[w d] P P' _ IH|[w d] [w' d'] P|P P' P'' _ IH1 _ IH2];
    rewrite ?kraft_sum_cons; [reflexivity|lia|lia|congruence].
Qed.

Lemma kraft_sum_nonneg (H : nat) (P : list (Z * nat)) : 0 <= kraft_sum H P.
Proof.
  induction P as [|[w d] P IH]; [reflexivity|].
  rewrite kraft_sum_cons.
  pose proof (Z.pow_pos_nonneg 2 (Z.of_nat (H - d)) ltac:(lia) ltac:(lia)).
  lia.
Qed.

Lemma lengths_cost_nonneg (P : list (Z * nat)) :
  Forall (fun e => 0 <= fst e) P -> 0 <= lengths_cost P.
Proof.
  induction 1 as [|[w d] P Hw _ IH]; [reflexivity|].
  rewrite lengths_cost_cons. cbn [fst] in Hw. nia.
Qed.

(** With all lengths at most [D], the sum for [H] is that for [D] times
    [2 ^ (H - D)]. *)
Lemma kraft_sum_scale (H D : nat) (P : list (Z * nat)) :
  (D <= H)%nat -> Forall (fun e => (snd e <= D)%nat) P ->
  kraft_sum H P = 2 ^ Z.of_nat (H - D) * kraft_sum D P.
Proof.
  intros HD. induction 1 as [|[w d] P Hd _ IH]; [cbn; lia|].
  rewrite !kraft_sum_cons, IH. cbn [snd] in Hd.
  rewrite Z.mul_add_distr_l, <- Z.pow_add_r by lia.
  do 2 f_equal. lia.
Qed.

(** The exchange: the weight [a], which is not greater than any weight of
    [Q], takes the greatest length; the cost does not grow and the sum of
    Kraft's inequality stays. *)
Lemma bubble_spec (a : Z) (Q : list (Z * nat)) :
  Forall (fun e => a <= fst e) Q ->
  forall d : nat,
    let '(d', Q') := bubble d Q in
    map fst Q' = map fst Q
    /\ Forall (fun e => (snd e <= d')%nat) Q'
    /\ (d <= d')%nat
    /\ (forall H : nat,
          (d <= H)%nat -> Forall (fun e => (snd e <= H)%nat) Q ->
          (d' <= H)%nat
          /\ kraft_sum H ((a, d') :: Q') = kraft_sum H ((a, d) :: Q))
    /\ lengths_cost ((a, d') :: Q') <= lengths_cost ((a, d) :: Q).
Proof.
  induction 1 as [|[w dw] Q Hw _ IH]; intros d; cbn [bubble].
  - split; [reflexivity|]. split; [constructor|]. split; [lia|].
    split; [|lia]. intros H Hd _. split; [lia|reflexivity].
  - specialize (IH (Nat.max d dw)).
    destruct (bubble (Nat.max d dw) Q) as [d' Q'].
    destruct IH as (Hmap & Hall & Hle & Hk & Hc). cbn [fst] in Hw.
    split; [cbn [map fst]; now rewrite Hmap|].
    split; [constructor; [cbn [snd]; lia|exact Hall]|].
    split; [lia|]. split.
    + intros H Hd HQ. inversion HQ as [|? ? Hdw HQ']; subst. cbn [snd] in Hdw.
      destruct (Hk H ltac:(lia) HQ') as [Hd' Hks].
      split; [exact Hd'|].
      rewrite !kraft_sum_cons in *.
      destruct (Nat.max_spec d dw) as [[? Emax]|[? Emax]];
        destruct (Nat.min_spec d dw) as [[? Emin]|[? Emin]];
        rewrite Emax in Hks; rewrite Emin; try lia.
    + rewrite !lengths_cost_cons in *.
      destruct (Nat.max_spec d dw) as [[? Emax]|[? Emax]];
        destruct (Nat.min_spec d dw) as [[? Emin]|[? Emin]];
        rewrite Emax in Hc; rewrite Emin; try lia; nia.
Qed.

(** The step of the proof: in a code in which [a] and [b] are the two
    least weights, [a] and [b] can be replaced by the one weight [a + b],
    with a cost that is less by [a + b] at least. *)
Lemma merge_least_two (a b : Z) (da db : nat) (R : list (Z * nat)) (H : nat) :
  0 <= a <= b ->
  Forall (fun e => b <= fst e) R ->
  (da <= H)%nat -> (db <= H)%nat ->
  Forall (fun e => (snd e <= H)%nat) R ->
  kraft_sum H ((a, da) :: (b, db) :: R) <= 2 ^ Z.of_nat H ->
  exists (d' : nat) (R' : list (Z * nat)),
    map fst R' = map fst R
    /\ (d' <= H)%nat
    /\ Forall (fun e => (snd e <= H)%nat) R'
    /\ kraft_sum H ((a + b, d') :: R') <= 2 ^ Z.of_nat H
    /\ lengths_cost ((a + b, d') :: R') + a + b
       <= lengths_cost ((a, da) :: (b, db) :: R).
Proof.
  intros Hab HR Hda Hdb HRH Hk.
  (* [a] takes the greatest length *)
  pose proof (bubble_spec a ((b, db) :: R)) as B1.
  specialize (B1 ltac:(constructor; [cbn [fst]; lia|];
                       eapply Forall_impl; [exact HR|];
                       cbn beta; intros; lia) da).
  cbn [bubble] in B1.
  destruct (bubble (Nat.max da db) R) as [D1 R1] eqn:E1.
  destruct B1 as (Hmap1 & Hall1 & Hle1 & Hk1 & Hc1).
  destruct (Hk1 H Hda ltac:(constructor; [exact Hdb|exact HRH]))
    as [HD1 Hks1].
  inversion Hall1 as [|? ? Hmin1 Hall1']; subst. cbn [snd] in Hmin1.
  cbn [map fst] in Hmap1. injection Hmap1 as Hmap1.
  (* [b] takes the greatest of the other lengths *)
  pose proof (bubble_spec b R1) as B2.
  specialize (B2 ltac:(apply List.Forall_forall; intros e He;
                       assert (In (fst e) (map fst R1))
                         by (apply in_map; exact He);
                       rewrite Hmap1 in *;
                       match goal with
                       | Hi : In _ (map fst R) |- _ =>
                           apply in_map_iff in Hi;
                           destruct Hi as (e' & <- & He')
                       end;
                       rewrite List.Forall_forall in HR; now apply HR)
                 (Nat.min da db)).
  destruct (bubble (Nat.min da db) R1) as [D2 R2] eqn:E2.
  destruct B2 as (Hmap2 & Hall2 & Hle2 & Hk2 & Hc2).
  assert (HR1D : Forall (fun e => (snd e <= D1)%nat) R1) by exact Hall1'.
  destruct (Hk2 D1 Hmin1 HR1D) as [HD2 _].
  assert (HR1H : Forall (fun e => (snd e <= H)%nat) R1).
  { eapply Forall_impl; [exact HR1D|]. cbn beta. intros. lia. }
  destruct (Hk2 H ltac:(lia) HR1H) as [_ Hks2].
  (* the sums and the costs so far *)
  assert (Hk' : kraft_sum H ((a, D1) :: (b, D2) :: R2) <= 2 ^ Z.of_nat H).
  { rewrite (kraft_sum_cons H a D1), Hks2.
    rewrite <- (kraft_sum_cons H a D1 ((b, Nat.min da db) :: R1)), Hks1.
    exact Hk. }
  assert (Hc' : lengths_cost ((a, D1) :: (b, D2) :: R2)
                <= lengths_cost ((a, da) :: (b, db) :: R)).
  { rewrite (lengths_cost_cons a D1) in Hc1 |- *. lia. }
  clear Hks1 Hks2 Hc1 Hc2 Hk1 Hk2.
  rewrite !kraft_sum_cons in Hk'. rewrite !lengths_cost_cons in Hc'.
  pose proof (kraft_sum_scale H D2 R2 ltac:(lia) Hall2) as Hscale.
  pose proof (kraft_sum_nonneg D2 R2) as Hnn.
  set (u := 2 ^ Z.of_nat (H - D2)) in *.
  set (S2 := kraft_sum D2 R2) in *.
  assert (Hu : 0 < u) by (apply Z.pow_pos_nonneg; lia).
  assert (Hv : 0 < 2 ^ Z.of_nat (H - D1)) by (apply Z.pow_pos_nonneg; lia).
  assert (HH : 2 ^ Z.of_nat H = u * 2 ^ Z.of_nat D2).
  { unfold u. rewrite <- Z.pow_add_r by lia. f_equal. lia. }
  rewrite Hscale, HH in Hk'.
  assert (Hlt : S2 + 1 < 2 ^ Z.of_nat D2) by nia.
  assert (HD2pos : (1 <= D2)%nat).
  { destruct D2 as [|D2]; [|lia]. change (2 ^ Z.of_nat 0) with 1 in Hlt. lia. }
  exists (D2 - 1)%nat, R2.
  split; [now rewrite Hmap2|]. split; [lia|].
  split; [eapply Forall_impl; [exact Hall2|]; cbn beta; intros; lia|].
  split.
  - rewrite kraft_sum_cons, Hscale, HH.
    replace (2 ^ Z.of_nat (H - (D2 - 1))) with (2 * u).
    + nia.
    + unfold u. replace (Z.of_nat (H - (D2 - 1))) with (Z.of_nat (H - D2) + 1)
        by lia.
      rewrite Z.pow_add_r by lia. lia.
  - rewrite !lengths_cost_cons.
    replace (Z.of_nat (D2 - 1)) with (Z.of_nat D2 - 1) by lia.
    assert (Z.of_nat D2 <= Z.of_nat D1) by lia. nia.
Qed.

(** ** What the greedy merge keeps *)

Lemma sum_inner_cost_cons (x : HuffmanNode) (q : list HuffmanNode) :
  sum_inner_cost (x :: q) = inner_cost x + sum_inner_cost q.
Proof. reflexivity. Qed.

Lemma sum_inner_cost_perm (q q' : list HuffmanNode) :
  q ≡ₚ q' -> sum_inner_cost q = sum_inner_cost q'.
Proof.
  induction 1; rewrite ?sum_inner_cost_cons; [reflexivity|lia|lia|congruence].
Qed.

Lemma sum_freq_nonneg (q : list HuffmanNode) :
  Forall (fun x => 0 <= freq_of x) q -> 0 <= sum_freq q.
Proof.
  induction 1 as [|x q Hx _ IH]; [reflexivity|].
  rewrite sum_freq_cons. lia.
Qed.

Lemma inner_cost_new_internal (l r : HuffmanNode) :
  full l ->
  inner_cost (new_internal l r)
  = freq_of l + freq_of r + inner_cost l + inner_cost r.
Proof.
  intros Fl. unfold new_internal. cbn [inner_cost].
  now rewrite (full_not_null l Fl).
Qed.

(** Without overflow the node that a round puts back is as the nodes it
    was made of. *)
Lemma counted_new_internal (count : Byte -> Z) (l r : HuffmanNode) :
  counted count l -> counted count r ->
  freq_of l + freq_of r < UINT32_MOD ->
  counted count (new_internal l r)
  /\ freq_of (new_internal l r) = freq_of l + freq_of r.
Proof.
  intros (Fl & Sl & Ll & Nl) (Fr & Sr & Lr & Nr) Hsum.
  assert (Hf : freq_of (new_internal l r) = freq_of l + freq_of r).
  { rewrite freq_of_new_internal. apply to_uint32_small. lia. }
  split; [|exact Hf]. unfold counted.
  split; [now apply full_new_internal|].
  rewrite Hf. unfold new_internal. cbn [sums_ok leaves_hold].
  rewrite (full_not_null l Fl). cbn [andb].
  split; [|split; [now split|lia]].
  split; [now apply to_uint32_small; lia|now split].
Qed.

Lemma greedy_step_counted (count : Byte -> Z)
    (queue queue' rest : list HuffmanNode) (l r : HuffmanNode) :
  queue ≡ₚ l :: r :: rest ->
  queue' ≡ₚ new_internal l r :: rest ->
  Forall (counted count) queue ->
  sum_freq queue < UINT32_MOD ->
  Forall (counted count) queue'
  /\ sum_freq queue' = sum_freq queue
  /\ counted count l /\ counted count r
  /\ freq_of (new_internal l r) = freq_of l + freq_of r.
Proof.
  intros Hq Hq' Hall Hsum.
  eapply Permutation_Forall in Hall; [|exact Hq].
  inversion Hall as [|? ? Cl Hall1]; subst.
  inversion Hall1 as [|? ? Cr Hrest]; subst.
  rewrite (sum_freq_perm _ _ Hq), !sum_freq_cons in Hsum.
  assert (Hnn : 0 <= sum_freq rest).
  { apply sum_freq_nonneg. eapply Forall_impl; [exact Hrest|].
    cbn beta. intros x Hx. apply Hx. }
  destruct (counted_new_internal count l r Cl Cr) as [Cn Hf]; [lia|].
  split; [|split; [|split; [exact Cl|split; [exact Cr|exact Hf]]]].
  - eapply Permutation_Forall; [symmetry; exact Hq'|]. now constructor.
  - rewrite (sum_freq_perm _ _ Hq'), (sum_freq_perm _ _ Hq), !sum_freq_cons.
    lia.
Qed.

Lemma greedy_merge_counted (count : Byte -> Z) (queue : list HuffmanNode)
    (root : HuffmanNode) :
  greedy_merge queue root ->
  Forall (counted count) queue ->
  sum_freq queue < UINT32_MOD ->
  counted count root.
Proof.
  induction 1 as [x|queue queue' rest l r root Hq Hl Hr Hq' Hg IH];
    intros Hall Hsum.
  - now inversion Hall.
  - destruct (greedy_step_counted count queue queue' rest l r Hq Hq' Hall Hsum)
      as (Hall' & Hsum' & _).
    apply IH; [exact Hall'|lia].
Qed.

(** ** The greedy merge against every assignment of lengths *)

Lemma Forall_map_fst (b : Z) (R : list (Z * nat)) (ws : list Z) :
  map fst R = ws -> Forall (fun w => b <= w) ws ->
  Forall (fun e => b <= fst e) R.
Proof.
  intros <- Hall. apply List.Forall_forall. intros e He.
  rewrite List.Forall_forall in Hall. apply Hall. now apply in_map.
Qed.

Lemma greedy_merge_optimal (count : Byte -> Z) (queue : list HuffmanNode)
    (root : HuffmanNode) :
  greedy_merge queue root ->
  Forall (counted count) queue ->
  sum_freq queue < UINT32_MOD ->
  forall (H : nat) (P : list (Z * nat)),
    map fst P ≡ₚ map freq_of queue ->
    Forall (fun e => (snd e <= H)%nat) P ->
    kraft_sum H P <= 2 ^ Z.of_nat H ->
    inner_cost root - sum_inner_cost queue <= lengths_cost P.
Proof.
  induction 1 as [x|queue queue' rest l r root Hq Hl Hr Hq' Hg IH];
    intros Hall Hsum H P Hperm Hlen Hk.
  - rewrite sum_inner_cost_cons. change (sum_inner_cost []) with 0.
    assert (0 <= lengths_cost P); [|lia].
    apply lengths_cost_nonneg.
    apply List.Forall_forall. intros e He.
    assert (Hin : In (fst e) (map fst P)) by now apply in_map.
    rewrite Hperm in Hin. destruct Hin as [<-|[]].
    inversion Hall as [|? ? Cx _]; subst. apply Cx.
  - destruct (greedy_step_counted count queue queue' rest l r Hq Hq' Hall Hsum)
      as (Hall' & Hsum' & Cl & Cr & Hf).
    (* the lengths that [P] gives to [l], to [r] and to the rest *)
    assert (Hperm' : freq_of l :: freq_of r :: map freq_of rest ≡ₚ map fst P).
    { rewrite Hperm, Hq. reflexivity. }
    apply Permutation_map_inv in Hperm'.
    destruct Hperm' as (P3 & Hmap & HP3).
    destruct P3 as [|[w1 d1] [|[w2 d2] R]]; try discriminate Hmap.
    cbn [map fst] in Hmap. injection Hmap as <- <- Hmap.
    eapply Permutation_Forall in Hlen; [|exact HP3].
    inversion Hlen as [|? ? Hd1 Hlen1]; subst.
    inversion Hlen1 as [|? ? Hd2 HlenR]; subst. cbn [snd] in Hd1, Hd2.
    rewrite (kraft_sum_perm H _ _ HP3) in Hk.
    rewrite (lengths_cost_perm _ _ HP3).
    inversion Hl as [|? ? Hlr Hlrest]; subst.
    destruct (merge_least_two (freq_of l) (freq_of r) d1 d2 R H)
      as (d' & R' & Hmap' & Hd' & HlenR' & Hk' & Hc');
      [split; [apply Cl|exact Hlr]
      |eapply Forall_map_fst; [symmetry; exact Hmap|];
       apply Forall_map; exact Hr
      |exact Hd1|exact Hd2|exact HlenR|exact Hk|].
    specialize (IH Hall' ltac:(lia) H ((freq_of l + freq_of r, d') :: R')).
    rewrite (sum_inner_cost_perm _ _ Hq'), sum_inner_cost_cons in IH.
    rewrite inner_cost_new_internal in IH by apply Cl.
    rewrite (sum_inner_cost_perm _ _ Hq), !sum_inner_cost_cons.
    assert (inner_cost root
            - (freq_of l + freq_of r + inner_cost l + inner_cost r
               + sum_inner_cost rest)
            <= lengths_cost ((freq_of l + freq_of r, d') :: R')); [|lia].
    apply IH.
    + cbn [map fst]. rewrite Hmap', <- Hmap, <- Hf.
      change (freq_of (new_internal l r) :: map freq_of rest)
        with (map freq_of (new_internal l r :: rest)).
      now rewrite Hq'.
    + constructor; [exact Hd'|exact HlenR'].
    + exact Hk'.
Qed.

(** ** The cost of a tree and the lengths of its codes *)

Lemma leaf_weight_cons (count : Byte -> Z) (k : Byte) (c : std_string)
    (p : StdMap.t std_string) :
  leaf_weight count ((k, c) :: p) = count k + leaf_weight count p.
Proof. reflexivity. Qed.

Lemma leaf_weight_app (count : Byte -> Z) (p q : StdMap.t std_string) :
  leaf_weight count (p ++ q) = leaf_weight count p + leaf_weight count q.
Proof.
  induction p as [|[k c] p IH]; [reflexivity|].
  cbn [app]. rewrite !leaf_weight_cons, IH. lia.
Qed.

Lemma leaf_weight_map_cons (count : Byte -> Z) (c : ascii)
    (p : StdMap.t std_string) :
  leaf_weight count (map (fun e => (fst e, c :: snd e)) p)
  = leaf_weight count p.
Proof.
  induction p as [|[k s] p IH]; [reflexivity|].
  cbn [map fst snd]. now rewrite !leaf_weight_cons, IH.
Qed.

Lemma weighted_length_app (count : Byte -> Z) (p q : StdMap.t std_string) :
  weighted_length count (p ++ q)
  = weighted_length count p + weighted_length count q.
Proof.
  induction p as [|[k c] p IH]; [reflexivity|].
  cbn [app]. rewrite !weighted_length_cons, IH. lia.
Qed.

Lemma weighted_length_map_cons (count : Byte -> Z) (c : ascii)
    (p : StdMap.t std_string) :
  weighted_length count (map (fun e => (fst e, c :: snd e)) p)
  = weighted_length count p + leaf_weight count p.
Proof.
  induction p as [|[k s] p IH]; [reflexivity|].
  cbn [map fst snd]. rewrite !weighted_length_cons, IH, leaf_weight_cons.
  cbn [length]. rewrite Nat2Z.inj_succ. nia.
Qed.

Lemma weighted_length_perm (count : Byte -> Z) (p q : StdMap.t std_string) :
  p ≡ₚ q -> weighted_length count p = weighted_length count q.
Proof.
  induction 1 as [|[k c] p q _ IH|[k c] [k' c'] p|p q s _ IH1 _ IH2];
    rewrite ?weighted_length_cons; [reflexivity|lia|lia|congruence].
Qed.

(** In a tree that the greedy merge built, the frequency of a node is the
    sum of the counts of the bytes below it, and [inner_cost] is the sum
    of the counts times the lengths of the codes. *)
Lemma inner_cost_leaf_paths (count : Byte -> Z) (p : HuffmanNode) :
  full p -> sums_ok p -> leaves_hold count p ->
  freq_of p = leaf_weight count (leaf_paths p)
  /\ inner_cost p = weighted_length count (leaf_paths p).
Proof.
  induction p as [|b f l IHl r IHr]; cbn [full]; [intros []|].
  intros [[-> ->]|[Fl Fr]] Hs Hh.
  - cbn in Hh |- *. split; lia.
  - assert (E : is_null l && is_null r = false)
      by now rewrite (full_not_null l Fl).
    cbn [sums_ok leaves_hold inner_cost freq_of] in Hs, Hh |- *.
    rewrite E in Hs, Hh |- *.
    destruct Hs as (Hf & Sl & Sr). destruct Hh as (Hl & Hr).
    destruct (IHl Fl Sl Hl) as [Fl' Il]. destruct (IHr Fr Sr Hr) as [Fr' Ir].
    rewrite leaf_paths_internal by exact E.
    rewrite leaf_weight_app, weighted_length_app, !leaf_weight_map_cons,
      !weighted_length_map_cons.
    split; lia.
Qed.

Lemma code_lengths_cons (count : Byte -> Z) (k : Byte) (c : std_string)
    (p : StdMap.t std_string) :
  code_lengths count ((k, c) :: p)
  = (count k, length c) :: code_lengths count p.
Proof. reflexivity. Qed.

Lemma lengths_cost_code_lengths (count : Byte -> Z) (p : StdMap.t std_string) :
  lengths_cost (code_lengths count p) = weighted_length count p.
Proof.
  induction p as [|[k c] p IH]; [reflexivity|].
  now rewrite code_lengths_cons, lengths_cost_cons, weighted_length_cons, IH.
Qed.

(** Kraft's inequality for the codes of a tree. *)
Lemma kraft_leaf_paths (count : Byte -> Z) (p : HuffmanNode) :
  forall H : nat,
    Forall (fun e => (length (snd e) <= H)%nat) (leaf_paths p) ->
    kraft_sum H (code_lengths count (leaf_paths p)) <= 2 ^ Z.of_nat H.
Proof.
  induction p as [|b f l IHl r IHr]; intros H Hlen.
  - cbn. pose proof (Z.pow_pos_nonneg 2 (Z.of_nat H) ltac:(lia) ltac:(lia)).
    lia.
  - destruct (is_null l && is_null r) eqn:E.
    + rewrite leaf_paths_leaf by exact E.
      rewrite code_lengths_cons, kraft_sum_cons. cbn [length].
      change (kraft_sum H (code_lengths count [])) with 0.
      rewrite Nat.sub_0_r. lia.
    + rewrite leaf_paths_internal in Hlen |- * by exact E.
      apply Forall_app in Hlen. destruct Hlen as [Hl Hr].
      assert (Hshift : forall (c : ascii) (q : StdMap.t std_string) (H' : nat),
                kraft_sum (S H')
                  (code_lengths count (map (fun e => (fst e, c :: snd e)) q))
                = kraft_sum H' (code_lengths count q)).
      { intros c q H'. induction q as [|[k s] q IHq]; [reflexivity|].
        cbn [map fst snd].
        rewrite !code_lengths_cons, !kraft_sum_cons, IHq. reflexivity. }
      assert (Hdown : forall (c : ascii) (q : StdMap.t std_string) (H' : nat),
                Forall (fun e => (length (snd e) <= S H')%nat)
                  (map (fun e => (fst e, c :: snd e)) q) ->
                Forall (fun e => (length (snd e) <= H')%nat) q).
      { intros c q H' Hq. rewrite List.Forall_forall in Hq |- *.
        intros e He.
        specialize (Hq (fst e, c :: snd e)
                      ltac:(apply in_map_iff; now exists e)).
        cbn [snd length] in Hq. lia. }
      assert (Hcl : forall q q' : StdMap.t std_string,
                code_lengths count (q ++ q')
                = code_lengths count q ++ code_lengths count q')
        by (intros; apply map_app).
      rewrite Hcl.
      assert (Happ : forall P Q, kraft_sum H (P ++ Q)
                                 = kraft_sum H P + kraft_sum H Q).
      { intros P Q. induction P as [|[w d] P IHP]; [reflexivity|].
        cbn [app]. rewrite !kraft_sum_cons, IHP. lia. }
      rewrite Happ.
      destruct H as [|H'].
      * (* no code fits: the subtrees have no leaves *)
        assert (Hnil : forall (c : ascii) (q : StdMap.t std_string),
                  Forall (fun e => (length (snd e) <= 0)%nat)
                    (map (fun e => (fst e, c :: snd e)) q) -> q = []).
        { intros c [|e q] Hq; [reflexivity|].
          inversion Hq as [|? ? He _]; subst. cbn [snd length] in He. lia. }
        rewrite (Hnil _ _ Hl), (Hnil _ _ Hr). cbn. lia.
      * rewrite !Hshift.
        pose proof (IHl H' (Hdown _ _ _ Hl)). pose proof (IHr H' (Hdown _ _ _ Hr)).
        replace (Z.of_nat (S H')) with (Z.of_nat H' + 1) by lia.
        rewrite Z.pow_add_r by lia. lia.
Qed.

(** ** The table of a tree whose leaves hold different bytes *)

Lemma put_new_perm {V} (k : Byte) (v : V) (m : StdMap.t V) :
  StdMap.find k m = None -> StdMap.put k v m ≡ₚ (k, v) :: m.
Proof.
  induction m as [|[k' v'] m IH]; cbn [StdMap.find StdMap.put];
    [reflexivity|].
  destruct (Byte.eqb k k'); [discriminate|]. intros Hf.
  destruct (StdMap.key_lt k k'); [reflexivity|].
  rewrite (IH Hf). apply perm_swap.
Qed.

Lemma fold_put_path_perm (paths table : StdMap.t std_string) :
  List.NoDup (map fst paths) ->
  (forall k, In k (map fst paths) -> StdMap.find k table = None) ->
  fold_left (put_path []) paths table ≡ₚ paths ++ table.
Proof.
  revert table. induction paths as [|[k c] paths IH]; intros table Hnd Hnew.
  - reflexivity.
  - cbn [fold_left map fst] in *. inversion Hnd as [|? ? Hk Hnd']; subst.
    rewrite IH.
    + unfold put_path. cbn [fst snd app].
      rewrite put_new_perm by (apply Hnew; now left).
      symmetry. apply Permutation_middle.
    + exact Hnd'.
    + intros k' Hk'. unfold put_path. cbn [fst snd].
      rewrite StdMapFacts.find_put_ne.
      * apply Hnew. now right.
      * intros ->. contradiction.
Qed.

Lemma table_perm_leaf_paths (p : HuffmanNode) :
  List.NoDup (leaves p) ->
  create_substitution_table p [] [] ≡ₚ leaf_paths p.
Proof.
  intros Hnd. rewrite create_substitution_table_fold.
  rewrite fold_put_path_perm; [now rewrite app_nil_r|exact Hnd|reflexivity].
Qed.

(** ** The frequency table of an input of fewer than [2^32] bytes *)

Lemma occurrences_le_length (k : Byte) (data : list Byte) :
  occurrences k data <= Z.of_nat (length data).
Proof.
  induction data as [|x data IH]; [reflexivity|].
  cbn [occurrences length]. destruct (Byte.eqb k x); lia.
Qed.

Lemma count_frequencies_exact (data : list Byte) (k : Byte) (n : Z) :
  Z.of_nat (length data) < UINT32_MOD ->
  In (k, n) (count_frequencies data) ->
  n = occurrences k data.
Proof.
  intros Hlen Hin.
  apply (StdMapFacts.sorted_In_find k n) in Hin;
    [|apply count_frequencies_sorted].
  rewrite count_frequencies_find in Hin.
  destruct (occurrences k data =? 0); [discriminate|].
  injection Hin as <-. apply to_uint32_small.
  pose proof (occurrences_nonneg k data).
  pose proof (occurrences_le_length k data). lia.
Qed.

Lemma count_of_le_sum (m : StdMap.t Z) (k : Byte) :
  Forall (fun e => 0 <= snd e) m -> 0 <= count_of m k <= sum_counts m.
Proof.
  unfold count_of, default.
  induction 1 as [|[k' v'] m Hv _ IH];
    cbn [StdMap.find from_option id]; [cbn; lia|].
  rewrite sum_counts_cons. cbn [snd] in Hv.
  assert (0 <= sum_counts m).
  { unfold from_option, id in IH. destruct (StdMap.find k m); lia. }
  unfold from_option, id in *.
  destruct (Byte.eqb k k'); [lia|]. destruct (StdMap.find k m); lia.
Qed.

Lemma count_step_nonneg (m : StdMap.t Z) (b : Byte) :
  Forall (fun e => 0 <= snd e) m ->
  Forall (fun e => 0 <= snd e) (count_step m b).
Proof.
  intros Hm. apply List.Forall_forall. intros e He.
  rewrite List.Forall_forall in Hm.
  unfold count_step, StdMap.subscript in He.
  destruct (StdMap.find b m).
  - apply StdMapFacts.put_In in He. destruct He as [->|He];
      [cbn [snd]; apply to_uint32_range|now apply Hm].
  - apply StdMapFacts.put_In in He. destruct He as [->|He];
      [cbn [snd]; apply to_uint32_range|].
    apply StdMapFacts.put_In in He. destruct He as [->|He];
      [cbn [snd]; lia|now apply Hm].
Qed.

Lemma sum_counts_count_step_exact (m : StdMap.t Z) (b : Byte) :
  StdMap.sorted m ->
  Forall (fun e => 0 <= snd e) m ->
  sum_counts m + 1 < UINT32_MOD ->
  sum_counts (count_step m b) = sum_counts m + 1.
Proof.
  intros Hs Hnn Hsum.
  pose proof (count_of_le_sum m b Hnn) as Hc.
  unfold count_step, StdMap.subscript. unfold count_of in Hc.
  destruct (StdMap.find b m) as [n|] eqn:E;
    unfold default in Hc; cbn [from_option id] in Hc.
  - rewrite sum_counts_put by exact Hs. unfold count_of. rewrite E.
    unfold default. cbn [from_option id].
    rewrite to_uint32_small by lia. lia.
  - rewrite sum_counts_put by now apply StdMapFacts.sorted_put.
    rewrite sum_counts_put by exact Hs. unfold count_of.
    rewrite StdMapFacts.find_put_eq, E. unfold default. cbn [from_option id].
    rewrite to_uint32_small by (unfold UINT32_MOD; lia). lia.
Qed.

Lemma sum_counts_fold_exact (data : list Byte) (m : StdMap.t Z) :
  StdMap.sorted m ->
  Forall (fun e => 0 <= snd e) m ->
  sum_counts m + Z.of_nat (length data) < UINT32_MOD ->
  sum_counts (fold_left count_step data m)
  = sum_counts m + Z.of_nat (length data).
Proof.
  revert m. induction data as [|b data IH]; intros m Hs Hnn Hsum;
    cbn [fold_left length] in *; [lia|].
  rewrite IH.
  - rewrite sum_counts_count_step_exact by (assumption || lia). lia.
  - now apply count_step_sorted.
  - now apply count_step_nonneg.
  - rewrite sum_counts_count_step_exact by (assumption || lia). lia.
Qed.

(** ** The theorem *)

(** The bits of an encoding, counted on the leaves of the tree. *)
Lemma total_code_length_leaf_paths (data : list Byte) (p : HuffmanNode) :
  List.NoDup (leaves p) ->
  total_code_length (create_substitution_table p [] []) data
  = weighted_length (fun k => occurrences k data) (leaf_paths p).
Proof.
  intros Hnd.
  rewrite total_code_length_weighted by apply create_substitution_table_sorted.
  apply weighted_length_perm, table_perm_leaf_paths, Hnd.
Qed.

(** The tree of [build_huffman_tree] against another tree with the same
    leaves: the sums of count times length of code. *)
Lemma huffman_cost_optimal (data : list Byte) (root other : HuffmanNode) :
  Z.of_nat (length data) < UINT32_MOD ->
  build_huffman_tree (count_frequencies data) = Returns root ->
  leaves other ≡ₚ StdMap.keys (count_frequencies data) ->
  weighted_length (fun k => occurrences k data) (leaf_paths root)
  <= weighted_length (fun k => occurrences k data) (leaf_paths other).
Proof.
  intros Hlen Hb Hother.
  set (count := fun k => occurrences k data).
  set (freqs := count_frequencies data) in *.
  destruct (build_huffman_tree_merges freqs root Hb) as [Hne Hg].
  assert (Hexact : forall e, In e freqs -> snd e = count (fst e)).
  { intros [k n] Hin. cbn [fst snd]. unfold count.
    now apply count_frequencies_exact. }
  (* the leaves that the tree is built of *)
  set (queue := map (fun pair => new_leaf (fst pair) (snd pair)) freqs) in *.
  assert (Hqueue : Forall (counted count) queue).
  { apply List.Forall_forall. intros x Hx. apply in_map_iff in Hx.
    destruct Hx as ([k n] & <- & Hin). cbn [fst snd].
    pose proof (Hexact _ Hin) as Hn. cbn [fst snd] in Hn.
    unfold counted. split; [apply full_new_leaf|]. cbn.
    split; [exact I|]. split; [exact Hn|].
    rewrite Hn. apply occurrences_nonneg. }
  assert (Hsum : sum_freq queue < UINT32_MOD).
  { unfold queue. rewrite sum_freq_leaves. unfold freqs.
    rewrite count_frequencies_fold, sum_counts_fold_exact;
      [cbn; lia|exact I|constructor|cbn; lia]. }
  assert (Hinner0 : sum_inner_cost queue = 0).
  { unfold queue. clear. induction freqs as [|[k n] m IH]; [reflexivity|].
    cbn [map]. rewrite sum_inner_cost_cons, IH. reflexivity. }
  destruct (greedy_merge_counted count queue root Hg Hqueue Hsum)
    as (Hfull & Hsums & Hhold & _).
  destruct (inner_cost_leaf_paths count root Hfull Hsums Hhold) as [_ Hcost].
  rewrite <- Hcost, <- lengths_cost_code_lengths.
  (* the lengths of the codes of the other tree *)
  set (H := list_max (map (fun e => length (snd e)) (leaf_paths other))).
  assert (HH : Forall (fun e => (length (snd e) <= H)%nat) (leaf_paths other)).
  { assert (Hmax : (list_max (map (fun e => length (snd e))
                                (leaf_paths other)) <= H)%nat)
      by (unfold H; lia).
    apply list_max_le in Hmax. rewrite List.Forall_forall in Hmax |- *.
    intros e He. apply Hmax. apply in_map_iff. now exists e. }
  pose proof (greedy_merge_optimal count queue root Hg Hqueue Hsum H
                (code_lengths count (leaf_paths other))) as Hopt.
  rewrite Hinner0 in Hopt.
  assert (inner_cost root - 0
          <= lengths_cost (code_lengths count (leaf_paths other))); [|lia].
  apply Hopt.
  - unfold code_lengths, queue. rewrite !map_map. cbn [fst freq_of new_leaf].
    transitivity (map count (leaves other));
      [unfold leaves; now rewrite map_map|].
    rewrite Hother. unfold StdMap.keys. rewrite map_map.
    erewrite map_ext_in; [reflexivity|].
    intros e He. cbn beta. symmetry. now apply Hexact.
  - apply List.Forall_forall. intros [w d] He. cbn [snd].
    unfold code_lengths in He. apply in_map_iff in He.
    destruct He as (e & [= <- <-] & He).
    rewrite List.Forall_forall in HH. now apply HH.
  - now apply kraft_leaf_paths.
Qed.

(** X22.  For an input of fewer than [2^32] bytes, no binary code tree
    whose leaves are the bytes of the input gives a shorter encoding than
    the tree that [build_huffman_tree] returns: with the substitution
    table of any such tree, the codes of the bytes of the input have at
    least as many bits in all. *)
Theorem huffman_tree_is_optimal (data : list Byte) (root other : HuffmanNode) :
  Z.of_nat (length data) < UINT32_MOD ->
  build_huffman_tree (count_frequencies data) = Returns root ->
  leaves other ≡ₚ StdMap.keys (count_frequencies data) ->
  total_code_length (create_substitution_table root [] []) data
  <= total_code_length (create_substitution_table other [] []) data.
Proof.
  intros Hlen Hb Hother.
  pose proof (sorted_keys_NoDup _ (count_frequencies_sorted data)) as Hnd.
  assert (Hne : count_frequencies data <> []).
  { intros E. rewrite E, build_huffman_tree_empty in Hb. discriminate. }
  destruct (build_huffman_tree_spec _ Hne) as (root' & Hb' & _ & Hleaves & _).
  rewrite Hb in Hb'. injection Hb' as <-.
  rewrite !total_code_length_leaf_paths.
  - now apply huffman_cost_optimal.
  - eapply Permutation_NoDup; [symmetry; exact Hother|exact Hnd].
  - eapply Permutation_NoDup; [symmetry; exact Hleaves|exact Hnd].
Qed.

Lemma huffman_tree_is_optimal_witness :
  let data := ["A"; "B"; "C"; "A"]%byte in
  let root := Node NULL_CHAR 4 (new_leaf "A" 2)
                (Node NULL_CHAR 2 (new_leaf "B" 1) (new_leaf "C" 1)) in
  let other := Node NULL_CHAR 0
                 (Node NULL_CHAR 0 (new_leaf "A" 0) (new_leaf "B" 0))
                 (new_leaf "C" 0) in
  Z.of_nat (length data) < UINT32_MOD
  /\ build_huffman_tree (count_frequencies data) = Returns root
  /\ leaves other ≡ₚ StdMap.keys (count_frequencies data)
  /\ total_code_length (create_substitution_table root [] []) data
     <= total_code_length (create_substitution_table other [] []) data.
Proof.
  intros data root other.
  assert (H1 : Z.of_nat (length data) < UINT32_MOD) by (vm_compute; reflexivity).
  assert (H2 : build_huffman_tree (count_frequencies data) = Returns root)
    by reflexivity.
  assert (H3 : leaves other ≡ₚ StdMap.keys (count_frequencies data))
    by (vm_compute; reflexivity).
  split; [exact H1|]. split; [exact H2|]. split; [exact H3|].
  apply (huffman_tree_is_optimal data root other H1 H2 H3).
Defined.

(** * The packed data against the input *)

Lemma balanced_not_null (d : nat) (keys : list Byte) :
  keys <> [] -> (length keys <= 2 ^ d)%nat ->
  is_null (balanced d keys) = false.
Proof.
  intros Hne Hlen. destruct keys as [|k1 [|k2 keys]]; [congruence| |].
  - now destruct d.
  - destruct d as [|d]; [cbn in Hlen; lia|reflexivity].
Qed.

(** The leaves of [balanced d keys] are [keys], and no code is longer
    than [d]. *)
Lemma balanced_paths (d : nat) :
  forall keys : list Byte,
    (length keys <= 2 ^ d)%nat ->
    map fst (leaf_paths (balanced d keys)) = keys
    /\ Forall (fun e => (length (snd e) <= d)%nat)
         (leaf_paths (balanced d keys)).
Proof.
  induction d as [|d IH]; intros keys Hlen.
  - destruct keys as [|k1 [|k2 keys]]; cbn in Hlen |- *.
    + now split.
    + split; [reflexivity|]. repeat constructor.
    + lia.
  - destruct keys as [|k1 [|k2 keys]].
    + now split.
    + split; [reflexivity|]. repeat constructor. cbn. lia.
    + set (ks := k1 :: k2 :: keys) in *.
      change (balanced (S d) ks)
        with (Node NULL_CHAR 0 (balanced d (take (2 ^ d) ks))
                (balanced d (drop (2 ^ d) ks))).
      assert (Hpow : (2 ^ S d = 2 * 2 ^ d)%nat) by (cbn; lia).
      assert (Hpos : (1 <= 2 ^ d)%nat).
      { clear. induction d; cbn; lia. }
      assert (Htake : (length (take (2 ^ d) ks) <= 2 ^ d)%nat)
        by (rewrite length_take; lia).
      assert (Hdrop : (length (drop (2 ^ d) ks) <= 2 ^ d)%nat)
        by (rewrite length_drop; lia).
      destruct (IH _ Htake) as [Hl1 Hl2]. destruct (IH _ Hdrop) as [Hr1 Hr2].
      assert (Hnn : is_null (balanced d (take (2 ^ d) ks)) = false).
      { apply balanced_not_null; [|exact Htake].
        destruct (2 ^ d)%nat; [lia|]. discriminate. }
      rewrite leaf_paths_internal by now rewrite Hnn.
      split.
      * rewrite map_app, !map_map. cbn [fst].
        rewrite <- (take_drop (2 ^ d) ks) at 3.
        rewrite <- Hl1 at 2. rewrite <- Hr1 at 2.
        f_equal; apply map_ext; now intros [].
      * apply Forall_app. split; apply List.Forall_forall; intros e He;
          apply in_map_iff in He; destruct He as (e' & <- & He');
          cbn [snd length].
        -- rewrite List.Forall_forall in Hl2. specialize (Hl2 _ He'). lia.
        -- rewrite List.Forall_forall in Hr2. specialize (Hr2 _ He'). lia.
Qed.

(** With codes of at most [d] bits the encoding has at most [d] bits for
    every byte of the input. *)
Lemma total_code_length_le (other : HuffmanNode) (d : nat)
    (data : list Byte) :
  Forall (fun e => (length (snd e) <= d)%nat) (leaf_paths other) ->
  total_code_length (create_substitution_table other [] []) data
  <= Z.of_nat d * Z.of_nat (length data).
Proof.
  intros Hall. induction data as [|b data IH]; [cbn; lia|].
  rewrite total_code_length_cons. cbn [length].
  assert (Z.of_nat (length (code_of (create_substitution_table other [] []) b))
          <= Z.of_nat d); [|nia].
  unfold code_of.
  destruct (StdMap.find b (create_substitution_table other [] []))
    as [c|] eqn:E; [|cbn; lia].
  apply table_entry_leaf_path in E. rewrite List.Forall_forall in Hall.
  specialize (Hall _ E). cbn in Hall |- *. lia.
Qed.

Lemma huffman_at_most_8_bits (data : list Byte) (root : HuffmanNode) :
  Z.of_nat (length data) < UINT32_MOD ->
  build_huffman_tree (count_frequencies data) = Returns root ->
  total_code_length (create_substitution_table root [] []) data
  <= 8 * Z.of_nat (length data).
Proof.
  intros Hlen Hb.
  set (keys := StdMap.keys (count_frequencies data)).
  pose proof (sorted_keys_NoDup _ (count_frequencies_sorted data)) as Hnd.
  fold keys in Hnd.
  assert (Hk : (length keys <= 2 ^ 8)%nat).
  { unfold keys, StdMap.keys. rewrite length_map.
    pose proof (length_sorted_le_256 _ (count_frequencies_sorted data)).
    change (2 ^ 8)%nat with 256%nat. lia. }
  destruct (balanced_paths 8 keys Hk) as [Hleaves Hdepth].
  assert (Hperm : leaves (balanced 8 keys) ≡ₚ keys).
  { unfold leaves. now rewrite Hleaves. }
  assert (Hne : count_frequencies data <> []).
  { intros E. rewrite E, build_huffman_tree_empty in Hb. discriminate. }
  destruct (build_huffman_tree_spec _ Hne) as (root' & Hb' & _ & Hl & _).
  rewrite Hb in Hb'. injection Hb' as <-.
  pose proof (huffman_cost_optimal data root (balanced 8 keys) Hlen Hb Hperm)
    as Hopt.
  pose proof (total_code_length_le (balanced 8 keys) 8 data Hdepth) as Hle.
  rewrite total_code_length_leaf_paths in Hle
    by (eapply Permutation_NoDup; [symmetry; exact Hperm|exact Hnd]).
  rewrite total_code_length_leaf_paths
    by (eapply Permutation_NoDup; [symmetry; exact Hl|exact Hnd]).
  lia.
Qed.

(** X23.  For a non-empty input of at most [(INT_MAX - 8) / 8] bytes
    [compress] returns, and the packed data that it writes is at most one
    byte longer than the input: no code tree with the bytes of the input
    as leaves does better than the tree of [build_huffman_tree], and one
    of them gives every byte a code of at most eight bits. *)
Theorem compress_adds_at_most_one_byte (p : platform) (data : list Byte) :
  data <> [] ->
  8 * Z.of_nat (length data) + 8 <= INT_MAX ->
  exists (file : list Byte) (compressed_size : Z),
    compress p data = Returns (file, compressed_size)
    /\ 1 <= compressed_size <= Z.of_nat (length data) + 1.
Proof.
  intros Hne Hsmall.
  destruct (compress_prepare_spec data Hne) as (root & Hb & _ & _ & Hst).
  cbn zeta in Hst.
  assert (Hbits : total_code_length (create_substitution_table root [] []) data
                  <= 8 * Z.of_nat (length data)).
  { apply huffman_at_most_8_bits; [|exact Hb].
    unfold INT_MAX, UINT32_MOD in *. lia. }
  rewrite <- length_flat_map_code_of in Hbits.
  destruct (padded_length data (create_substitution_table root [] [])
              (create_substitution_table_sorted root))
    as (Hpad & k & Hk & Hds & Hk1).
  cbn zeta in Hpad, Hk, Hds.
  destruct (compress_returns p data Hne) as (st & Hst' & Hcomp).
  rewrite Hst in Hst'. injection Hst' as <-.
  cbn [encoded padding frequencies original_file_size] in Hcomp.
  destruct Hcomp as (packed & Hfile & _ & Hlen & _); [lia|].
  rewrite Hds in Hfile.
  set (pad := CHAR_BIT - _ mod CHAR_BIT) in *.
  pose proof (length_pad_data
                (flat_map (code_of (create_substitution_table root [] [])) data)
                pad ltac:(lia)) as Hl.
  pose proof (f_equal Z.of_nat Hk) as Hk'. rewrite Nat2Z.inj_mul in Hk'.
  assert (Hkle : Z.of_nat k <= Z.of_nat (length data) + 1).
  { unfold std_string in *. lia. }
  eexists _, _. split; [exact Hfile|].
  rewrite to_uint32_small by (unfold INT_MAX, UINT32_MOD in *; lia). lia.
Qed.

Lemma compress_adds_at_most_one_byte_witness :
  AAAABBBB <> []
  /\ 8 * Z.of_nat (length AAAABBBB) + 8 <= INT_MAX
  /\ exists (file : list Byte) (compressed_size : Z),
       compress LP64 AAAABBBB = Returns (file, compressed_size)
       /\ 1 <= compressed_size <= Z.of_nat (length AAAABBBB) + 1.
Proof.
  assert (H1 : AAAABBBB <> []) by discriminate.
  assert (H2 : 8 * Z.of_nat (length AAAABBBB) + 8 <= INT_MAX)
    by (vm_compute; discriminate).
  split; [exact H1|]. split; [exact H2|].
  apply (compress_adds_at_most_one_byte LP64 AAAABBBB H1 H2).
Defined.
